(** * Face-Detection-Recognition: tracker, matcher and gallery store

    A shallow embedding of the tracking / matching / persistence core of
    the repository:

    - [src/main.py]                          class [FaceTracker] and the
                                             frame loop of
                                             [FaceRecognitionSystem]
    - [src/recognition/face_matcher.py]      class [FaceMatcher]
    - [src/recognition/database_manager.py]  class [FaceDatabase]
    - [src/recognition/face_encoder.py]      the crop and the local binary
                                             patterns of [FaceEncoder]
    - [src/detection/dnn_detector.py],
      [src/detection/mtcnn_detector.py]      the boxes of the detectors
    - [src/utils/config.py]                  [Config.get]
    - [scripts/register_face.py]             class [FaceRegistration]

    Conventions of the embedding.

    - Python [float] values (confidences, distances, IoU) are idealised as
      exact rationals [Q]; equalities between computed floats are stated
      with [==] ([Qeq]).  Bounding-box coordinates are integers [Z]: the
      detectors deliver pixel coordinates, far from any machine bound.
    - A Python [dict] is an insertion-ordered association list with
      first-match lookup ([PyDict]); iteration order is the list order.
    - A raised exception is an explicit outcome of the function.
    - The file system, the console and the clock are an explicit world
      that the durable operations thread through a small state-and-error
      monad; [pickle], [json] and [pathlib] are parameters.

    The definitions come first, module by module; the lemmas and the
    theorems about them follow in the same order. *)

From Stdlib Require Import ZArith QArith Qminmax Qround Lia Lqa.
From stdpp Require Import base option list gmap strings pretty.

Set Default Proof Using "Type".

(* ===================================================================== *)
(** * Insertion-ordered dictionaries *)
(* ===================================================================== *)

Module PyDict.
Section Defs.
Context {K V : Type} `{EqDecision K}.

(** [d.get(k)] / [d[k]]: the first entry with key [k]. *)
Fixpoint dict_get (k : K) (d : list (K * V)) : option V :=
match d with
| [] => None
| (k', v) :: r => if decide (k = k') then Some v else dict_get k r
end.

(** [d[k] = v]: an existing key keeps its position, a new key is
  appended at the end of the iteration order. *)
Fixpoint dict_set (k : K) (v : V) (d : list (K * V)) : list (K * V) :=
match d with
| [] => [(k, v)]
| (k', v') :: r =>
    if decide (k = k') then (k, v) :: r else (k', v') :: dict_set k v r
end.

(** [del d[k]]. *)
Fixpoint dict_del (k : K) (d : list (K * V)) : list (K * V) :=
match d with
| [] => []
| (k', v') :: r =>
    if decide (k = k') then dict_del k r else (k', v') :: dict_del k r
end.

(** [list(d.keys())]. *)
Definition dict_keys (d : list (K * V)) : list K := map fst d.

(** [k in d]. *)
Definition dict_mem (k : K) (d : list (K * V)) : bool :=
match dict_get k d with Some _ => true | None => false end.

(** Keys of a Python dict are pairwise distinct. *)
Definition dict_wf (d : list (K * V)) : Prop := NoDup (dict_keys d).
End Defs.
End PyDict.
Import PyDict.

(* ===================================================================== *)
(** * Numeric helpers (Python / numpy primitives) *)
(* ===================================================================== *)

Module Num.
Local Open Scope Q_scope.

(** [a > b] on floats. *)
Definition Qgtb (a b : Q) : bool :=
  match a ?= b with Gt => true | _ => false end.

(** [a < b] on floats. *)
Definition Qltb (a b : Q) : bool :=
  match a ?= b with Lt => true | _ => false end.

(** [sum(l)] / [np.sum(l)]. *)
Definition Qsum (l : list Q) : Q := fold_right Qplus 0 l.

(** [np.mean(q)] over a non-empty sequence. *)
Definition np_mean (q : list Q) : Q :=
  Qsum q / inject_Z (Z.of_nat (length q)).

(** [max(iterable, key=...)] of CPython: the running maximum is replaced
    only by a strictly greater element, so the first maximal one wins. *)
Fixpoint max_from {A} (gt : A -> A -> bool) (best : A) (l : list A) : A :=
  match l with
  | [] => best
  | x :: r => max_from gt (if gt x best then x else best) r
  end.

Definition py_max {A} (gt : A -> A -> bool) (l : list A) : option A :=
  match l with
  | [] => None
  | x :: r => Some (max_from gt x r)
  end.

(** [np.argmin(l)]: index of the first minimal element. *)
Fixpoint argmin_from (best_i : nat) (best : Q) (i : nat) (l : list Q) : nat :=
  match l with
  | [] => best_i
  | x :: r =>
      if Qltb x best then argmin_from i x (S i) r
      else argmin_from best_i best (S i) r
  end.

Definition np_argmin (l : list Q) : option nat :=
  match l with
  | [] => None
  | x :: r => Some (argmin_from 0 x 1 r)
  end.



End Num.
Import Num.

(* ===================================================================== *)
(** * [FaceTracker] (src/main.py) *)
(* ===================================================================== *)

Module Tracker.
Local Open Scope Z_scope.

(** A bounding box [(x, y, w, h)]. *)
Definition BBox : Type := Z * Z * Z * Z.

(** A [deque(maxlen=...)] of confidences, oldest first. *)
Definition Votes : Type := list Q.

Record Track := mkTrack {
  bbox : BBox;
  name_votes : list (string * Votes);
  age : Z
}.

Record FaceTracker := mkFaceTracker {
  tracks : list (Z * Track);
  next_id : Z;
  history_size : nat;
  iou_threshold : Q;
  max_age : Z
}.

(** [FaceTracker.__init__]. *)
Definition init (history_size : nat) (iou_threshold : Q) : FaceTracker :=
  {| tracks := []; next_id := 0; history_size := history_size;
     iou_threshold := iou_threshold; max_age := 10 |}.

(** One input tuple [(bbox, name, confidence, is_known)] and one output
    tuple of [update]; both have the same shape. *)
Definition Detection : Type := BBox * string * Q * bool.

(** [FaceTracker._calculate_iou]. *)
Definition _calculate_iou (bbox1 bbox2 : BBox) : Q :=
  let '(x1, y1, w1, h1) := bbox1 in
  let '(x2, y2, w2, h2) := bbox2 in
  let x_left := Z.max x1 x2 in
  let y_top := Z.max y1 y2 in
  let x_right := Z.min (x1 + w1) (x2 + w2) in
  let y_bottom := Z.min (y1 + h1) (y2 + h2) in
  if (x_right <? x_left) || (y_bottom <? y_top) then 0%Q
  else
    let intersection := (x_right - x_left) * (y_bottom - y_top) in
    let union := w1 * h1 + w2 * h2 - intersection in
    if 0 <? union then (inject_Z intersection / inject_Z union)%Q
    else 0%Q.

(** [deque.append] on a deque with [maxlen]: the oldest entries are
    dropped on overflow. *)
Definition deque_append (maxlen : nat) (q : Votes) (c : Q) : Votes :=
  let q' := q ++ [c] in
  drop (length q' - maxlen)%nat q'.

(** [deque([c], maxlen=...)]. *)
Definition deque_single (maxlen : nat) (c : Q) : Votes :=
  deque_append maxlen [] c.

(** Truthiness of a [str]. *)
Definition truthy (name : string) : bool :=
  negb (bool_decide (name = ""%string)).

(** The [key] of the [max] call, [(len(x[1]), np.mean(x[1]))], and the
    tuple comparison [key x > key y]. *)
Definition vote_key (x : string * Votes) : nat * Q :=
  (length x.2, np_mean x.2).

Definition key_gt (a b : nat * Q) : bool :=
  if decide (a.1 = b.1) then Qgtb a.2 b.2 else bool_decide (b.1 < a.1)%nat.

Definition vote_gt (x y : string * Votes) : bool :=
  key_gt (vote_key x) (vote_key y).

(** Lines 77-84 of [update]: the stabilized name and confidence of a
    track, given the confidence of the current detection. *)
Definition stabilize (votes : list (string * Votes)) (confidence : Q)
  : string * Q :=
  match py_max vote_gt votes with
  | Some best_name => (best_name.1, np_mean best_name.2)
  | None => ("Unknown"%string, confidence)
  end.

(** Lines 45-48: age every track, delete the ones that got too old. *)
Definition age_one (max_age : Z) (ts : list (Z * Track)) (track_id : Z)
  : list (Z * Track) :=
  match dict_get track_id ts with
  | Some t =>
      let t' := {| bbox := bbox t; name_votes := name_votes t;
                   age := age t + 1 |} in
      if max_age <? age t' then dict_del track_id ts
      else dict_set track_id t' ts
  | None => ts
  end.

Definition age_tracks (max_age : Z) (ts : list (Z * Track))
  : list (Z * Track) :=
  fold_left (age_one max_age) (dict_keys ts) ts.

(** Lines 54-64: the best unclaimed track by IoU. *)
Definition best_step (thr : Q) (matched : gset Z) (b : BBox)
    (acc : Q * option Z) (kv : Z * Track) : Q * option Z :=
  let '(best_iou, best_track_id) := acc in
  if bool_decide (kv.1 ∈ matched) then acc
  else
    let iou := _calculate_iou b (bbox kv.2) in
    if Qgtb iou best_iou && Qgtb iou thr then (iou, Some kv.1) else acc.

Definition find_best (thr : Q) (matched : gset Z) (b : BBox)
    (ts : list (Z * Track)) : option Z :=
  (fold_left (best_step thr matched b) ts (0%Q, None)).2.

(** Lines 72-75: push the confidence on the name's vote queue. *)
Definition push_vote (maxlen : nat) (name : string) (confidence : Q)
    (votes : list (string * Votes)) : list (string * Votes) :=
  let votes :=
    if dict_mem name votes then votes else dict_set name [] votes in
  match dict_get name votes with
  | Some q => dict_set name (deque_append maxlen q confidence) votes
  | None => votes
  end.

(** Which track an iteration of the detection loop claimed: the value
    of [best_track_id] when a track was re-matched, the fresh [track_id]
    otherwise.  This is a ghost record, used by statements only. *)
Inductive claim :=
| Rematched (track_id : Z)
| Created (track_id : Z).

Definition claim_id (c : claim) : Z :=
  match c with Rematched i => i | Created i => i end.

(** The state of the detection loop of [update]. *)
Record Loop := mkLoop {
  l_self : FaceTracker;
  l_matched : gset Z;
  l_results : list Detection;
  l_claims : list claim
}.

Definition set_tracks (ts : list (Z * Track)) (s : FaceTracker) : FaceTracker :=
  {| tracks := ts; next_id := next_id s; history_size := history_size s;
     iou_threshold := iou_threshold s; max_age := max_age s |}.

(** Lines 53-98: the body of the loop over the detections.  The lookup
    [self.tracks[best_track_id]] cannot fail, since [best_track_id] is a
    key that the search just met; that branch leaves the state as it
    is. *)
Definition loop_body (l : Loop) (d : Detection) : Loop :=
  let '(b, name, confidence, is_known) := d in
  let self := l_self l in
  match find_best (iou_threshold self) (l_matched l) b (tracks self) with
  | Some best_track_id =>
      match dict_get best_track_id (tracks self) with
      | Some track =>
          let votes :=
            if truthy name && is_known
            then push_vote (history_size self) name confidence (name_votes track)
            else name_votes track in
          let track' := {| bbox := b; name_votes := votes; age := 0 |} in
          let '(stable_name, stable_confidence) := stabilize votes confidence in
          {| l_self := set_tracks (dict_set best_track_id track' (tracks self)) self;
             l_matched := {[ best_track_id ]} ∪ l_matched l;
             l_results := l_results l ++
               [(b, stable_name, stable_confidence,
                 negb (bool_decide (stable_name = "Unknown"%string)))];
             l_claims := l_claims l ++ [Rematched best_track_id] |}
      | None => l
      end
  | None =>
      let track_id := next_id self in
      let track := {| bbox := b;
                      name_votes :=
                        if truthy name && is_known
                        then [(name, deque_single (history_size self) confidence)]
                        else [];
                      age := 0 |} in
      {| l_self := {| tracks := dict_set track_id track (tracks self);
                      next_id := next_id self + 1;
                      history_size := history_size self;
                      iou_threshold := iou_threshold self;
                      max_age := max_age self |};
         l_matched := {[ track_id ]} ∪ l_matched l;
         l_results := l_results l ++ [(b, name, confidence, is_known)];
         l_claims := l_claims l ++ [Created track_id] |}
  end.

(** [FaceTracker.update], with the loop state it ends in. *)
Definition update_loop (self : FaceTracker) (detections : list Detection) : Loop :=
  let aged := set_tracks (age_tracks (max_age self) (tracks self)) self in
  fold_left loop_body detections
    {| l_self := aged; l_matched := ∅; l_results := []; l_claims := [] |}.

(** [FaceTracker.update]: the new state and the returned list. *)
Definition update (self : FaceTracker) (detections : list Detection)
  : FaceTracker * list Detection :=
  let l := update_loop self detections in (l_self l, l_results l).

(** A sequence of [update] calls, one per frame. *)
Definition run (self : FaceTracker) (frames : list (list Detection))
  : FaceTracker :=
  fold_left (fun s f => (update s f).1) frames self.

(** [matched_tracks] at the end of an [update] call. *)
Definition matched_in (self : FaceTracker) (detections : list Detection)
  : gset Z :=
  l_matched (update_loop self detections).

(** The track [track_id] is in no [matched_tracks] set during the given
    consecutive calls. *)
Fixpoint unmatched_during (track_id : Z) (self : FaceTracker)
    (frames : list (list Detection)) : bool :=
  match frames with
  | [] => true
  | f :: r =>
      negb (bool_decide (track_id ∈ matched_in self f))
      && unmatched_during track_id (update self f).1 r
  end.

(** ** Vocabulary of the statements about [update] *)

Definition det_bbox (d : Detection) : BBox := d.1.1.1.
Definition det_name (d : Detection) : string := d.1.1.2.
Definition det_conf (d : Detection) : Q := d.1.2.
Definition det_known (d : Detection) : bool := d.2.

(** The effect of the ageing pass (lines 45-48) on one track. *)
Definition aged (max_age : Z) (t : Track) : option Track :=
  let t' := {| bbox := bbox t; name_votes := name_votes t;
               age := age t + 1 |} in
  if max_age <? age t' then None else Some t'.

Definition with_age (a : Z) (t : Track) : Track :=
  {| bbox := bbox t; name_votes := name_votes t; age := a |}.

(** The vote table of a re-matched track after lines 72-75. *)
Definition votes_after (maxlen : nat) (d : Detection)
    (votes : list (string * Votes)) : list (string * Votes) :=
  if truthy (det_name d) && det_known d
  then push_vote maxlen (det_name d) (det_conf d) votes
  else votes.

(** The vote table of a track created at line 93. *)
Definition votes_created (maxlen : nat) (d : Detection)
  : list (string * Votes) :=
  if truthy (det_name d) && det_known d
  then [(det_name d, deque_single maxlen (det_conf d))]
  else [].

(** The lexicographic order on the pairs (vote count, mean confidence). *)
Definition key_le (a b : nat * Q) : Prop :=
  (a.1 < b.1)%nat ∨ (a.1 = b.1 ∧ (a.2 <= b.2)%Q).

(** [name] with queue [q] maximizes (vote count, mean confidence) over
    [votes]. *)
Definition is_top_vote (votes : list (string * Votes))
    (name : string) (q : Votes) : Prop :=
  dict_get name votes = Some q
  ∧ ∀ x, x ∈ votes → key_le (vote_key x) (vote_key (name, q)).

(** Every track in [matched_tracks] is in the table, with age 0. *)
Definition matched_fresh (l : Loop) : Prop :=
  ∀ k, k ∈ l_matched l →
       ∃ t, dict_get k (tracks (l_self l)) = Some t ∧ age t = 0.

(** The state invariant of a tracker: track ids are distinct and below
    [next_id], and the names voted for in a track are distinct. *)
Definition tracker_wf (self : FaceTracker) : Prop :=
  dict_wf (tracks self)
  ∧ (∀ k, k ∈ dict_keys (tracks self) → k < next_id self)
  ∧ ∀ k t, dict_get k (tracks self) = Some t → dict_wf (name_votes t).

(** What the iteration that made claim [c] for detection [d] emitted as
    [r], in terms of the claimed track [t] as that call leaves it: a
    re-matched track emits its stabilized label (lines 77-86), a created
    track emits the detection as it came (line 98). *)
Definition emitted (maxlen : nat) (c : claim) (t : Track) (d r : Detection)
  : Prop :=
  bbox t = det_bbox d
  ∧ match c with
    | Rematched _ =>
        let st := stabilize (name_votes t) (det_conf d) in
        r = (det_bbox d, st.1, st.2,
             negb (bool_decide (st.1 = "Unknown"%string)))
    | Created _ => r = d ∧ name_votes t = votes_created maxlen d
    end.

(** The tuples the pipeline of [process_video] feeds to [update]:
    [(bbox, name, confidence, True)] for a recognised face, with a
    non-empty name other than "Unknown", and
    [(bbox, "Unknown", confidence, False)] otherwise. *)
Definition pipeline_detection (d : Detection) : Prop :=
  (det_known d = true ∧ det_name d ≠ ""%string
   ∧ det_name d ≠ "Unknown"%string)
  ∨ (det_known d = false ∧ det_name d = "Unknown"%string).

(** The output tuple the specification describes for a track [t]
    claimed by detection [d]: the stabilized label of the track, and
    [is_known] recomputed from the stabilized name. *)
Definition stabilized_output (t : Track) (d : Detection) (r : Detection)
  : Prop :=
  det_bbox r = det_bbox d
  ∧ det_name r = (stabilize (name_votes t) (det_conf d)).1
  ∧ (det_conf r == (stabilize (name_votes t) (det_conf d)).2)%Q
  ∧ det_known r = negb (bool_decide (det_name r = "Unknown"%string)).

(** ** Vocabulary of the statements about [_calculate_iou] *)

(** The horizontal and vertical extents [(x_left, x_right)] and
    [(y_top, y_bottom)] of the region two boxes share. *)
Definition x_extent (a b : BBox) : Z * Z :=
  let '(x1, _, w1, _) := a in
  let '(x2, _, w2, _) := b in
  (Z.max x1 x2, Z.min (x1 + w1) (x2 + w2)).

Definition y_extent (a b : BBox) : Z * Z :=
  let '(_, y1, _, h1) := a in
  let '(_, y2, _, h2) := b in
  (Z.max y1 y2, Z.min (y1 + h1) (y2 + h2)).

(** The boxes share a region of positive area. *)
Definition overlap (a b : BBox) : Prop :=
  (x_extent a b).1 < (x_extent a b).2 ∧ (y_extent a b).1 < (y_extent a b).2.

Definition area (a : BBox) : Z := let '(_, _, w, h) := a in w * h.

Definition intersection_area (a b : BBox) : Z :=
  let '(xl, xr) := x_extent a b in
  let '(yt, yb) := y_extent a b in
  if (xr <? xl) || (yb <? yt) then 0 else (xr - xl) * (yb - yt).

Definition union_area (a b : BBox) : Z :=
  area a + area b - intersection_area a b.

(** A box of positive width and height. *)
Definition non_degenerate (a : BBox) : Prop :=
  let '(_, _, w, h) := a in 0 < w ∧ 0 < h.

(** ** Vocabulary of further statements about the tracker *)

(** A box whose width and height are not negative. *)
Definition proper_box (a : BBox) : Prop :=
  let '(_, _, w, h) := a in 0 ≤ w ∧ 0 ≤ h.

(** A box of width zero or of height zero. *)
Definition flat_box (a : BBox) : Prop :=
  let '(_, _, w, h) := a in w = 0 ∨ h = 0.

(** A confidence between 0 and 1. *)
Definition in_unit (c : Q) : Prop := (0 <= c)%Q ∧ (c <= 1)%Q.

(** Every vote queue of a vote table is non-empty, holds at most [maxlen]
    confidences, and each of them is between 0 and 1. *)
Definition votes_ok (maxlen : nat) (votes : list (string * Votes)) : Prop :=
  ∀ name q, dict_get name votes = Some q →
            q ≠ [] ∧ (length q ≤ maxlen)%nat ∧ ∀ c, c ∈ q → in_unit c.

Definition tracker_votes_ok (self : FaceTracker) : Prop :=
  ∀ k t, dict_get k (tracks self) = Some t →
         votes_ok (history_size self) (name_votes t).

(** Every track has an age between 0 and [max_age]. *)
Definition ages_ok (self : FaceTracker) : Prop :=
  ∀ k t, dict_get k (tracks self) = Some t → 0 ≤ age t ≤ max_age self.

(** The claims that created a track. *)
Definition is_created (c : claim) : bool :=
  match c with Created _ => true | Rematched _ => false end.
End Tracker.

(* ===================================================================== *)
(** * [FaceDatabase], in-memory part (src/recognition/database_manager.py) *)
(* ===================================================================== *)

Module Gallery.
(** A face encoding: a one-dimensional numpy array of floats. *)
Definition Encoding : Type := list Q.

(** The [metadata] dictionaries are mutable objects that [add_person]
    may receive from its caller and stores by reference, so they live in
    a heap and an identity holds the address of its dictionary.  The
    [encodings] lists are always allocated by [add_person] itself and
    are kept by value. *)
Definition loc : Type := nat.
Definition Meta : Type := list (string * string).

Record Person := mkPerson {
  encodings : list Encoding;
  metadata : loc
}.

(** [self.database] together with the metadata objects it refers to. *)
Record Store := mkStore {
  database : list (string * Person);
  heap : gmap loc Meta
}.

Definition empty_store : Store := {| database := []; heap := ∅ |}.

(** The dictionary stored at an address. *)
Definition deref (h : gmap loc Meta) (l : loc) : Meta := default [] (h !! l).

(** [h[l][k] = v]. *)
Definition meta_set (l : loc) (k v : string) (h : gmap loc Meta)
  : gmap loc Meta :=
  <[ l := dict_set k v (deref h l) ]> h.

(** [metadata or {}]: the caller's dictionary object when it is given and
    non-empty, a newly allocated empty dictionary otherwise. *)
Definition metadata_or_new (metadata_arg : option loc) (h : gmap loc Meta)
  : loc * gmap loc Meta :=
  let new := fresh (dom h) in
  match metadata_arg with
  | Some l =>
      match deref h l with
      | [] => (new, <[ new := [] ]> h)
      | _ :: _ => (l, h)
      end
  | None => (new, <[ new := [] ]> h)
  end.

(** [FaceDatabase.add_person].  [metadata_arg] is the optional
    [metadata] argument ([None] by default); [added] and [updated] are
    the two readings of [datetime.now().isoformat()]. *)
Definition add_person (name : string) (encoding : Encoding)
    (metadata_arg : option loc) (added updated : string) (s : Store)
  : Store * bool :=
  let s1 :=
    if dict_mem name (database s) then s
    else
      let '(l, h) := metadata_or_new metadata_arg (heap s) in
      {| database :=
           dict_set name {| encodings := []; metadata := l |} (database s);
         heap := meta_set l "added_date" added h |} in
  match dict_get name (database s1) with
  | Some p =>
      ({| database :=
            dict_set name
              {| encodings := encodings p ++ [encoding];
                 metadata := metadata p |}
              (database s1);
          heap := meta_set (metadata p) "last_updated" updated (heap s1) |},
       true)
  | None => (s1, true)
  end.

(** [FaceDatabase.remove_person]. *)
Definition remove_person (name : string) (s : Store) : Store * bool :=
  if dict_mem name (database s)
  then ({| database := dict_del name (database s); heap := heap s |}, true)
  else (s, false).

(** [FaceDatabase.get_all_encodings]. *)
Definition get_all_encodings (s : Store) : list Encoding * list string :=
  (flat_map (fun kv => encodings kv.2) (database s),
   flat_map (fun kv => map (fun _ => kv.1) (encodings kv.2)) (database s)).

(** The sample list of [name], empty when [name] is not registered. *)
Definition samples_of (name : string) (s : Store) : list Encoding :=
  match dict_get name (database s) with
  | Some p => encodings p
  | None => []
  end.

(** The metadata dictionary of [name], when registered. *)
Definition metadata_of (name : string) (s : Store) : option Meta :=
  match dict_get name (database s) with
  | Some p => Some (deref (heap s) (metadata p))
  | None => None
  end.

(** Every identity owns an allocated metadata dictionary that no other
    identity refers to.  This holds of the empty gallery and is kept by
    every [add_person] call without a caller-supplied dictionary. *)
Definition store_wf (s : Store) : Prop :=
  dict_wf (database s)
  ∧ NoDup (map (fun kv => metadata kv.2) (database s))
  ∧ ∀ n p, dict_get n (database s) = Some p → metadata p ∈ dom (heap s).

(** [FaceDatabase.get_person]. *)
Definition get_person (name : string) (s : Store) : option Person :=
  dict_get name (database s).

(** [FaceDatabase.get_person_names]. *)
Definition get_person_names (s : Store) : list string :=
  dict_keys (database s).

(** [FaceDatabase.get_stats]: [total_people], [total_encodings] and
    [avg_encodings_per_person]. *)
Definition get_stats (s : Store) : nat * nat * Q :=
  let total_people := length (database s) in
  let total_encodings :=
    sum_list (map (fun kv => length (encodings kv.2)) (database s)) in
  (total_people, total_encodings,
   if bool_decide (0 < total_people)
   then (inject_Z (Z.of_nat total_encodings)
         / inject_Z (Z.of_nat total_people))%Q
   else 0%Q).
End Gallery.

(* ===================================================================== *)
(** * [FaceMatcher] (src/recognition/face_matcher.py) *)
(* ===================================================================== *)

Module Matcher.
Import Gallery.
Local Open Scope Q_scope.

Definition epsilon : Q := 1 # 10000000000.

(** One summand of the chi-square distance. *)
Definition chi_term (a b : Q) : Q := (a - b) ^ 2 / (a + b + epsilon).

(** Element-wise combination of two one-dimensional arrays under numpy
    broadcasting: equal lengths, or one of them of length one; any other
    pair of shapes raises [ValueError] ([None]). *)
Definition np_broadcast (f : Q -> Q -> Q) (u v : Encoding)
  : option (list Q) :=
  if decide (length u = length v) then Some (zip_with f u v)
  else match u, v with
       | [a], _ => Some (map (f a) v)
       | _, [b] => Some (map (fun x => f x b) u)
       | _, _ => None
       end.

(** [FaceMatcher._calculate_distance]. *)
Definition _calculate_distance (encoding1 encoding2 : Encoding) : option Q :=
  match np_broadcast chi_term encoding1 encoding2 with
  | Some terms => Some ((1 # 2) * Qsum terms)
  | None => None
  end.

(** [FaceMatcher._calculate_distances]. *)
Fixpoint _calculate_distances (encoding : Encoding)
    (known_encodings : list Encoding) : option (list Q) :=
  match known_encodings with
  | [] => Some []
  | known_encoding :: r =>
      match _calculate_distance encoding known_encoding with
      | Some distance =>
          match _calculate_distances encoding r with
          | Some distances => Some (distance :: distances)
          | None => None
          end
      | None => None
      end
  end.

(** An array without negative entries. *)
Definition nonneg (e : Encoding) : Prop := ∀ x, x ∈ e → 0 <= x.

(** [max(0.0, min(1.0, confidence))]. *)
Definition clamp01 (c : Q) : Q := Qmax 0 (Qmin 1 c).

(** [FaceMatcher.match_face]; the outer [None] is a raised exception,
    the inner one the Python [None] returned for "no match". *)
Definition match_face (tolerance : Q) (db : Store) (encoding : Encoding)
  : option (option string * Q) :=
  let '(known_encodings, known_names) := get_all_encodings db in
  match known_encodings with
  | [] => Some (None, 0)
  | _ :: _ =>
      match _calculate_distances encoding known_encodings with
      | None => None
      | Some distances =>
          match np_argmin distances with
          | None => None
          | Some best_match_idx =>
              match distances !! best_match_idx,
                    known_names !! best_match_idx with
              | Some best_distance, Some name =>
                  if Qle_bool best_distance tolerance
                  then Some (Some name, clamp01 (1 - best_distance / 2))
                  else Some (None, 0)
              | _, _ => None
              end
          end
      end
  end.

(** [FaceMatcher.match_faces]. *)
Fixpoint match_faces (tolerance : Q) (db : Store) (encodings : list Encoding)
  : option (list (option string * Q)) :=
  match encodings with
  | [] => Some []
  | encoding :: r =>
      match match_face tolerance db encoding with
      | Some result =>
          match match_faces tolerance db r with
          | Some results => Some (result :: results)
          | None => None
          end
      | None => None
      end
  end.


Section Voting.
(** [np.argsort]: the default sort of numpy is not stable, so the order
    it gives to equal distances is left open. *)
Variable np_argsort : list Q -> list nat.

(** [[a[i] for i in indices]] and [a[indices]]; an index out of range
    raises [IndexError] ([None]). *)
Definition take_at {A} (a : list A) (indices : list nat) : option (list A) :=
  mapM (fun i => a !! i) indices.

(** The body of the loop over [valid_matches]. *)
Definition cast_vote (name_votes : list (string * list Q)) (nd : string * Q)
  : list (string * list Q) :=
  let '(name, dist) := nd in
  let name_votes :=
    if dict_mem name name_votes then name_votes
    else dict_set name [] name_votes in
  let confidence := clamp01 (1 - dist / 2) in
  dict_set name (default [] (dict_get name name_votes) ++ [confidence])
    name_votes.

(** The comparison of [max(name_votes.items(), key=lambda x: np.mean(x[1]))]. *)
Definition mean_gt (x y : string * list Q) : bool :=
  Qgtb (np_mean x.2) (np_mean y.2).

(** [FaceMatcher.match_with_voting], for [top_k] not negative; the
    outer [None] is a raised exception. *)
Definition match_with_voting (tolerance : Q) (db : Store)
    (encoding : Encoding) (top_k : nat) : option (option string * Q) :=
  let '(known_encodings, known_names) := get_all_encodings db in
  match known_encodings with
  | [] => Some (None, 0)
  | _ :: _ =>
      match _calculate_distances encoding known_encodings with
      | None => None
      | Some distances =>
          let top_k_indices := take top_k (np_argsort distances) in
          match take_at known_names top_k_indices,
                take_at distances top_k_indices with
          | Some top_k_names, Some top_k_distances =>
              let valid_matches :=
                filter (fun nd => Qle_bool nd.2 tolerance = true)
                  (zip top_k_names top_k_distances) in
              match valid_matches with
              | [] => Some (None, 0)
              | _ :: _ =>
                  let name_votes := fold_left cast_vote valid_matches [] in
                  match py_max mean_gt name_votes with
                  | Some best_name =>
                      let avg_confidence := np_mean best_name.2 in
                      Some (Some best_name.1, avg_confidence)
                  | None => None
                  end
              end
          | _, _ => None
          end
      end
  end.
End Voting.

(** What [np.argsort] guarantees of its result [indices] on the array
    [l]: the indices of the array, each once, arranged so that the
    values they point at ascend. *)
Definition argsort_ok (l : list Q) (indices : list nat) : Prop :=
  indices ≡ₚ seq 0 (length l)
  ∧ ∀ i j a b x y,
      (i ≤ j)%nat →
      indices !! i = Some a → indices !! j = Some b →
      l !! a = Some x → l !! b = Some y → x <= y.
End Matcher.

(* ===================================================================== *)
(** * The frame loop of [FaceRecognitionSystem] (src/main.py) *)
(* ===================================================================== *)

Module Pipeline.
Import Tracker Gallery Matcher.

(** One face of a frame as the detector and the encoder deliver it: the
    box, the confidence of the detection, and the encoding, [None] when
    [encode_from_bbox] found nothing to encode. *)
Definition Face : Type := BBox * Q * option Encoding.

Definition face_bbox (f : Face) : BBox := f.1.1.

(** The body of the loop over the detections in [process_video] (lines
    193-205) and in [process_image] (lines 127-141): the tuple built for
    one face.  The outer [None] is an exception raised by the matcher. *)
Definition label_face (tolerance : Q) (db : Store) (f : Face)
  : option Detection :=
  let '(bbox, det_confidence, encoding) := f in
  match encoding with
  | Some encoding =>
      match match_face tolerance db encoding with
      | Some (Some name, rec_confidence) =>
          if truthy name
          then Some (bbox, name, rec_confidence, true)
          else Some (bbox, "Unknown"%string, det_confidence, false)
      | Some (None, rec_confidence) =>
          Some (bbox, "Unknown"%string, det_confidence, false)
      | None => None
      end
  | None => Some (bbox, "Unknown"%string, det_confidence, false)
  end.

(** The loop itself. *)
Fixpoint label_faces (tolerance : Q) (db : Store) (faces : list Face)
  : option (list Detection) :=
  match faces with
  | [] => Some []
  | f :: r =>
      match label_face tolerance db f with
      | Some d =>
          match label_faces tolerance db r with
          | Some ds => Some (d :: ds)
          | None => None
          end
      | None => None
      end
  end.

(** Lines 191-207 of [process_video]: the faces of one processed frame
    are labelled, and the labels go through the tracker. *)
Definition process_frame (tolerance : Q) (db : Store) (tracker : FaceTracker)
    (faces : list Face) : option (FaceTracker * list Detection) :=
  match label_faces tolerance db faces with
  | Some results => Some (update tracker results)
  | None => None
  end.
End Pipeline.

(* ===================================================================== *)
(** * [FaceDatabase], durable part (src/recognition/database_manager.py) *)
(* ===================================================================== *)

Module Persist.
Import Gallery.

(** A file-system entry: a regular file with its permissions and
    content; a directory, [writable] when entries can be added to it;
    or [NoStat e], a path whose status cannot be read (a directory on
    the way to it is closed to search, or the name is too long), on
    which every call raises the [OSError] [e].  A path with no entry
    does not exist. *)
Inductive fnode :=
| RegFile (readable writable : bool) (content : string)
| Directory (writable : bool)
| NoStat (e : string).

(** File-system calls; [OpRename] is [os.replace]/[os.rename], which
    the functions below never issue. *)
Inductive fs_op :=
| OpOpenRead (p : string)
| OpOpenWrite (p : string)
| OpWrite (p data : string)
| OpMkdir (p : string)
| OpRename (src dst : string).

(** The world outside the process: files, the console, the clock, the
    log of the file-system calls made so far, and the successive states
    the file system went through, which are the states a concurrent
    reader (or a reader after an interruption) may observe. *)
Record World := mkWorld {
  fs : gmap string fnode;
  stdout : list string;
  trace : list fs_op;
  history : list (gmap string fnode);
  clock : string
}.

(** How a call ends: it returns; it raises an exception of class
    [Exception]; or it raises one outside [Exception] ([SystemExit],
    [KeyboardInterrupt], ...), which [except Exception] lets through. *)
Inductive outcome (A : Type) :=
| Returned (a : A)
| Raised (e : string)
| Exited (e : string).
Arguments Returned {A} a.
Arguments Raised {A} e.
Arguments Exited {A} e.

Definition IO (A : Type) : Type := World -> outcome A * World.

Definition ret {A} (a : A) : IO A := fun w => (Returned a, w).

Definition raise {A} (e : string) : IO A := fun w => (Raised e, w).

(** A call that ends as [o] and leaves the world as it is. *)
Definition ends {A} (o : outcome A) : IO A := fun w => (o, w).

Definition bind {A B} (m : IO A) (k : A -> IO B) : IO B :=
  fun w =>
    match m w with
    | (Returned a, w') => k a w'
    | (Raised e, w') => (Raised e, w')
    | (Exited e, w') => (Exited e, w')
    end.

(** [try: m except Exception as e: handler e]. *)
Definition try_except {A} (m : IO A) (handler : string -> IO A) : IO A :=
  fun w =>
    match m w with
    | (Returned a, w') => (Returned a, w')
    | (Raised e, w') => handler e w'
    | (Exited e, w') => (Exited e, w')
    end.

#[global] Instance io_ret : MRet IO := @ret.
#[global] Instance io_bind : MBind IO := fun A B k m => bind m k.

Definition log_op (op : fs_op) : IO unit :=
  fun w => (Returned tt,
            {| fs := fs w; stdout := stdout w; trace := trace w ++ [op];
               history := history w; clock := clock w |}).

Definition set_fs (f : gmap string fnode) : IO unit :=
  fun w => (Returned tt,
            {| fs := f; stdout := stdout w; trace := trace w;
               history := history w ++ [f]; clock := clock w |}).

Definition get_fs : IO (gmap string fnode) := fun w => (Returned (fs w), w).

(** [print(msg)]. *)
Definition print (msg : string) : IO unit :=
  fun w => (Returned tt,
            {| fs := fs w; stdout := stdout w ++ [msg]; trace := trace w;
               history := history w; clock := clock w |}).

(** [datetime.now().strftime(...)]. *)
Definition now : IO string := fun w => (Returned (clock w), w).

(** [Path.exists]: [os.stat] on the path; a missing path answers
    [False], any other [OSError] of [stat] is raised again. *)
Definition path_exists (p : string) : IO bool :=
  f ← get_fs;
  match f !! p with
  | Some (NoStat e) => raise e
  | Some _ => ret true
  | None => ret false
  end.

(** [open(p, 'rb')] followed by reading the whole file. *)
Definition read_file (p : string) : IO string :=
  log_op (OpOpenRead p);;
  f ← get_fs;
  match f !! p with
  | Some (RegFile true _ content) => ret content
  | Some (RegFile false _ _) => raise "Permission denied"
  | Some (Directory _) => raise "Is a directory"
  | Some (NoStat e) => raise e
  | None => raise "No such file or directory"
  end.

(** [f.write(data)] on the file opened at [p]. *)
Definition write_file (p data : string) : IO unit :=
  log_op (OpWrite p data);;
  f ← get_fs;
  match f !! p with
  | Some (RegFile r true content) =>
      set_fs (<[ p := RegFile r true (content +:+ data) ]> f)
  | _ => raise "Bad file descriptor"
  end.

Section Paths.
(** [Path.parent] / [os.path.dirname]. *)
Variable parent : string -> string.

(** Making the entry [node] at a path [p] that has none: the directory
    [parent p] has to be there and to be writable. *)
Definition add_entry (p : string) (node : fnode) : IO unit :=
  f ← get_fs;
  match f !! parent p with
  | Some (Directory true) => set_fs (<[ p := node ]> f)
  | Some (Directory false) => raise "Permission denied"
  | Some (RegFile _ _ _) => raise "Not a directory"
  | Some (NoStat e) => raise e
  | None => raise "No such file or directory"
  end.

(** [open(p, 'wb')] / [open(p, 'w')]: an existing file is truncated to
    length zero; a missing one is created, in its parent directory. *)
Definition open_write (p : string) : IO unit :=
  log_op (OpOpenWrite p);;
  f ← get_fs;
  match f !! p with
  | Some (RegFile r true _) => set_fs (<[ p := RegFile r true "" ]> f)
  | Some (RegFile _ false _) => raise "Permission denied"
  | Some (Directory _) => raise "Is a directory"
  | Some (NoStat e) => raise e
  | None => add_entry p (RegFile true true "")
  end.

(** [Path.mkdir(exist_ok=True)], without [parents=True]: an existing
    directory is left as it is; a missing one is created, in its parent
    directory. *)
Definition mkdir_exist_ok (p : string) : IO unit :=
  log_op (OpMkdir p);;
  f ← get_fs;
  match f !! p with
  | Some (Directory _) => ret tt
  | Some (RegFile _ _ _) => raise "File exists"
  | Some (NoStat e) => raise e
  | None => add_entry p (Directory true)
  end.
End Paths.

(** The object [pickle.load] builds from the bytes of a file: a gallery
    (a dict of the shape [add_person] builds), or any other Python
    object, kept as its text. *)
Inductive pyobject :=
| PyGallery (s : Store)
| PyOther (repr : string).

Record FaceDatabase := mkFaceDatabase {
  db_path : string;
  backup_enabled : bool;
  store : Store
}.

Section WithSerializers.
(** [pickle.dumps]; [pickle.loads], which returns the object the bytes
    stand for, raises an [Exception] ([UnpicklingError], [EOFError],
    ...) or raises whatever else the unpickled code raises; [json.dumps];
    and the [pathlib] operations [with_suffix], [parent] and [/]. *)
Variable pickle_dumps : Store -> string.
Variable pickle_loads : string -> outcome pyobject.
Variable json_dumps : list (string * (nat * string * string)) -> string.
Variable with_suffix : string -> string -> string.
Variable parent : string -> string.
Variable joinpath : string -> string -> string.

(** [pickle.load(f)] on the file at [p]. *)
Definition pickle_load (p : string) : IO pyobject :=
  data ← read_file p;
  ends (pickle_loads data).

(** [FaceDatabase._load_database]: the [exists] test is outside the
    [try] block. *)
Definition _load_database (db_path : string) : IO pyobject :=
  present ← path_exists db_path;
  if (present : bool) then
    try_except (pickle_load db_path)
      (fun e =>
         print ("Warning: Could not load database: " +:+ e);;
         ret (PyGallery empty_store))
  else ret (PyGallery empty_store).

(** [FaceDatabase._save_metadata]. *)
Definition _save_metadata (self : FaceDatabase) : IO unit :=
  let metadata_path := with_suffix (db_path self) ".json" in
  let h := heap (store self) in
  let summary :=
    map (fun kv : string * Person =>
           let m := deref h (metadata kv.2) in
           (kv.1,
            (length (encodings kv.2),
             default "Unknown"%string (dict_get "added_date"%string m),
             default "Unknown"%string (dict_get "last_updated"%string m))))
        (database (store self)) in
  open_write parent metadata_path;;
  write_file metadata_path (json_dumps summary).

(** [FaceDatabase._create_backup]. *)
Definition _create_backup (self : FaceDatabase) : IO unit :=
  let backup_dir := joinpath (parent (db_path self)) "backups" in
  mkdir_exist_ok parent backup_dir;;
  timestamp ← now;
  let backup_path :=
    joinpath backup_dir ("face_database_" +:+ timestamp +:+ ".pkl") in
  try_except
    (open_write parent backup_path;;
     write_file backup_path (pickle_dumps (store self)))
    (fun e => print ("Warning: Could not create backup: " +:+ e)).

(** The body of the [try] block of [save_database] after its first
    statement, the [open] of the gallery file. *)
Definition save_rest (self : FaceDatabase) : IO bool :=
  write_file (db_path self) (pickle_dumps (store self));;
  _save_metadata self;;
  (if backup_enabled self then _create_backup self else ret tt);;
  ret true.

(** [FaceDatabase.save_database]. *)
Definition save_database (self : FaceDatabase) : IO bool :=
  try_except
    (open_write parent (db_path self);;
     write_file (db_path self) (pickle_dumps (store self));;
     _save_metadata self;;
     (if backup_enabled self then _create_backup self else ret tt);;
     ret true)
    (fun e => print ("Error saving database: " +:+ e);; ret false).
End WithSerializers.

(** What the specification asks of a save, on the log of file-system
    calls it makes: the durable file [p] is only ever replaced by a
    rename from another path, and never opened for writing or written
    to directly. *)
Definition mutates_in_place (p : string) (op : fs_op) : Prop :=
  op = OpOpenWrite p ∨ ∃ data, op = OpWrite p data.

Definition atomic_replace (p : string) (ops : list fs_op) : Prop :=
  (∃ tmp, tmp ≠ p ∧ OpRename tmp p ∈ ops)
  ∧ ∀ op, op ∈ ops → ¬ mutates_in_place p op.

(** The calls a function made and the file-system states it went
    through, given the worlds before and after. *)
Definition calls_between (w w' : World) : list fs_op :=
  drop (length (trace w)) (trace w').

Definition states_between (w w' : World) : list (gmap string fnode) :=
  drop (length (history w)) (history w').

(** The file at the gallery path cannot be read back: it cannot be
    opened for reading, or unpickling its content raises an
    [Exception]. *)
Definition unreadable_or_corrupt (pickle_loads : string -> outcome pyobject)
    (node : fnode) : Prop :=
  match node with
  | RegFile true _ content => ∃ e, pickle_loads content = Raised e
  | RegFile false _ _ => True
  | Directory _ => True
  | NoStat _ => False
  end.

(** [w'] is a later world than [w]: calls and file-system states were
    only added to the logs, and none of the added calls is a rename. *)
Definition later (w w' : World) : Prop :=
  ∃ ops states,
    trace w' = trace w ++ ops
    ∧ history w' = history w ++ states
    ∧ ∀ src dst, OpRename src dst ∉ ops.

(** A computation that only moves the world forward, and that ends by
    returning or by raising an [Exception]. *)
Definition steady {A} (m : IO A) : Prop :=
  ∀ w, later w (m w).2 ∧ ∀ e, (m w).1 ≠ Exited e.

(** What is at [p] does not stand in the way of [open(p, 'w')]: there
    is no entry at [p], or a writable regular file. *)
Definition can_open_write (f : gmap string fnode) (p : string) : bool :=
  match f !! p with
  | None => true
  | Some (RegFile _ w _) => w
  | Some (Directory _) => false
  | Some (NoStat _) => false
  end.

(** An entry can be added at [p]: the parent directory of [p] is there
    and writable. *)
Definition can_add (parent : string -> string) (f : gmap string fnode)
    (p : string) : bool :=
  match f !! parent p with
  | Some (Directory true) => true
  | _ => false
  end.

(** [open(p, 'w')] succeeds on the file system [f]: a writable regular
    file is at [p], or nothing is and the file can be added. *)
Definition opens (parent : string -> string) (f : gmap string fnode)
    (p : string) : bool :=
  match f !! p with
  | Some (RegFile _ w _) => w
  | Some _ => false
  | None => can_add parent f p
  end.

(** [Path.mkdir(exist_ok=True)] succeeds on [f]: a directory is at [p],
    or nothing is and the directory can be added. *)
Definition makes_dir (parent : string -> string) (f : gmap string fnode)
    (p : string) : bool :=
  match f !! p with
  | Some (Directory _) => true
  | Some _ => false
  | None => can_add parent f p
  end.

(** The directory that [Path.mkdir(exist_ok=True)] leaves at [p]. *)
Definition made (f : gmap string fnode) (p : string) : fnode :=
  match f !! p with
  | Some node => node
  | None => Directory true
  end.

(** The file that opening [p] for writing and writing [data] leaves at
    [p]: the read permission is the one of the file that was there. *)
Definition written (f : gmap string fnode) (p data : string) : fnode :=
  RegFile (match f !! p with Some (RegFile r _ _) => r | _ => true end)
    true data.

(** [open(p, 'rb')] succeeds on [f] once a file is at [p]. *)
Definition stays_readable (f : gmap string fnode) (p : string) : Prop :=
  match f !! p with
  | Some (RegFile r _ _) => r = true
  | _ => True
  end.

Section Clearing.
Variable pickle_dumps : Store -> string.
Variable json_dumps : list (string * (nat * string * string)) -> string.
Variable with_suffix : string -> string -> string.
Variable parent : string -> string.
Variable joinpath : string -> string -> string.

(** [FaceDatabase.clear_database]: the object after the call and the
    returned boolean.  The dictionaries the old entries referred to stay
    where they are; no entry refers to them any more. *)
Definition clear_database (self : FaceDatabase)
  : IO (FaceDatabase * bool) :=
  let cleared :=
    {| db_path := db_path self;
       backup_enabled := backup_enabled self;
       store := {| database := []; heap := heap (store self) |} |} in
  b ← save_database pickle_dumps json_dumps with_suffix parent joinpath
        cleared;
  ret (cleared, b).
End Clearing.
End Persist.

(* ===================================================================== *)
(** * The detectors (src/detection) *)
(* ===================================================================== *)

Module Detectors.
Import Tracker.
Local Open Scope Z_scope.







(** [detect] of both classes: [[bbox for bbox, _ in detections]]. *)
Definition detect (detections : list (BBox * Q)) : list BBox :=
  map fst detections.

End Detectors.

(* ===================================================================== *)
(** * The crop of [FaceEncoder] (src/recognition/face_encoder.py) *)
(* ===================================================================== *)

Module Encoder.
Import Tracker.
Local Open Scope Z_scope.

(** A face location: (top, right, bottom, left); [left_] and [right_]
    stand for the source's [left] and [right]. *)
Definition FaceLocation : Type := Z * Z * Z * Z.

(** [FaceEncoder.bbox_to_face_location]. *)
Definition bbox_to_face_location (bbox : BBox) : FaceLocation :=
  let '(x, y, w, h) := bbox in (y, x + w, y + h, x).

(** [FaceEncoder.face_location_to_bbox]. *)
Definition face_location_to_bbox (face_location : FaceLocation) : BBox :=
  let '(top, right_, bottom, left_) := face_location in
  (left_, top, right_ - left_, bottom - top).

(** The position that a bound [i] of a slice denotes on an axis of
    length [n]: a negative bound counts from the end. *)
Definition slice_bound (n i : Z) : Z :=
  if i <? 0 then Z.max 0 (i + n) else Z.min i n.

(** The positions [start:stop] selects on an axis of length [n], as a
    first position and a number of positions. *)
Definition np_slice (n start stop : Z) : Z * Z :=
  let a := slice_bound n start in
  let b := slice_bound n stop in
  (a, Z.max 0 (b - a)).

(** The part of an image of [height] rows and [width] columns that
    [encode_face] crops for a face location: the first row and the
    number of rows, the first column and the number of columns; [None]
    when the crop is empty ([face_img.size == 0]) and [encode_face]
    returns [None]. *)
Definition crop (height width : Z) (face_location : FaceLocation)
  : option ((Z * Z) * (Z * Z)) :=
  let '(top, right_, bottom, left_) := face_location in
  let top := Z.max 0 top in
  let left_ := Z.max 0 left_ in
  let bottom := Z.min height bottom in
  let right_ := Z.min width right_ in
  let rows := np_slice height top bottom in
  let cols := np_slice width left_ right_ in
  if rows.2 * cols.2 =? 0 then None else Some (rows, cols).

(** The crop of [encode_from_bbox]. *)
Definition crop_from_bbox (height width : Z) (bbox : BBox)
  : option ((Z * Z) * (Z * Z)) :=
  let '(x, y, w, h) := bbox in
  let face_location := (y, x + w, y + h, x) in
  crop height width face_location.

(** A box that lies inside an image. *)
Definition inside (height width : Z) (bbox : BBox) : Prop :=
  let '(x, y, w, h) := bbox in
  0 ≤ x ∧ 0 ≤ y ∧ 0 ≤ w ∧ 0 ≤ h ∧ x + w ≤ width ∧ y + h ≤ height.
(** ** Local binary patterns *)

(** A grey image: its rows of pixel values. *)
Abbreviation Image := (list (list Z)).

(** The slices [0:-2], [1:-1] and [2:] of an axis. *)
Definition upto_m2 {A} (l : list A) : list A := take (length l - 2) l.
Definition inner {A} (l : list A) : list A := take (length l - 2) (drop 1 l).
Definition from_2 {A} (l : list A) : list A := drop 2 l.

(** [image[rows, cols]]. *)
Definition slice2 (rows : Image -> Image) (cols : list Z -> list Z)
    (image : Image) : Image :=
  map cols (rows image).

(** [((a >= center) << k).astype(np.uint8)]. *)
Definition ge_shl (a center : Image) (k : Z) : Image :=
  zip_with (zip_with (fun x c => Z.shiftl (Z.b2z (c <=? x)) k)) a center.

(** [lbp |= x]. *)
Definition ior (lbp x : Image) : Image := zip_with (zip_with Z.lor) lbp x.

(** [np.zeros((h, w), dtype=np.uint8)]. *)
Definition np_zeros (h w : nat) : Image := replicate h (replicate w 0).

(** [np.pad(a, 1, mode='constant')] for an array of [w] columns. *)
Definition np_pad1 (w : nat) (a : Image) : Image :=
  replicate (w + 2) 0
  :: map (fun row => 0 :: row ++ [0]) a ++ [replicate (w + 2) 0].

(** [FaceEncoder._compute_lbp]; [None] stands for the [ValueError] of
    [np.zeros] on a negative dimension. *)
Definition _compute_lbp (image : Image) : option Image :=
  let height := length image in
  let width := length (default [] (head image)) in
  if (height <? 2)%nat || (width <? 2)%nat then None
  else
    let lbp := np_zeros (height - 2) (width - 2) in
    let center := slice2 inner inner image in
    let lbp := ior lbp (ge_shl (slice2 upto_m2 upto_m2 image) center 7) in
    let lbp := ior lbp (ge_shl (slice2 upto_m2 inner image) center 6) in
    let lbp := ior lbp (ge_shl (slice2 upto_m2 from_2 image) center 5) in
    let lbp := ior lbp (ge_shl (slice2 inner from_2 image) center 4) in
    let lbp := ior lbp (ge_shl (slice2 from_2 from_2 image) center 3) in
    let lbp := ior lbp (ge_shl (slice2 from_2 inner image) center 2) in
    let lbp := ior lbp (ge_shl (slice2 from_2 upto_m2 image) center 1) in
    let lbp := ior lbp (ge_shl (slice2 inner upto_m2 image) center 0) in
    Some (np_pad1 (width - 2) lbp).

(** An image of [h] rows and [w] columns, and its pixel at row [i] and
    column [j]. *)
Definition rectangular (h w : nat) (image : Image) : Prop :=
  length image = h ∧ ∀ row, row ∈ image → length row = w.

Definition pixel (image : Image) (i j : nat) : option Z :=
  match image !! i with
  | Some row => row !! j
  | None => None
  end.
End Encoder.

(* ===================================================================== *)
(** * Configuration lookup (src/utils/config.py) *)
(* ===================================================================== *)

Module Config.

(** A loaded YAML document, as far as [Config.get] tells values apart:
    [None], a mapping, or any other value (a number, a string, a list),
    kept as its text. *)
#[warnings="-register-all"]
Inductive value :=
| VNone
| VOther (repr : string)
| VDict (d : list (string * value)).

(** The character is a dot. *)
Definition is_dot (c : Ascii.ascii) : bool :=
  String.eqb (String c EmptyString) ".".

(** [key.split('.')]. *)
Fixpoint split_dot (key : string) : list string :=
  match key with
  | EmptyString => [EmptyString]
  | String c r =>
      if is_dot c then EmptyString :: split_dot r
      else match split_dot r with
           | p :: ps => String c p :: ps
           | [] => [String c EmptyString]
           end
  end.

(** The loop of [Config.get] over the keys; [None] when it leaves the
    function with [return default]. *)
Fixpoint walk (keys : list string) (v : value) : option value :=
  match keys with
  | [] => Some v
  | k :: r =>
      match v with
      | VDict d => walk r (default VNone (dict_get k d))
      | _ => None
      end
  end.

(** [Config.get]. *)
Definition get (config : value) (key : string) (default : value) : value :=
  match walk (split_dot key) config with
  | Some VNone => default
  | Some v => v
  | None => default
  end.

(** A key without a dot. *)
Fixpoint dotless (key : string) : bool :=
  match key with
  | EmptyString => true
  | String c r => negb (is_dot c) && dotless r
  end.
End Config.

(* ===================================================================== *)
(** * The registration script (scripts/register_face.py) *)
(* ===================================================================== *)

Module Registration.
Import Gallery Persist.


(** The fields of [FaceRegistration] that registering and removing
    use; [db] is the source's [database]. *)
Record FaceRegistration := mkFaceRegistration {
  db : FaceDatabase;
  min_samples : Z;
  quality_threshold : Q
}.



Section WithSerializers.
(** The serializers and path operations of [FaceDatabase], the ISO
    format of a clock reading, and the format [{:.2f}] of a float. *)
Variable pickle_dumps : Store -> string.
Variable json_dumps : list (string * (nat * string * string)) -> string.
Variable with_suffix : string -> string -> string.
Variable parent : string -> string.
Variable joinpath : string -> string -> string.
Variable isoformat : string -> string.
Variable format_2f : Q -> string.






(** [FaceRegistration.remove_person]. *)
Definition remove_person (self : FaceRegistration) (name : string)
  : IO (FaceRegistration * bool) :=
  let '(s, removed) := Gallery.remove_person name (store (db self)) in
  if (removed : bool) then
    let d := {| db_path := db_path (db self);
                backup_enabled := backup_enabled (db self);
                store := s |} in
    _ ← save_database pickle_dumps json_dumps with_suffix parent joinpath d;
    print ("[SUCCESS] Removed " +:+ name +:+ " from database");;
    ret ({| db := d; min_samples := min_samples self;
            quality_threshold := quality_threshold self |}, true)
  else
    print ("[FAILED] " +:+ name +:+ " not found in database");;
    ret (self, false).
End WithSerializers.
End Registration.

(* ===================================================================== *)
(** * Concrete instances used to exercise the statements *)
(* ===================================================================== *)

Module Fixtures.
Import Tracker Gallery Persist.

(** A tracker as [FaceRecognitionSystem] builds it, a face box, and the
    tracker after the first frame showed one recognised face. *)
Definition tracker0 : FaceTracker := init 5 (1 # 2).
Definition box0 : BBox := (10, 10, 50, 50)%Z.
Definition seen (name : string) (c : Q) : Detection := (box0, name, c, true).
Definition tracker1 : FaceTracker := (update tracker0 [seen "Alice" (9 # 10)]).1.

(** The tracker after five frames that each recognised "Alice" with
    confidence 0.6 at the same place. *)
Definition tracker5 : FaceTracker :=
  run tracker0 (replicate 5 [seen "Alice" (6 # 10)]).

(** A stand-in serializer: the gallery is written as the list of its
    names, and only the empty file content reads back (as the empty
    gallery). *)
Definition toy_dumps (s : Store) : string :=
  String.concat "," (dict_keys (database s)).

Definition toy_loads (data : string) : outcome pyobject :=
  if decide (data = ""%string) then Returned (PyGallery empty_store)
  else Raised "invalid load key".

Definition toy_json (l : list (string * (nat * string * string))) : string :=
  String.concat "," (map fst l).

Definition toy_with_suffix (p suffix : string) : string := p +:+ suffix.

(** [os.path.dirname]: the path up to its last "/", or "." when it has
    none. *)
Fixpoint up_to_last_slash (p : string) : option string :=
  match p with
  | EmptyString => None
  | String c r =>
      match up_to_last_slash r with
      | Some d => Some (String c d)
      | None =>
          if String.eqb (String c EmptyString) "/" then Some ""%string
          else None
      end
  end.

Definition toy_parent (p : string) : string :=
  default "."%string (up_to_last_slash p).

Definition toy_joinpath (p q : string) : string := p +:+ "/" +:+ q.

(** A gallery with two identities, built by [add_person]. *)
Definition two_people : Store :=
  let s1 := (add_person "Alice" [1 # 2; 1 # 2]%Q None "t0" "t1" empty_store).1 in
  (add_person "Bob" [1 # 4; 3 # 4]%Q None "t2" "t3" s1).1.

(** A gallery whose one identity was registered under the name
    "Unknown". *)
Definition unknown_person : Store :=
  (add_person "Unknown" [1 # 4; 3 # 4]%Q None "t0" "t1" empty_store).1.

(** A world whose durable gallery file, in the working directory,
    already holds an older gallery. *)
Definition world0 : World :=
  {| fs := {[ "."%string := Directory true;
              "db.pkl"%string := RegFile true true "Alice" ]};
     stdout := []; trace := []; history := []; clock := "20240101_000000" |}.

Definition facedb0 : FaceDatabase :=
  {| db_path := "db.pkl"; backup_enabled := true; store := two_people |}.

(** A heap in which the caller of [add_person] owns one non-empty
    metadata dictionary, at address 7. *)
Definition caller_heap : Store :=
  {| database := [];
     heap := {[ 7%nat := [("source"%string, "camera"%string)] ]} |}.

(** A stand-in for [pickle.loads] that reads back what [toy_dumps]
    writes for the gallery [two_people]. *)
Definition toy_unpickle (data : string) : outcome pyobject :=
  if decide (data = toy_dumps two_people) then Returned (PyGallery two_people)
  else toy_loads data.

(** A world in which the gallery path is taken by a directory. *)
Definition world_dir : World :=
  {| fs := {[ "."%string := Directory true;
              "db.pkl"%string := Directory true ]};
     stdout := []; trace := []; history := []; clock := "20240101_000000" |}.

(** A world in which the backup file of this second is there already,
    closed to writing. *)
Definition world_backup_locked : World :=
  {| fs := {[ "."%string := Directory true;
              "db.pkl"%string := RegFile true true "Alice";
              "./backups"%string := Directory true;
              "./backups/face_database_20240101_000000.pkl"%string
                := RegFile true false "Alice" ]};
     stdout := []; trace := []; history := []; clock := "20240101_000000" |}.

(** A gallery path whose status cannot be read, and the same path
    holding a file that cannot be opened for reading. *)
Definition world_nostat : World :=
  {| fs := {[ "."%string := Directory true;
              "db.pkl"%string := NoStat "[Errno 13] Permission denied" ]};
     stdout := []; trace := []; history := []; clock := "20240101_000000" |}.

Definition world_locked : World :=
  {| fs := {[ "."%string := Directory true;
              "db.pkl"%string := RegFile false false "Alice" ]};
     stdout := []; trace := []; history := []; clock := "20240101_000000" |}.

(** An [argsort] by insertion, which keeps equal values in order. *)
Fixpoint insert_index (l : list Q) (i : nat) (sorted : list nat) : list nat :=
  match sorted with
  | [] => [i]
  | j :: r =>
      if Qltb (default 0%Q (l !! i)) (default 0%Q (l !! j))
      then i :: j :: r
      else j :: insert_index l i r
  end.

Definition toy_argsort (l : list Q) : list nat :=
  fold_left (fun sorted i => insert_index l i sorted) (seq 0 (length l)) [].
End Fixtures.

(* ===================================================================== *)
(** * Lemmas on dictionaries and on the numeric helpers *)
(* ===================================================================== *)

Module PyDictFacts.
Section Facts.
Context {K V : Type} `{EqDecision K}.
Implicit Types (k : K) (v : V) (d : list (K * V)).

Lemma dict_get_set_eq k v d : dict_get k (dict_set k v d) = Some v.
Proof.
induction d as [|[k' v'] r IH]; simpl.
- rewrite decide_True; done.
- destruct (decide (k = k')) as [->|Hne]; simpl.
  + rewrite decide_True; done.
  + rewrite decide_False; done.
Qed.

Lemma dict_get_set_ne k k' v d :
k ≠ k' → dict_get k' (dict_set k v d) = dict_get k' d.
Proof.
intros Hne. induction d as [|[k0 v0] r IH]; simpl.
- rewrite decide_False; [done | congruence].
- destruct (decide (k = k0)) as [->|Hne0]; simpl.
  + rewrite !decide_False; [done | congruence ..].
  + rewrite IH. done.
Qed.

Lemma dict_get_del_eq k d : dict_get k (dict_del k d) = None.
Proof.
induction d as [|[k' v'] r IH]; simpl; [done|].
destruct (decide (k = k')) as [->|Hne]; simpl; [done|].
rewrite decide_False; done.
Qed.

Lemma dict_get_del_ne k k' d :
k ≠ k' → dict_get k' (dict_del k d) = dict_get k' d.
Proof.
intros Hne. induction d as [|[k0 v0] r IH]; simpl; [done|].
destruct (decide (k = k0)) as [->|Hne0]; simpl.
- rewrite decide_False; [done | congruence].
- rewrite IH. done.
Qed.

Lemma dict_get_Some_elem k v d : dict_get k d = Some v → (k, v) ∈ d.
Proof.
induction d as [|[k' v'] r IH]; simpl; [done|].
destruct (decide (k = k')) as [->|Hne].
- intros [= ->]. left.
- intros Hg. right. auto.
Qed.

Lemma dict_get_None_keys k d : dict_get k d = None ↔ k ∉ dict_keys d.
Proof.
unfold dict_keys. induction d as [|[k' v'] r IH]; simpl.
- split; [intros _; apply not_elem_of_nil | done].
- rewrite not_elem_of_cons. destruct (decide (k = k')) as [->|Hne].
  + split; [done | intros [? _]; done].
  + rewrite IH. tauto.
Qed.

Lemma dict_get_is_Some_keys k d : is_Some (dict_get k d) ↔ k ∈ dict_keys d.
Proof.
destruct (dict_get k d) eqn:Hg.
- split; [intros _ | eauto].
  destruct (decide (k ∈ dict_keys d)) as [|Hn]; [done|].
  apply dict_get_None_keys in Hn. congruence.
- split; [intros [? ?]; done|].
  intros Hin. apply dict_get_None_keys in Hg. done.
Qed.

Lemma dict_elem_get k v d : dict_wf d → (k, v) ∈ d → dict_get k d = Some v.
Proof.
unfold dict_wf, dict_keys.
induction d as [|[k' v'] r IH]; simpl; intros Hnd Hin.
- by apply elem_of_nil in Hin.
- apply NoDup_cons in Hnd as [Hk' Hnd].
  apply elem_of_cons in Hin as [[= -> ->]|Hin].
  + rewrite decide_True; done.
  + destruct (decide (k = k')) as [->|Hne]; [|auto].
    exfalso. apply Hk'. apply list_elem_of_fmap. by exists (k', v).
Qed.

Lemma dict_keys_set k v d :
dict_keys (dict_set k v d) =
if dict_mem k d then dict_keys d else dict_keys d ++ [k].
Proof.
unfold dict_mem, dict_keys. induction d as [|[k' v'] r IH]; simpl; [done|].
destruct (decide (k = k')) as [->|Hne]; simpl; [done|].
rewrite IH. destruct (dict_get k r); done.
Qed.

Lemma dict_keys_del k d :
dict_keys (dict_del k d) = filter (λ k', k' ≠ k) (dict_keys d).
Proof.
unfold dict_keys. induction d as [|[k' v'] r IH]; simpl; [done|].
destruct (decide (k = k')) as [->|Hne]; simpl.
- rewrite filter_cons_False; [done | tauto].
- rewrite filter_cons_True; [| congruence]. by rewrite IH.
Qed.

Lemma dict_wf_set k v d : dict_wf d → dict_wf (dict_set k v d).
Proof.
unfold dict_wf. rewrite dict_keys_set. unfold dict_mem.
destruct (dict_get k d) eqn:Hg; [done|].
intros Hnd. apply NoDup_app. split_and!; [done| |apply NoDup_singleton].
intros x Hx ->%list_elem_of_singleton.
by apply dict_get_None_keys in Hg.
Qed.

Lemma dict_wf_del k d : dict_wf d → dict_wf (dict_del k d).
Proof.
unfold dict_wf. rewrite dict_keys_del. apply NoDup_filter.
Qed.

Lemma dict_mem_true k d : dict_mem k d = true ↔ is_Some (dict_get k d).
Proof.
unfold dict_mem. destruct (dict_get k d); split; eauto; try done.
all: try (intros [? ?]; done).
Qed.

Lemma dict_mem_false k d : dict_mem k d = false ↔ dict_get k d = None.
Proof. unfold dict_mem. destruct (dict_get k d); split; done. Qed.
End Facts.
End PyDictFacts.
Import PyDictFacts.

Module NumFacts.
Local Open Scope Q_scope.

Lemma Qgtb_true (a b : Q) : Qgtb a b = true ↔ b < a.
Proof.
  unfold Qgtb. rewrite Qgt_alt. destruct (a ?= b); split; congruence.
Qed.

Lemma Qgtb_false (a b : Q) : Qgtb a b = false ↔ a <= b.
Proof.
  unfold Qgtb. rewrite Qle_alt. destruct (a ?= b); split; congruence.
Qed.

Lemma Qltb_true (a b : Q) : Qltb a b = true ↔ a < b.
Proof.
  unfold Qltb. rewrite Qlt_alt. destruct (a ?= b); split; congruence.
Qed.

Lemma Qltb_false (a b : Q) : Qltb a b = false ↔ b <= a.
Proof.
  unfold Qltb. rewrite Qle_alt.
  rewrite <- (Qcompare_antisym a b). destruct (a ?= b); simpl; split; congruence.
Qed.

(** [max] returns an element of its input that no element exceeds,
    for any comparison [gt] that refines a total preorder [le]. *)
Section Max.
Context {A : Type} (gt : A → A → bool) (le : A → A → Prop).
Hypothesis le_refl : ∀ x, le x x.
Hypothesis le_trans : ∀ x y z, le x y → le y z → le x z.
Hypothesis gt_true : ∀ x y, gt x y = true → le y x.
Hypothesis gt_false : ∀ x y, gt x y = false → le x y.

Lemma max_from_spec (best : A) (l : list A) :
  max_from gt best l ∈ best :: l
  ∧ ∀ x, x ∈ best :: l → le x (max_from gt best l).
Proof using le_refl le_trans gt_true gt_false.
  revert best. induction l as [|y r IH]; intros best; simpl.
  - split; [left|]. intros x ->%list_elem_of_singleton. apply le_refl.
  - destruct (IH (if gt y best then y else best)) as [Hin Hmax].
    split.
    + apply elem_of_cons in Hin as [Heq|Hin].
      * rewrite Heq. destruct (gt y best); [right; left | left].
      * right. right. done.
    + intros x Hx.
      assert (le best (if gt y best then y else best)) as Hb.
      { destruct (gt y best) eqn:Hg; [by apply gt_true | apply le_refl]. }
      assert (le y (if gt y best then y else best)) as Hy.
      { destruct (gt y best) eqn:Hg; [apply le_refl | by apply gt_false]. }
      apply elem_of_cons in Hx as [->|Hx].
      { eapply le_trans; [exact Hb|]. apply Hmax. left. }
      apply elem_of_cons in Hx as [->|Hx].
      { eapply le_trans; [exact Hy|]. apply Hmax. left. }
      apply Hmax. right. done.
Qed.

Lemma py_max_spec (l : list A) (m : A) :
  py_max gt l = Some m → m ∈ l ∧ ∀ x, x ∈ l → le x m.
Proof using le_refl le_trans gt_true gt_false.
  destruct l as [|x r]; simpl; [done|].
  intros [= <-]. apply max_from_spec.
Qed.
End Max.

Lemma py_max_None {A} (gt : A → A → bool) (l : list A) :
  py_max gt l = None ↔ l = [].
Proof. destruct l; simpl; split; done. Qed.

(** [np.argmin] returns the index of an element that is below all
    others. *)
Lemma argmin_from_spec (p r : list Q) (best_i : nat) (best : Q) :
  p !! best_i = Some best →
  (∀ y, y ∈ p → best <= y) →
  ∃ d, (p ++ r) !! argmin_from best_i best (length p) r = Some d
       ∧ ∀ y, y ∈ p ++ r → d <= y.
Proof.
  revert p best_i best. induction r as [|x r IH]; intros p bi b Hb Hmin; simpl.
  - exists b. rewrite app_nil_r. done.
  - destruct (Qltb x b) eqn:Hlt.
    + apply Qltb_true in Hlt.
      destruct (IH (p ++ [x]) (length p) x) as (d & Hd & Hdmin).
      * rewrite lookup_app_r, Nat.sub_diag; [done | lia].
      * intros y [Hy| ->%list_elem_of_singleton]%elem_of_app.
        -- apply Qlt_le_weak. eapply Qlt_le_trans; [exact Hlt | auto].
        -- apply Qle_refl.
      * rewrite length_app, Nat.add_1_r in Hd. rewrite <- app_assoc in Hd, Hdmin.
        exists d. done.
    + apply Qltb_false in Hlt.
      destruct (IH (p ++ [x]) bi b) as (d & Hd & Hdmin).
      * apply lookup_app_l_Some. done.
      * intros y [Hy| ->%list_elem_of_singleton]%elem_of_app; auto.
      * rewrite length_app, Nat.add_1_r in Hd. rewrite <- app_assoc in Hd, Hdmin.
        exists d. done.
Qed.

Lemma np_argmin_spec (l : list Q) (i : nat) :
  np_argmin l = Some i →
  ∃ d, l !! i = Some d ∧ ∀ y, y ∈ l → d <= y.
Proof.
  destruct l as [|x r]; simpl; [done|]. intros [= <-].
  apply (argmin_from_spec [x] r 0 x); [done|].
  intros y ->%list_elem_of_singleton. apply Qle_refl.
Qed.

Lemma np_argmin_is_Some (l : list Q) : l ≠ [] → is_Some (np_argmin l).
Proof. destruct l; [done | simpl; eauto]. Qed.

Lemma Qsum_nonneg (l : list Q) : (∀ x, x ∈ l → 0 <= x) → 0 <= Qsum l.
Proof.
  induction l as [|x r IH]; simpl; intros Hl; [apply Qle_refl|].
  replace 0 with (0 + 0) by reflexivity.
  apply Qplus_le_compat.
  - apply Hl. left.
  - apply IH. intros y Hy. apply Hl. right. done.
Qed.

Lemma Qsum_zero (l : list Q) : (∀ x, x ∈ l → x == 0) → Qsum l == 0.
Proof.
  induction l as [|x r IH]; simpl; intros Hl; [reflexivity|].
  rewrite (Hl x), IH; [reflexivity | | left].
  intros y Hy. apply Hl. right. done.
Qed.
End NumFacts.
Import NumFacts.

(* ===================================================================== *)
(** * Properties of [FaceTracker._calculate_iou] *)
(* ===================================================================== *)

Module IoUSpec.
Import Tracker.
Local Open Scope Z_scope.

Lemma Qdiv_diag (z : Z) : z ≠ 0 → (inject_Z z / inject_Z z == 1)%Q.
Proof.
  intros Hz. apply Qmult_inv_r.
  unfold Qeq. simpl. lia.
Qed.

Lemma Qdiv_zero_num (z : Z) : (inject_Z 0 / inject_Z z == 0)%Q.
Proof. unfold Qdiv. apply Qmult_0_l. Qed.

Lemma iou_unfold (a b : BBox) :
  _calculate_iou a b =
  if ((x_extent a b).2 <? (x_extent a b).1)
     || ((y_extent a b).2 <? (y_extent a b).1)
  then 0%Q
  else if 0 <? union_area a b
       then (inject_Z (intersection_area a b) / inject_Z (union_area a b))%Q
       else 0%Q.
Proof.
  destruct a as [[[x1 y1] w1] h1], b as [[[x2 y2] w2] h2].
  unfold _calculate_iou, union_area, intersection_area, x_extent, y_extent, area.
  cbn [fst snd].
  destruct (_ || _); reflexivity.
Qed.

Lemma iou_self (a : BBox) : non_degenerate a → (_calculate_iou a a == 1)%Q.
Proof.
  destruct a as [[[x y] w] h]. intros [Hw Hh].
  unfold _calculate_iou.
  rewrite !Z.max_id, !Z.min_id.
  destruct (Z.ltb_spec (x + w) x); [lia|].
  destruct (Z.ltb_spec (y + h) y); [lia|]. cbn [orb].
  replace (x + w - x) with w by lia. replace (y + h - y) with h by lia.
  replace (w * h + w * h - w * h) with (w * h) by lia.
  destruct (Z.ltb_spec 0 (w * h)); [|nia].
  apply Qdiv_diag. lia.
Qed.

Lemma iou_comm (a b : BBox) : _calculate_iou a b = _calculate_iou b a.
Proof.
  destruct a as [[[x1 y1] w1] h1], b as [[[x2 y2] w2] h2].
  unfold _calculate_iou.
  rewrite (Z.max_comm x2 x1), (Z.max_comm y2 y1).
  rewrite (Z.min_comm (x2 + w2)), (Z.min_comm (y2 + h2)).
  rewrite (Z.add_comm (w2 * h2) (w1 * h1)). reflexivity.
Qed.

Lemma iou_no_overlap (a b : BBox) :
  ¬ overlap a b → (_calculate_iou a b == 0)%Q.
Proof.
  intros Hno. rewrite iou_unfold.
  destruct (_ || _) eqn:Hsep; [reflexivity|].
  destruct (0 <? _); [|reflexivity].
  assert (intersection_area a b = 0) as ->; [|apply Qdiv_zero_num].
  unfold intersection_area, overlap in *.
  destruct (x_extent a b) as [xl xr], (y_extent a b) as [yt yb].
  cbn [fst snd] in *. rewrite Hsep.
  apply orb_false_elim in Hsep as [?%Z.ltb_ge ?%Z.ltb_ge]. nia.
Qed.

Lemma iou_zero_union (a b : BBox) :
  union_area a b = 0 → _calculate_iou a b = 0%Q.
Proof.
  intros H0. rewrite iou_unfold, H0.
  destruct (_ || _); reflexivity.
Qed.

(** C6. IoU of a non-degenerate box with itself is 1; IoU is symmetric;
    IoU is 0 for boxes that do not overlap; IoU is 0 when the union area
    is zero. *)
Theorem iou_properties (a b : BBox) :
  (non_degenerate a → (_calculate_iou a a == 1)%Q)
  ∧ _calculate_iou a b = _calculate_iou b a
  ∧ (¬ overlap a b → (_calculate_iou a b == 0)%Q)
  ∧ (union_area a b = 0 → (_calculate_iou a b == 0)%Q).
Proof.
  split; [apply iou_self|].
  split; [apply iou_comm|].
  split; [apply iou_no_overlap|].
  intros H. rewrite (iou_zero_union _ _ H). reflexivity.
Qed.

Lemma iou_properties_witness :
  _calculate_iou (10, 10, 50, 50) (10, 10, 50, 50) == 1%Q
  ∧ _calculate_iou (0, 0, 4, 4) (7, 7, 2, 2) == 0%Q
  ∧ _calculate_iou (3, 3, 0, 0) (3, 3, 0, 0) == 0%Q.
Proof.
  split; [|split].
  - apply (proj1 (iou_properties (10, 10, 50, 50) (10, 10, 50, 50))).
    unfold non_degenerate. lia.
  - apply (proj1 (proj2 (proj2 (iou_properties (0, 0, 4, 4) (7, 7, 2, 2))))).
    unfold overlap, x_extent, y_extent. cbn. lia.
  - apply (proj2 (proj2 (proj2 (iou_properties (3, 3, 0, 0) (3, 3, 0, 0))))).
    reflexivity.
Defined.
End IoUSpec.

(* ===================================================================== *)
(** * Properties of [FaceTracker.update] *)
(* ===================================================================== *)

Module TrackerFacts.
Import Tracker.
Local Open Scope Z_scope.

(** ** The ageing pass *)

Lemma age_one_get m ts k0 k :
  dict_get k (age_one m ts k0) =
  if decide (k = k0) then dict_get k ts ≫= aged m else dict_get k ts.
Proof.
  unfold age_one. destruct (decide (k = k0)) as [->|Hne].
  - destruct (dict_get k0 ts) as [t|] eqn:Hg; simpl; [|by rewrite Hg].
    unfold aged. simpl. destruct (m <? age t + 1).
    + apply dict_get_del_eq.
    + apply dict_get_set_eq.
  - destruct (dict_get k0 ts) as [t|] eqn:Hg; simpl; [|done].
    destruct (m <? age t + 1).
    + apply dict_get_del_ne. congruence.
    + apply dict_get_set_ne. congruence.
Qed.

Lemma age_fold_get m ks ts k :
  NoDup ks →
  dict_get k (fold_left (age_one m) ks ts) =
  if decide (k ∈ ks) then dict_get k ts ≫= aged m else dict_get k ts.
Proof.
  intros Hnd. revert ts.
  induction Hnd as [|k0 ks Hk0 Hnd IH]; intros ts; cbn [fold_left].
  - rewrite decide_False; [done | apply not_elem_of_nil].
  - rewrite IH, age_one_get.
    destruct (decide (k ∈ k0 :: ks)) as [Hin|Hnin];
      destruct (decide (k ∈ ks)) as [Hin'|Hnin'];
      destruct (decide (k = k0)) as [->|Hne]; try done.
    all: exfalso; first [ apply Hnin; by (left || right) | by inversion Hin ].
Qed.

Lemma age_tracks_get m ts k :
  dict_wf ts → dict_get k (age_tracks m ts) = dict_get k ts ≫= aged m.
Proof.
  intros Hwf. unfold age_tracks. rewrite age_fold_get by done.
  destruct (decide (k ∈ dict_keys ts)) as [|Hn]; [done|].
  apply dict_get_None_keys in Hn. by rewrite Hn.
Qed.

Lemma age_one_keys m ts k0 k :
  k ∈ dict_keys (age_one m ts k0) → k ∈ dict_keys ts.
Proof.
  unfold age_one. destruct (dict_get k0 ts) as [t|] eqn:Hg; [|done].
  simpl. destruct (m <? age t + 1).
  - rewrite dict_keys_del. by intros [_ ?]%list_elem_of_filter.
  - rewrite dict_keys_set.
    assert (dict_mem k0 ts = true) as ->; [|done].
    apply dict_mem_true. eauto.
Qed.

Lemma age_one_wf m ts k0 : dict_wf ts → dict_wf (age_one m ts k0).
Proof.
  unfold age_one. destruct (dict_get k0 ts) as [t|]; [|done].
  simpl. destruct (m <? age t + 1); [apply dict_wf_del | apply dict_wf_set].
Qed.

Lemma age_tracks_keys m ts k :
  k ∈ dict_keys (age_tracks m ts) → k ∈ dict_keys ts.
Proof.
  unfold age_tracks. generalize (dict_keys ts) at 1 as ks.
  intros ks. revert ts. induction ks as [|k0 ks IH]; intros ts; simpl; [done|].
  intros Hk. eapply age_one_keys, IH, Hk.
Qed.

Lemma age_tracks_wf m ts : dict_wf ts → dict_wf (age_tracks m ts).
Proof.
  unfold age_tracks. generalize (dict_keys ts) as ks.
  intros ks. revert ts. induction ks as [|k0 ks IH]; intros ts; simpl; [done|].
  intros Hwf. apply IH, age_one_wf, Hwf.
Qed.

(** ** The search for the best unclaimed track *)

Lemma best_fold_inv thr (matched : gset Z) b ts acc :
  (fold_left (best_step thr matched b) ts acc).2 = acc.2
  ∨ ∃ k, (fold_left (best_step thr matched b) ts acc).2 = Some k
         ∧ k ∈ dict_keys ts ∧ k ∉ matched.
Proof.
  revert acc. induction ts as [|[k t] r IH]; intros acc; simpl; [by left|].
  destruct (IH (best_step thr matched b acc (k, t))) as [Heq|(k' & Hk' & Hin & Hm)].
  - rewrite Heq. unfold best_step. destruct acc as [bi bt]. simpl.
    case_bool_decide as Hmem; [by left|].
    destruct (_ && _); [|by left].
    right. exists k. simpl. split_and!; [done | left | done].
  - right. exists k'. split_and!; [done | by right | done].
Qed.

Lemma find_best_Some thr (matched : gset Z) b ts k :
  find_best thr matched b ts = Some k →
  k ∈ dict_keys ts ∧ k ∉ matched.
Proof.
  unfold find_best. intros Hf.
  destruct (best_fold_inv thr matched b ts (0%Q, None)) as [Heq|(k' & Hk' & ?)].
  - simpl in Heq. congruence.
  - assert (k' = k) as -> by congruence. done.
Qed.

(** ** One iteration of the detection loop *)

Lemma loop_body_rematch l d k :
  find_best (iou_threshold (l_self l)) (l_matched l) (det_bbox d)
    (tracks (l_self l)) = Some k →
  ∃ track,
    dict_get k (tracks (l_self l)) = Some track
    ∧ (k ∉ l_matched l)
    ∧ (let votes := votes_after (history_size (l_self l)) d (name_votes track) in
       let st := stabilize votes (det_conf d) in
       loop_body l d =
       {| l_self :=
            set_tracks
              (dict_set k {| bbox := det_bbox d; name_votes := votes; age := 0 |}
                 (tracks (l_self l)))
              (l_self l);
          l_matched := {[ k ]} ∪ l_matched l;
          l_results := l_results l ++
            [(det_bbox d, st.1, st.2,
              negb (bool_decide (st.1 = "Unknown"%string)))];
          l_claims := l_claims l ++ [Rematched k] |}).
Proof.
  intros Hf. destruct (find_best_Some _ _ _ _ _ Hf) as [Hin Hm].
  apply dict_get_is_Some_keys in Hin as [track Hg].
  exists track. split_and!; [done..|].
  destruct d as [[[b name] conf] known].
  unfold det_bbox, det_conf, votes_after, det_name, det_known in *.
  simpl in *. unfold loop_body. rewrite Hf, Hg.
  destruct (stabilize _ _) as [sn sc]. reflexivity.
Qed.

Lemma loop_body_create l d :
  find_best (iou_threshold (l_self l)) (l_matched l) (det_bbox d)
    (tracks (l_self l)) = None →
  loop_body l d =
  {| l_self :=
       {| tracks :=
            dict_set (next_id (l_self l))
              {| bbox := det_bbox d;
                 name_votes := votes_created (history_size (l_self l)) d;
                 age := 0 |}
              (tracks (l_self l));
          next_id := next_id (l_self l) + 1;
          history_size := history_size (l_self l);
          iou_threshold := iou_threshold (l_self l);
          max_age := max_age (l_self l) |};
     l_matched := {[ next_id (l_self l) ]} ∪ l_matched l;
     l_results := l_results l ++ [d];
     l_claims := l_claims l ++ [Created (next_id (l_self l))] |}.
Proof.
  intros Hf. destruct d as [[[b name] conf] known].
  unfold det_bbox, votes_created, det_conf, det_name, det_known in *.
  simpl in *. unfold loop_body. rewrite Hf. reflexivity.
Qed.

(** Case analysis on an iteration: either a track [k] is re-matched or
    a new track is created. *)
Ltac loop_cases l d :=
  let Hf := fresh "Hf" in
  destruct (find_best (iou_threshold (l_self l)) (l_matched l) (det_bbox d)
              (tracks (l_self l))) as [?k|] eqn:Hf;
  [ destruct (loop_body_rematch l d _ Hf) as (?track & ?Hg & ?Hm & ?Hbody);
    cbv zeta in Hbody
  | pose proof (loop_body_create l d Hf) as ?Hbody ].

Lemma update_loop_snoc self ds d :
  update_loop self (ds ++ [d]) = loop_body (update_loop self ds) d.
Proof. unfold update_loop. by rewrite fold_left_app. Qed.

Lemma update_loop_nil self :
  update_loop self [] =
  {| l_self := set_tracks (age_tracks (max_age self) (tracks self)) self;
     l_matched := ∅; l_results := []; l_claims := [] |}.
Proof. reflexivity. Qed.

Lemma loop_body_params l d :
  history_size (l_self (loop_body l d)) = history_size (l_self l)
  ∧ iou_threshold (l_self (loop_body l d)) = iou_threshold (l_self l)
  ∧ max_age (l_self (loop_body l d)) = max_age (l_self l).
Proof. loop_cases l d; rewrite Hbody; done. Qed.

Lemma update_loop_params self ds :
  history_size (l_self (update_loop self ds)) = history_size self
  ∧ iou_threshold (l_self (update_loop self ds)) = iou_threshold self
  ∧ max_age (l_self (update_loop self ds)) = max_age self.
Proof.
  induction ds as [|d ds IH] using rev_ind; [done|].
  rewrite update_loop_snoc.
  destruct (loop_body_params (update_loop self ds) d) as (-> & -> & ->). done.
Qed.

(** Tracks outside [matched_tracks] are not touched by the loop. *)
Lemma loop_body_unmatched l d k :
  k ∉ l_matched (loop_body l d) →
  (k ∉ l_matched l)
  ∧ dict_get k (tracks (l_self (loop_body l d))) = dict_get k (tracks (l_self l)).
Proof.
  loop_cases l d; rewrite Hbody; simpl;
    intros [Hne Hk]%not_elem_of_union;
    apply not_elem_of_singleton in Hne;
    (split; [done|]); apply dict_get_set_ne; congruence.
Qed.

Lemma update_loop_unmatched self ds k :
  k ∉ l_matched (update_loop self ds) →
  dict_get k (tracks (l_self (update_loop self ds))) =
  dict_get k (age_tracks (max_age self) (tracks self)).
Proof.
  induction ds as [|d ds IH] using rev_ind; [done|].
  rewrite update_loop_snoc. intros Hk.
  apply loop_body_unmatched in Hk as [Hk ->]. auto.
Qed.

(** Tracks in [matched_tracks] are present with age 0. *)
Lemma loop_body_matched_fresh l d :
  matched_fresh l → matched_fresh (loop_body l d).
Proof.
  intros HI k.
  loop_cases l d; rewrite Hbody; simpl;
    intros [->%elem_of_singleton|Hk]%elem_of_union;
    try (rewrite dict_get_set_eq; by eauto).
  - destruct (decide (k0 = k)) as [->|Hne]; [done|].
    rewrite dict_get_set_ne by done. by apply HI.
  - destruct (decide (next_id (l_self l) = k)) as [<-|Hne].
    + rewrite dict_get_set_eq. eauto.
    + rewrite dict_get_set_ne by done. by apply HI.
Qed.

Lemma update_loop_matched_fresh self ds :
  matched_fresh (update_loop self ds).
Proof.
  induction ds as [|d ds IH] using rev_ind.
  - intros k Hk. rewrite update_loop_nil in Hk. set_solver.
  - rewrite update_loop_snoc. by apply loop_body_matched_fresh.
Qed.

Lemma loop_body_tracks_wf l d :
  dict_wf (tracks (l_self l)) → dict_wf (tracks (l_self (loop_body l d))).
Proof. loop_cases l d; rewrite Hbody; simpl; apply dict_wf_set. Qed.

Lemma update_loop_tracks_wf self ds :
  dict_wf (tracks self) → dict_wf (tracks (l_self (update_loop self ds))).
Proof.
  intros Hwf. induction ds as [|d ds IH] using rev_ind.
  - by apply age_tracks_wf.
  - rewrite update_loop_snoc. by apply loop_body_tracks_wf.
Qed.

(** ** One [update] call, seen from one track *)

Lemma update_matched self ds k :
  k ∈ matched_in self ds →
  ∃ t, dict_get k (tracks (update self ds).1) = Some t ∧ age t = 0.
Proof. apply update_loop_matched_fresh. Qed.

Lemma update_unmatched self ds k :
  dict_wf (tracks self) → k ∉ matched_in self ds →
  dict_get k (tracks (update self ds).1) =
  dict_get k (tracks self) ≫= aged (max_age self).
Proof.
  intros Hwf Hk. unfold update. simpl.
  rewrite update_loop_unmatched by done. by apply age_tracks_get.
Qed.

(** ** Consecutive [update] calls *)

Lemma iter_aged_None m n : Nat.iter n (λ o, o ≫= aged m) None = None.
Proof. induction n as [|n IH]; simpl; [done | by rewrite IH]. Qed.

Lemma iter_aged_Some m n t :
  Nat.iter (S n) (λ o, o ≫= aged m) (Some t) =
  if m <? age t + Z.of_nat (S n) then None
  else Some (with_age (age t + Z.of_nat (S n)) t).
Proof.
  revert t. induction n as [|n IH]; intros t.
  - simpl. unfold aged, with_age. simpl. done.
  - rewrite Nat.iter_succ_r. cbn [mbind option_bind]. unfold aged at 2.
    cbn [age]. destruct (Z.ltb_spec m (age t + 1)) as [Hlt|Hge].
    + rewrite iter_aged_None. destruct (Z.ltb_spec m (age t + Z.of_nat (S (S n)))); [done | lia].
    + rewrite IH. cbn [age].
      replace (age t + 1 + Z.of_nat (S n)) with (age t + Z.of_nat (S (S n))) by lia.
      done.
Qed.

Lemma run_cons self f r : run self (f :: r) = run (update self f).1 r.
Proof. reflexivity. Qed.

Lemma update_max_age self ds : max_age (update self ds).1 = max_age self.
Proof. apply update_loop_params. Qed.

Lemma run_unmatched frames self k :
  dict_wf (tracks self) →
  unmatched_during k self frames = true →
  dict_get k (tracks (run self frames)) =
  Nat.iter (length frames) (λ o, o ≫= aged (max_age self))
    (dict_get k (tracks self)).
Proof.
  revert self. induction frames as [|f r IH]; intros self Hwf Hun; [done|].
  simpl in Hun. apply andb_true_iff in Hun as [Hf Hr].
  apply negb_true_iff, bool_decide_eq_false in Hf.
  rewrite run_cons, IH; [|by apply update_loop_tracks_wf | done].
  rewrite update_max_age, update_unmatched by done.
  cbn [length]. by rewrite Nat.iter_succ_r.
Qed.

(** ** Results and claims of one call *)

Lemma loop_body_matched_mono l d k :
  k ∈ l_matched l → k ∈ l_matched (loop_body l d).
Proof.
  intros Hk. loop_cases l d; rewrite Hbody; simpl;
    apply elem_of_union; by right.
Qed.

Lemma loop_body_results l d :
  ∃ r c, l_results (loop_body l d) = l_results l ++ [r]
         ∧ l_claims (loop_body l d) = l_claims l ++ [c]
         ∧ det_bbox r = det_bbox d.
Proof. loop_cases l d; rewrite Hbody; simpl; eauto. Qed.

Lemma update_loop_lengths self ds :
  length (l_results (update_loop self ds)) = length ds
  ∧ length (l_claims (update_loop self ds)) = length ds
  ∧ map det_bbox (l_results (update_loop self ds)) = map det_bbox ds.
Proof.
  induction ds as [|d ds (IH1 & IH2 & IH3)] using rev_ind; [done|].
  rewrite update_loop_snoc.
  destruct (loop_body_results (update_loop self ds) d) as (r & c & -> & -> & Hb).
  rewrite !length_app, !map_app, IH1, IH2, IH3. simpl. by rewrite Hb.
Qed.

(** Every track in the table is either a track that was there before
    the call or one claimed in this call. *)
Lemma update_loop_keys self ds k :
  k ∈ dict_keys (tracks (l_self (update_loop self ds))) →
  k ∈ dict_keys (tracks self) ∨ k ∈ l_matched (update_loop self ds).
Proof.
  induction ds as [|d ds IH] using rev_ind.
  - rewrite update_loop_nil. simpl. intros Hk%age_tracks_keys. by left.
  - rewrite update_loop_snoc. set (l := update_loop self ds) in *.
    loop_cases l d; rewrite Hbody; simpl; rewrite dict_keys_set.
    + assert (dict_mem k0 (tracks (l_self l)) = true) as ->
        by (apply dict_mem_true; eauto).
      intros [?|?]%IH; [by left | right]. apply elem_of_union. by right.
    + destruct (dict_mem _ _).
      * intros [?|?]%IH; [by left | right]. apply elem_of_union. by right.
      * intros [[?|?]%IH| ->%list_elem_of_singleton]%elem_of_app;
          [by left | right; apply elem_of_union; by right |].
        right. apply elem_of_union. left. by apply elem_of_singleton.
Qed.

Lemma update_loop_rematched self ds i k :
  l_claims (update_loop self ds) !! i = Some (Rematched k) →
  k ∈ l_matched (update_loop self ds) ∧ k ∈ dict_keys (tracks self).
Proof.
  revert i. induction ds as [|d ds IH] using rev_ind; intros i.
  - rewrite update_loop_nil. simpl. by rewrite lookup_nil.
  - rewrite update_loop_snoc. set (l := update_loop self ds) in *.
    loop_cases l d; rewrite Hbody; simpl;
      intros [Hi|[_ Hi]]%lookup_app_Some.
    + apply IH in Hi as [? ?]. split; [|done]. apply elem_of_union. by right.
    + apply list_lookup_singleton_Some in Hi as [_ [= <-]].
      split; [apply elem_of_union; left; by apply elem_of_singleton|].
      destruct (update_loop_keys self ds k0) as [?|?]; [|done..].
      apply dict_get_is_Some_keys. eauto.
    + apply IH in Hi as [? ?]. split; [|done]. apply elem_of_union. by right.
    + by apply list_lookup_singleton_Some in Hi as [_ ?].
Qed.

Lemma update_loop_rematched_once self ds i j k :
  l_claims (update_loop self ds) !! i = Some (Rematched k) →
  l_claims (update_loop self ds) !! j = Some (Rematched k) →
  i = j.
Proof.
  revert i j. induction ds as [|d ds IH] using rev_ind; intros i j.
  - rewrite update_loop_nil. simpl. by rewrite lookup_nil.
  - rewrite update_loop_snoc.
    pose proof (update_loop_rematched self ds) as Hold.
    set (l := update_loop self ds) in *.
    loop_cases l d; rewrite Hbody; simpl;
      intros [Hi|[Hil Hi]]%lookup_app_Some [Hj|[Hjl Hj]]%lookup_app_Some;
      try (by eapply IH);
      try (apply list_lookup_singleton_Some in Hi as [Hi0 Hi]);
      try (apply list_lookup_singleton_Some in Hj as [Hj0 Hj]);
      simplify_eq.
    + apply Hold in Hi as [? _]. done.
    + apply Hold in Hj as [? _]. done.
    + lia.
Qed.

(** ** The stabilized label *)

Lemma key_le_refl a : key_le a a.
Proof. right. split; [done | apply Qle_refl]. Qed.

Lemma key_le_trans a b c : key_le a b → key_le b c → key_le a c.
Proof.
  unfold key_le. intros [H1|[H1 H1']] [H2|[H2 H2']].
  - left. lia.
  - left. lia.
  - left. lia.
  - right. split; [congruence | by eapply Qle_trans].
Qed.

Lemma key_gt_true a b : key_gt a b = true → key_le b a.
Proof.
  unfold key_gt, key_le. destruct (decide (a.1 = b.1)) as [Heq|Hne].
  - intros Hgt%Qgtb_true. right. split; [done | by apply Qlt_le_weak].
  - intros Hlt%bool_decide_eq_true. by left.
Qed.

Lemma key_gt_false a b : key_gt a b = false → key_le a b.
Proof.
  unfold key_gt, key_le. destruct (decide (a.1 = b.1)) as [Heq|Hne].
  - intros Hgt%Qgtb_false. by right.
  - intros Hlt%bool_decide_eq_false. left. lia.
Qed.

Lemma stabilize_nonempty votes confidence :
  votes ≠ [] → dict_wf votes →
  ∃ q, is_top_vote votes (stabilize votes confidence).1 q
       ∧ (stabilize votes confidence).2 = np_mean q.
Proof.
  intros Hne Hwf. unfold stabilize.
  destruct (py_max vote_gt votes) as [[n q]|] eqn:Hmax.
  - apply (py_max_spec vote_gt (λ x y, key_le (vote_key x) (vote_key y)))
      in Hmax as [Hin Htop].
    + exists q. simpl. split; [|done]. split; [by apply dict_elem_get | done].
    + intros x. apply key_le_refl.
    + intros x y z. apply key_le_trans.
    + intros x y. apply key_gt_true.
    + intros x y. apply key_gt_false.
  - by apply py_max_None in Hmax.
Qed.

Lemma stabilize_empty confidence :
  stabilize [] confidence = ("Unknown"%string, confidence).
Proof. reflexivity. Qed.

Lemma np_mean_single c : (np_mean [c] == c)%Q.
Proof. unfold np_mean, Qsum. simpl. field. Qed.

Lemma deque_single_pos maxlen c :
  (0 < maxlen)%nat → deque_single maxlen c = [c].
Proof.
  intros Hpos. unfold deque_single, deque_append. simpl.
  replace (1 - maxlen)%nat with 0%nat by lia. done.
Qed.

(** The name with strictly the most votes is the top vote. *)
Lemma top_vote_most_votes votes name q name' q' :
  is_top_vote votes name q →
  dict_get name' votes = Some q' →
  (∀ x, x ∈ votes → x.1 ≠ name' → (length x.2 < length q')%nat) →
  name = name'.
Proof.
  intros [Hget Htop] Hget' Hmost.
  destruct (decide (name = name')) as [|Hne]; [done|]. exfalso.
  apply dict_get_Some_elem in Hget, Hget'.
  specialize (Hmost _ Hget Hne). specialize (Htop _ Hget').
  unfold key_le, vote_key in Htop. simpl in *. lia.
Qed.

(** ** The state invariant *)

Lemma push_vote_wf maxlen name c votes :
  dict_wf votes → dict_wf (push_vote maxlen name c votes).
Proof.
  intros Hwf. unfold push_vote.
  destruct (dict_mem name votes);
    destruct (dict_get name _); auto using @dict_wf_set.
Qed.

Lemma votes_after_wf maxlen d votes :
  dict_wf votes → dict_wf (votes_after maxlen d votes).
Proof.
  unfold votes_after. destruct (_ && _); [apply push_vote_wf | done].
Qed.

Lemma votes_created_wf maxlen d : dict_wf (votes_created maxlen d).
Proof.
  unfold votes_created, dict_wf.
  destruct (_ && _); simpl; [apply NoDup_singleton | apply NoDup_nil_2].
Qed.

Lemma tracker_wf_aged self :
  tracker_wf self →
  tracker_wf (set_tracks (age_tracks (max_age self) (tracks self)) self).
Proof.
  intros (Hwf & Hfresh & Hvotes). split_and!; simpl.
  - by apply age_tracks_wf.
  - intros k Hk%age_tracks_keys. auto.
  - intros k t. rewrite age_tracks_get by done.
    destruct (dict_get k (tracks self)) as [t0|] eqn:Hg; [|done].
    simpl. unfold aged. destruct (_ <? _); [done|].
    intros [= <-]. simpl. eauto.
Qed.

Lemma loop_body_wf l d :
  tracker_wf (l_self l) → tracker_wf (l_self (loop_body l d)).
Proof.
  intros (Hwf & Hfresh & Hvotes).
  loop_cases l d; rewrite Hbody; simpl; split_and!; simpl.
  - by apply dict_wf_set.
  - intros k'. rewrite dict_keys_set.
    assert (dict_mem k (tracks (l_self l)) = true) as ->
      by (apply dict_mem_true; eauto).
    auto.
  - intros k' t'. destruct (decide (k = k')) as [->|Hne].
    + rewrite dict_get_set_eq. intros [= <-]. simpl.
      apply votes_after_wf. eauto.
    + rewrite dict_get_set_ne by done. eauto.
  - by apply dict_wf_set.
  - intros k'. rewrite dict_keys_set.
    destruct (dict_mem _ _).
    + intros ?%Hfresh. lia.
    + intros [?%Hfresh| ->%list_elem_of_singleton]%elem_of_app; lia.
  - intros k' t'. destruct (decide (next_id (l_self l) = k')) as [<-|Hne].
    + rewrite dict_get_set_eq. intros [= <-]. simpl.
      apply votes_created_wf.
    + rewrite dict_get_set_ne by done. eauto.
Qed.

Lemma update_loop_wf self ds :
  tracker_wf self → tracker_wf (l_self (update_loop self ds)).
Proof.
  intros Hwf. induction ds as [|d ds IH] using rev_ind.
  - by apply tracker_wf_aged.
  - rewrite update_loop_snoc. by apply loop_body_wf.
Qed.

Lemma update_wf self ds : tracker_wf self → tracker_wf (update self ds).1.
Proof. apply update_loop_wf. Qed.

Lemma init_wf history_size iou_threshold :
  tracker_wf (init history_size iou_threshold).
Proof.
  split_and!; simpl.
  - apply NoDup_nil_2.
  - intros k Hk. by apply elem_of_nil in Hk.
  - done.
Qed.

Lemma run_wf self frames : tracker_wf self → tracker_wf (run self frames).
Proof.
  revert self. induction frames as [|f r IH]; intros self Hwf; [done|].
  rewrite run_cons. by apply IH, update_wf.
Qed.

(** ** What each iteration emitted, seen from the end of the call *)

Lemma update_loop_emitted self ds i c d r :
  tracker_wf self →
  l_claims (update_loop self ds) !! i = Some c →
  l_results (update_loop self ds) !! i = Some r →
  ds !! i = Some d →
  claim_id c ∈ l_matched (update_loop self ds)
  ∧ ∃ t, dict_get (claim_id c) (tracks (l_self (update_loop self ds))) = Some t
         ∧ emitted (history_size self) c t d r.
Proof.
  intros Hwf. revert i c d r.
  induction ds as [|d0 ds IH] using rev_ind; intros i c d r.
  { by rewrite lookup_nil. }
  rewrite update_loop_snoc.
  destruct (update_loop_lengths self ds) as (Hlr & Hlc & _).
  destruct (update_loop_params self ds) as (Hhs & _ & _).
  pose proof (update_loop_wf self ds Hwf) as (_ & Hfresh & _).
  pose proof (update_loop_matched_fresh self ds) as Hmf.
  set (l := update_loop self ds) in *.
  assert (∀ k, k ∈ l_matched l → k < next_id (l_self l)) as Hlt.
  { intros k [t [Ht _]]%Hmf. apply Hfresh, dict_get_is_Some_keys. eauto. }
  loop_cases l d0; rewrite Hbody; simpl;
    intros [Hc|[Hcl Hc]]%lookup_app_Some [Hr|[Hrl Hr]]%lookup_app_Some
           [Hd|[Hdl Hd]]%lookup_app_Some;
    try (pose proof (lookup_lt_Some _ _ _ Hc));
    try (pose proof (lookup_lt_Some _ _ _ Hr));
    try (pose proof (lookup_lt_Some _ _ _ Hd)); try lia.
  - destruct (IH _ _ _ _ Hc Hr Hd) as (Hin & t & Ht & Hem).
    split; [apply elem_of_union; by right|].
    exists t. split; [|done].
    rewrite dict_get_set_ne; [done|]. intros ->. done.
  - apply list_lookup_singleton_Some in Hc as [_ <-].
    apply list_lookup_singleton_Some in Hr as [_ <-].
    apply list_lookup_singleton_Some in Hd as [_ <-].
    simpl. split; [apply elem_of_union; left; by apply elem_of_singleton|].
    eexists. rewrite dict_get_set_eq. split; [done|].
    split; simpl; [done|]. by rewrite Hhs.
  - destruct (IH _ _ _ _ Hc Hr Hd) as (Hin & t & Ht & Hem).
    split; [apply elem_of_union; by right|].
    exists t. split; [|done].
    rewrite dict_get_set_ne; [done|]. intros Heq.
    apply Hlt in Hin. lia.
  - apply list_lookup_singleton_Some in Hc as [_ <-].
    apply list_lookup_singleton_Some in Hr as [_ <-].
    apply list_lookup_singleton_Some in Hd as [_ <-].
    simpl. split; [apply elem_of_union; left; by apply elem_of_singleton|].
    eexists. rewrite dict_get_set_eq. split; [done|].
    split; simpl; [done|]. by rewrite Hhs.
Qed.
End TrackerFacts.

Module TrackerSpec.
Import Tracker TrackerFacts IoUSpec Fixtures.
Local Open Scope Z_scope.

(** ** Ages and eviction *)

Lemma with_age_id t : with_age (age t) t = t.
Proof. by destruct t. Qed.

(** C3. On an [update] call, a track that a detection is associated to
    has age 0 afterwards; a track that is not matched has its age
    increased by exactly 1 and stays in the state as long as the new age
    is at most 10, and is removed from the state when the new age
    exceeds 10.  Hence a track that is unmatched during 11 consecutive
    calls is absent after the 11th, and a track matched in the last call
    is still present after up to 10 unmatched calls. *)
Theorem track_age_lifecycle (self : FaceTracker) (track_id : Z) (t : Track)
    (detections : list Detection) (frames : list (list Detection)) :
  dict_wf (tracks self) →
  max_age self = 10 →
  dict_get track_id (tracks self) = Some t →
  (track_id ∈ matched_in self detections →
     ∃ t', dict_get track_id (tracks (update self detections).1) = Some t'
           ∧ age t' = 0)
  ∧ (track_id ∉ matched_in self detections → age t + 1 ≤ 10 →
     dict_get track_id (tracks (update self detections).1)
     = Some (with_age (age t + 1) t))
  ∧ (track_id ∉ matched_in self detections → 10 < age t + 1 →
     dict_get track_id (tracks (update self detections).1) = None)
  ∧ (0 ≤ age t → length frames = 11%nat →
     unmatched_during track_id self frames = true →
     dict_get track_id (tracks (run self frames)) = None)
  ∧ (age t = 0 → (length frames ≤ 10)%nat →
     unmatched_during track_id self frames = true →
     dict_get track_id (tracks (run self frames))
     = Some (with_age (Z.of_nat (length frames)) t)).
Proof.
  intros Hwf Hmax Hget. split_and!.
  - apply update_matched.
  - intros Hun Hage. rewrite update_unmatched, Hget, Hmax by done.
    cbn [mbind option_bind]. unfold aged. cbn [age].
    destruct (Z.ltb_spec 10 (age t + 1)); [lia | done].
  - intros Hun Hage. rewrite update_unmatched, Hget, Hmax by done.
    cbn [mbind option_bind]. unfold aged. cbn [age].
    destruct (Z.ltb_spec 10 (age t + 1)); [done | lia].
  - intros Hage Hlen Hun. rewrite run_unmatched, Hget, Hmax, Hlen by done.
    rewrite iter_aged_Some.
    destruct (Z.ltb_spec 10 (age t + Z.of_nat 11)); [done | lia].
  - intros Hage Hlen Hun. rewrite run_unmatched, Hget, Hmax by done.
    destruct (length frames) as [|n] eqn:Hn.
    + cbn [Nat.iter]. by rewrite Nat2Z.inj_0, <- Hage, with_age_id.
    + rewrite iter_aged_Some, Hage.
      destruct (Z.ltb_spec 10 (0 + Z.of_nat (S n))); [lia | done].
Qed.

Lemma track_age_lifecycle_witness :
  (∃ t', dict_get 0 (tracks (update tracker1 [seen "Alice" (8 # 10)]).1) = Some t'
         ∧ age t' = 0)
  ∧ dict_get 0 (tracks (update tracker1 []).1)
    = Some {| bbox := box0; name_votes := [("Alice"%string, [9 # 10]%Q)];
              age := 1 |}
  ∧ dict_get 0 (tracks (run tracker1 (replicate 11 []))) = None
  ∧ dict_get 0 (tracks (run tracker1 (replicate 10 [])))
    = Some {| bbox := box0; name_votes := [("Alice"%string, [9 # 10]%Q)];
              age := 10 |}.
Proof.
  assert (dict_wf (tracks tracker1)) as Hwf.
  { unfold dict_wf. vm_compute. apply NoDup_singleton. }
  assert (dict_get 0 (tracks tracker1)
          = Some {| bbox := box0; name_votes := [("Alice"%string, [9 # 10]%Q)];
                    age := 0 |}) as Hget by reflexivity.
  split_and!.
  - apply (proj1 (track_age_lifecycle tracker1 0 _ [seen "Alice" (8 # 10)] []
                    Hwf eq_refl Hget)).
    refine (bool_decide_unpack _ _). vm_compute. exact I.
  - apply (proj1 (proj2 (track_age_lifecycle tracker1 0 _ [] []
                           Hwf eq_refl Hget))).
    + refine (proj1 (bool_decide_eq_false _) _). vm_compute. reflexivity.
    + simpl. lia.
  - apply (proj1 (proj2 (proj2 (proj2
             (track_age_lifecycle tracker1 0 _ [] (replicate 11 [])
                Hwf eq_refl Hget))))).
    + simpl. lia.
    + reflexivity.
    + vm_compute. reflexivity.
  - apply (proj2 (proj2 (proj2 (proj2
             (track_age_lifecycle tracker1 0 _ [] (replicate 10 [])
                Hwf eq_refl Hget))))).
    + reflexivity.
    + simpl. lia.
    + vm_compute. reflexivity.
Defined.


(** ** Results of a call *)

(** C10. [update] returns exactly one tuple per detection, in input
    order, the i-th carrying the bounding box of the i-th detection; and
    within one call a track that was in the state before the call is
    re-matched by at most one detection. *)
Theorem update_one_result_per_detection (self : FaceTracker)
    (detections : list Detection) :
  length (update self detections).2 = length detections
  ∧ map det_bbox (update self detections).2 = map det_bbox detections
  ∧ length (l_claims (update_loop self detections)) = length detections
  ∧ (∀ i k, l_claims (update_loop self detections) !! i = Some (Rematched k) →
            k ∈ dict_keys (tracks self))
  ∧ (∀ i j k,
       l_claims (update_loop self detections) !! i = Some (Rematched k) →
       l_claims (update_loop self detections) !! j = Some (Rematched k) →
       i = j).
Proof.
  destruct (update_loop_lengths self detections) as (H1 & H2 & H3).
  split_and!; [done..| |].
  - intros i k Hi. by apply update_loop_rematched in Hi as [_ ?].
  - apply update_loop_rematched_once.
Qed.

(** ** The emitted labels *)

Lemma emitted_top_vote maxlen c t d r :
  (0 < maxlen)%nat → dict_wf (name_votes t) → name_votes t ≠ [] →
  emitted maxlen c t d r →
  ∃ q, is_top_vote (name_votes t) (det_name r) q
       ∧ (det_conf r == np_mean q)%Q.
Proof.
  intros Hpos Hwf Hne [_ Hem]. destruct c as [k|k].
  - cbv zeta in Hem.
    assert (det_name r = (stabilize (name_votes t) (det_conf d)).1) as ->
      by (by subst r).
    assert (det_conf r = (stabilize (name_votes t) (det_conf d)).2) as ->
      by (by subst r).
    destruct (stabilize_nonempty (name_votes t) (det_conf d) Hne Hwf)
      as (q & Htop & Hmean).
    exists q. split; [done|]. by rewrite Hmean.
  - destruct Hem as [-> Hvotes]. rewrite Hvotes in *.
    unfold votes_created in *.
    destruct (truthy (det_name d) && det_known d); [|done].
    rewrite deque_single_pos by done.
    exists [det_conf d]. split; [split|].
    + simpl. by rewrite decide_True.
    + intros x ->%list_elem_of_singleton. apply key_le_refl.
    + symmetry. apply np_mean_single.
Qed.

(** C1. For every track that an [update] call claims or creates and
    whose [name_votes] is non-empty, the emitted name maximizes the pair
    (vote count, mean confidence) lexicographically over [name_votes]:
    it has a vote queue [q] in [name_votes], and every entry of
    [name_votes] has fewer votes than [q], or as many votes and a mean
    confidence that is not above the mean of [q]; the emitted confidence
    is the mean of [q], the sum of its confidences divided by their
    number.  So a name with strictly more votes than every other name is
    the label whatever the confidences are, among names with equally
    many votes a strictly higher mean confidence decides, and in
    particular a track holding 5 votes for "Alice" and 1 vote for "Bob"
    is labeled "Alice". *)
Theorem stabilized_label_is_top_vote (self : FaceTracker)
    (detections : list Detection) (i : nat) (c : claim) (r : Detection)
    (t : Track) :
  tracker_wf self →
  (0 < history_size self)%nat →
  l_claims (update_loop self detections) !! i = Some c →
  (update self detections).2 !! i = Some r →
  dict_get (claim_id c) (tracks (update self detections).1) = Some t →
  name_votes t ≠ [] →
  let mean := λ q : list Q,
    (fold_right Qplus 0 q / inject_Z (Z.of_nat (length q)))%Q in
  (∃ q, dict_get (det_name r) (name_votes t) = Some q
        ∧ (det_conf r == mean q)%Q
        ∧ ∀ name' q', (name', q') ∈ name_votes t →
            (length q' < length q)%nat
            ∨ (length q' = length q ∧ (mean q' <= mean q)%Q))
  ∧ (∀ name q,
       dict_get name (name_votes t) = Some q →
       (∀ x, x ∈ name_votes t → x.1 ≠ name → (length x.2 < length q)%nat) →
       det_name r = name)
  ∧ (∀ name q,
       dict_get name (name_votes t) = Some q →
       (∀ x, x ∈ name_votes t → x.1 ≠ name →
          (length x.2 < length q)%nat
          ∨ (length x.2 = length q ∧ (mean x.2 < mean q)%Q)) →
       det_name r = name)
  ∧ (∀ qa qb,
       length qa = 5%nat → length qb = 1%nat →
       name_votes t = [("Alice"%string, qa); ("Bob"%string, qb)]
       ∨ name_votes t = [("Bob"%string, qb); ("Alice"%string, qa)] →
       det_name r = "Alice"%string).
Proof.
  intros Hwf Hpos Hc Hr Ht Hne mean.
  destruct (update_loop_lengths self detections) as (Hlr & _ & _).
  destruct (lookup_lt_is_Some_2 detections i) as [d Hd].
  { rewrite <- Hlr. by eapply lookup_lt_Some. }
  destruct (update_loop_emitted self detections i c d r Hwf Hc Hr Hd)
    as (_ & t' & Ht' & Hem).
  unfold update in Ht. simpl in Ht. rewrite Ht in Ht'. injection Ht' as <-.
  pose proof (update_loop_wf self detections Hwf) as (_ & _ & Hvotes).
  specialize (Hvotes _ _ Ht).
  destruct (emitted_top_vote _ _ _ _ _ Hpos Hvotes Hne Hem) as (q & Htop & Hq).
  assert (∀ name' q', (name', q') ∈ name_votes t →
            (length q' < length q)%nat
            ∨ (length q' = length q ∧ (mean q' <= mean q)%Q)) as Hmax.
  { intros name' q' Hin. exact (proj2 Htop (name', q') Hin). }
  assert (∀ name q',
    dict_get name (name_votes t) = Some q' →
    (∀ x, x ∈ name_votes t → x.1 ≠ name →
       (length x.2 < length q')%nat
       ∨ (length x.2 = length q' ∧ (mean x.2 < mean q')%Q)) →
    det_name r = name) as Hlex.
  { intros name q' Hg Hm.
    destruct (decide (det_name r = name)) as [|Hn]; [done|exfalso].
    pose proof (dict_get_Some_elem _ _ _ (proj1 Htop)) as Hin.
    pose proof (dict_get_Some_elem _ _ _ Hg) as Hin'.
    specialize (Hm (det_name r, q) Hin Hn). specialize (Hmax name q' Hin').
    simpl in Hm.
    destruct Hm as [Hm|[Hm Hm']], Hmax as [Hx|[Hx Hx']]; try lia.
    apply Qlt_not_le in Hm'. by apply Hm'. }
  split_and!.
  - exists q. split_and!; [exact (proj1 Htop) | exact Hq | exact Hmax].
  - intros name q' Hg Hm. apply (Hlex name q' Hg).
    intros x Hx Hn. left. by apply Hm.
  - exact Hlex.
  - intros qa qb Hqa Hqb Hv. apply (Hlex _ qa).
    + destruct Hv as [-> | ->]; reflexivity.
    + intros [n q'] Hx Hn. left. simpl in *. rewrite Hqa.
      destruct Hv as [Hv|Hv]; rewrite Hv in Hx;
        repeat (apply elem_of_cons in Hx as [Hx|Hx]; [simplify_eq; simpl; lia|]);
        by apply elem_of_nil in Hx.
Qed.

Lemma stabilized_label_is_top_vote_witness :
  let votes := [("Alice"%string, replicate 5 (6 # 10)%Q);
                ("Bob"%string, [1%Q])] in
  let r : Detection := (box0, "Alice"%string, 300000 # 500000, true) in
  (update tracker5 [seen "Bob" 1]).2 !! 0%nat = Some r
  ∧ ∃ q, dict_get "Alice" votes = Some q
         ∧ (300000 # 500000
            == fold_right Qplus 0 q / inject_Z (Z.of_nat (length q)))%Q
         ∧ ∀ name' q', (name', q') ∈ votes →
             (length q' < length q)%nat
             ∨ (length q' = length q
                ∧ (fold_right Qplus 0 q' / inject_Z (Z.of_nat (length q'))
                   <= fold_right Qplus 0 q / inject_Z (Z.of_nat (length q)))%Q).
Proof.
  split; [vm_compute; reflexivity|].
  refine (proj1 (stabilized_label_is_top_vote tracker5 [seen "Bob" 1] 0
                   (Rematched 0)
                   (box0, "Alice"%string, 300000 # 500000, true)
                   {| bbox := box0;
                      name_votes :=
                        [("Alice"%string, replicate 5 (6 # 10)%Q);
                         ("Bob"%string, [1%Q])];
                      age := 0 |}
                   _ _ _ _ _ _)).
  - apply run_wf, init_wf.
  - vm_compute. lia.
  - vm_compute. reflexivity.
  - vm_compute. reflexivity.
  - vm_compute. reflexivity.
  - simpl. discriminate.
Defined.

(** ** A face that stays in place *)

Lemma find_best_single (thr : Q) (b : BBox) (t : Track) :
  non_degenerate b → (thr < 1)%Q → bbox t = b →
  find_best thr ∅ b [(0, t)] = Some 0.
Proof.
  intros Hb Hthr Hbox. unfold find_best. cbn [fold_left best_step fst snd].
  rewrite bool_decide_eq_false_2 by set_solver.
  rewrite Hbox.
  assert (Qgtb (_calculate_iou b b) 0 = true) as ->.
  { apply Qgtb_true. rewrite (iou_self b Hb). reflexivity. }
  assert (Qgtb (_calculate_iou b b) thr = true) as ->.
  { apply Qgtb_true. by rewrite (iou_self b Hb). }
  reflexivity.
Qed.

Lemma update_single_rematch (hs : nat) (thr : Q) (nid : Z) (t : Track)
    (b : BBox) (d : Detection) :
  non_degenerate b → (thr < 1)%Q → bbox t = b → det_bbox d = b →
  age t + 1 ≤ 10 →
  update {| tracks := [(0, t)]; next_id := nid; history_size := hs;
            iou_threshold := thr; max_age := 10 |} [d]
  = (let votes := votes_after hs d (name_votes t) in
     let st := stabilize votes (det_conf d) in
     ({| tracks := [(0, {| bbox := b; name_votes := votes; age := 0 |})];
         next_id := nid; history_size := hs;
         iou_threshold := thr; max_age := 10 |},
      [(b, st.1, st.2, negb (bool_decide (st.1 = "Unknown"%string)))])).
Proof.
  intros Hb Hthr Hbox Hd Hage.
  unfold update, update_loop. cbn [fold_left max_age tracks].
  assert (age_tracks 10 [(0, t)] = [(0, with_age (age t + 1) t)]) as ->.
  { unfold age_tracks, age_one. simpl.
    destruct (Z.ltb_spec 10 (age t + 1)); [lia | done]. }
  set (l := {| l_self := _ |}).
  destruct (loop_body_rematch l d 0) as (track & Hg & _ & Hbody).
  { simpl. rewrite Hd. by apply find_best_single. }
  simpl in Hg. injection Hg as <-. cbv zeta in Hbody. rewrite Hbody.
  simpl. by rewrite Hd.
Qed.

Lemma update_init_create (hs : nat) (thr : Q) (b : BBox) (c : Q) :
  update (init hs thr) [(b, "Alice"%string, c, true)]
  = ({| tracks := [(0, {| bbox := b;
                          name_votes := [("Alice"%string, deque_single hs c)];
                          age := 0 |})];
        next_id := 1; history_size := hs; iou_threshold := thr;
        max_age := 10 |},
     [(b, "Alice"%string, c, true)]).
Proof. reflexivity. Qed.

(** Five votes against one, run through [update] itself: one face at one
    place, recognised as "Alice" in five consecutive frames and as "Bob"
    in the sixth, is still labeled "Alice" in the sixth frame, with the
    mean of the five confidences, whatever the six confidences are. *)
Lemma alice_then_bob (b : BBox) (thr c1 c2 c3 c4 c5 cb : Q) :
  non_degenerate b → (thr < 1)%Q →
  (update
     (run (init 5 thr)
        [[(b, "Alice"%string, c1, true)]; [(b, "Alice"%string, c2, true)];
         [(b, "Alice"%string, c3, true)]; [(b, "Alice"%string, c4, true)];
         [(b, "Alice"%string, c5, true)]])
     [(b, "Bob"%string, cb, true)]).2
  = [(b, "Alice"%string, np_mean [c1; c2; c3; c4; c5], true)].
Proof.
  intros Hb Hthr. unfold run. cbn [fold_left].
  rewrite update_init_create. cbn [fst].
  do 4 (rewrite (update_single_rematch _ _ _ _ b) by (done || (simpl; lia));
        cbv zeta; cbn [fst]).
  rewrite (update_single_rematch _ _ _ _ b) by (done || (simpl; lia)).
  reflexivity.
Qed.
(** What [update] emits, detection by detection.  For every detection
    of a call there is a claimed track and an emitted tuple, the track
    carries the detection's box, and: a re-matched track emits
    (bbox, stabilized name, stabilized confidence,
     stabilized name != "Unknown") (line 86); a newly created track
    emits the detection tuple unchanged (line 98), which is the
    stabilized output as well when the tuple is
    (bbox, name, confidence, True) with a non-empty name other than
    "Unknown", or (bbox, "Unknown", confidence, False). *)
Lemma update_emits (self : FaceTracker) (detections : list Detection)
    (i : nat) (d : Detection) :
  tracker_wf self →
  detections !! i = Some d →
  ∃ c r t,
    l_claims (update_loop self detections) !! i = Some c
    ∧ (update self detections).2 !! i = Some r
    ∧ dict_get (claim_id c) (tracks (update self detections).1) = Some t
    ∧ bbox t = det_bbox d
    ∧ match c with
      | Rematched _ => stabilized_output t d r
      | Created _ =>
          r = d
          ∧ ((0 < history_size self)%nat → pipeline_detection d →
             stabilized_output t d r)
      end.
Proof.
  intros Hwf Hd.
  destruct (update_loop_lengths self detections) as (Hlr & Hlc & _).
  pose proof (lookup_lt_Some _ _ _ Hd) as Hi.
  destruct (lookup_lt_is_Some_2 (l_claims (update_loop self detections)) i)
    as [c Hc]; [lia|].
  destruct (lookup_lt_is_Some_2 (l_results (update_loop self detections)) i)
    as [r Hr]; [lia|].
  destruct (update_loop_emitted self detections i c d r Hwf Hc Hr Hd)
    as (_ & t & Ht & Hbox & Hem).
  exists c, r, t. split_and!; [done..|].
  destruct c as [k|k].
  - cbv zeta in Hem. subst r. unfold stabilized_output, det_name, det_conf,
      det_known, det_bbox. simpl. split_and!; reflexivity.
  - destruct Hem as [-> Hvotes]. split; [done|].
    intros Hpos Hpipe. unfold stabilized_output. rewrite Hvotes.
    unfold votes_created, truthy.
    destruct Hpipe as [(Hk & Hn & Hu)|(Hk & Hn)]; rewrite Hk.
    + rewrite bool_decide_eq_false_2 by done. simpl.
      rewrite deque_single_pos by done. unfold stabilize. simpl.
      split_and!; [done.. | | ].
      * symmetry. apply np_mean_single.
      * by rewrite bool_decide_eq_false_2.
    + rewrite andb_false_r, stabilize_empty. simpl.
      split_and!; [done.. | by rewrite bool_decide_eq_true_2].
Qed.

Lemma update_emits_witness :
  ∃ c r t,
    l_claims (update_loop tracker5 [seen "Bob" 1]) !! 0%nat = Some c
    ∧ (update tracker5 [seen "Bob" 1]).2 !! 0%nat = Some r
    ∧ dict_get (claim_id c) (tracks (update tracker5 [seen "Bob" 1]).1) = Some t
    ∧ bbox t = det_bbox (seen "Bob" 1)
    ∧ match c with
      | Rematched _ => stabilized_output t (seen "Bob" 1) r
      | Created _ =>
          r = seen "Bob" 1
          ∧ ((0 < history_size tracker5)%nat →
             pipeline_detection (seen "Bob" 1) →
             stabilized_output t (seen "Bob" 1) r)
      end.
Proof.
  apply (update_emits tracker5 [seen "Bob" 1] 0 (seen "Bob" 1)
           (run_wf _ _ (init_wf _ _))).
  reflexivity.
Defined.

End TrackerSpec.

(* ===================================================================== *)
(** * Properties of [FaceMatcher.match_face] *)
(* ===================================================================== *)

Module MatcherFacts.
Import Gallery Matcher.
Local Open Scope Q_scope.

(** ** The flattened gallery *)

Lemma get_all_encodings_aligned (db : list (string * Person)) i e n :
  flat_map (λ kv, encodings kv.2) db !! i = Some e →
  flat_map (λ kv, map (λ _, kv.1) (encodings kv.2)) db !! i = Some n →
  ∃ p, (n, p) ∈ db ∧ e ∈ encodings p.
Proof.
  revert i. induction db as [|[k p] r IH]; intros i; simpl.
  { by rewrite lookup_nil. }
  intros [He|[Hel He]]%lookup_app_Some [Hn|[Hnl Hn]]%lookup_app_Some.
  - apply list_lookup_fmap_Some in Hn as (? & -> & _).
    exists p. split; [left | by eapply list_elem_of_lookup_2].
  - apply lookup_lt_Some in He. rewrite length_map in Hnl. lia.
  - apply lookup_lt_Some in Hn. rewrite length_map in Hn. lia.
  - rewrite length_map in Hn.
    destruct (IH _ He Hn) as (p' & Hin & He').
    exists p'. split; [by right | done].
Qed.

Lemma get_all_encodings_lengths (s : Store) :
  length (get_all_encodings s).1 = length (get_all_encodings s).2.
Proof.
  unfold get_all_encodings. simpl.
  induction (database s) as [|[k p] r IH]; simpl; [done|].
  by rewrite !length_app, length_map, IH.
Qed.

(** ** The chi-square distance *)

Lemma epsilon_pos : 0 < epsilon.
Proof. reflexivity. Qed.

Lemma Qsquare_nonneg x : 0 <= x ^ 2.
Proof. simpl. nra. Qed.

Lemma chi_term_nonneg a b : 0 <= a → 0 <= b → 0 <= chi_term a b.
Proof.
  intros Ha Hb. unfold chi_term, Qdiv.
  apply Qmult_le_0_compat.
  - apply Qsquare_nonneg.
  - apply Qinv_le_0_compat.
    pose proof epsilon_pos. lra.
Qed.

Lemma chi_term_diag a : chi_term a a == 0.
Proof.
  unfold chi_term, Qdiv.
  assert ((a - a) ^ 2 == 0) as -> by (simpl; ring).
  apply Qmult_0_l.
Qed.

Lemma distance_same_length u v :
  length u = length v →
  _calculate_distance u v = Some ((1 # 2) * Qsum (zip_with chi_term u v)).
Proof.
  intros Hlen. unfold _calculate_distance, np_broadcast.
  by rewrite decide_True.
Qed.

Lemma zip_with_elem {A B C} (f : A → B → C) (u : list A) (v : list B) z :
  z ∈ zip_with f u v → ∃ x y, x ∈ u ∧ y ∈ v ∧ z = f x y.
Proof.
  revert v. induction u as [|x u IH]; intros [|y v]; simpl;
    try (by intros ?%elem_of_nil).
  intros [->|Hz]%elem_of_cons.
  - exists x, y. split_and!; [left | left | done].
  - destruct (IH _ Hz) as (x' & y' & ? & ? & ?).
    exists x', y'. split_and!; [by right | by right | done].
Qed.

Lemma zip_with_diag_elem {A C} (f : A → A → C) (u : list A) z :
  z ∈ zip_with f u u → ∃ x, x ∈ u ∧ z = f x x.
Proof.
  induction u as [|x u IH]; simpl; [by intros ?%elem_of_nil|].
  intros [->|Hz]%elem_of_cons.
  - exists x. split; [left | done].
  - destruct (IH Hz) as (x' & ? & ?). exists x'. split; [by right | done].
Qed.

Lemma distance_nonneg u v d :
  nonneg u → nonneg v → length u = length v →
  _calculate_distance u v = Some d → 0 <= d.
Proof.
  intros Hu Hv Hlen. rewrite distance_same_length by done. intros [= <-].
  apply Qmult_le_0_compat; [done|].
  apply Qsum_nonneg. intros z (x & y & Hx & Hy & ->)%zip_with_elem.
  apply chi_term_nonneg; auto.
Qed.

Lemma distance_self u : ∃ d, _calculate_distance u u = Some d ∧ d == 0.
Proof.
  rewrite distance_same_length by done. eexists. split; [done|].
  rewrite Qsum_zero; [ring|].
  intros z (x & _ & ->)%zip_with_diag_elem. apply chi_term_diag.
Qed.

Lemma distances_Forall2 enc known ds :
  _calculate_distances enc known = Some ds →
  Forall2 (λ e d, _calculate_distance enc e = Some d) known ds.
Proof.
  revert ds. induction known as [|e r IH]; intros ds; simpl.
  - intros [= <-]. constructor.
  - destruct (_calculate_distance enc e) as [d|] eqn:Hd; [|done].
    destruct (_calculate_distances enc r) as [ds'|]; [|done].
    intros [= <-]. constructor; auto.
Qed.

Lemma distances_is_Some enc known :
  (∀ e, e ∈ known → length e = length enc) →
  is_Some (_calculate_distances enc known).
Proof.
  induction known as [|e r IH]; intros Hlen; simpl; [eauto|].
  rewrite distance_same_length by (symmetry; apply Hlen; left).
  destruct IH as [ds ->]; [|eauto].
  intros e' He'. apply Hlen. by right.
Qed.

(** ** The clamp *)

Lemma clamp01_range c : 0 <= clamp01 c ∧ clamp01 c <= 1.
Proof.
  unfold clamp01. split.
  - apply Q.le_max_l.
  - apply Q.max_lub; [done | apply Q.le_min_l].
Qed.

Lemma clamp01_inside c : 0 <= c → c <= 1 → clamp01 c == c.
Proof.
  intros H0 H1. unfold clamp01.
  rewrite (Q.min_r 1 c) by done. by apply Q.max_r.
Qed.

Lemma clamp01_of_zero_distance d : d == 0 → clamp01 (1 - d / 2) == 1.
Proof.
  intros Hd. rewrite <- (clamp01_inside 1) at 2 by done.
  unfold clamp01. rewrite Hd. reflexivity.
Qed.
End MatcherFacts.

Module MatcherSpec.
Import Gallery Matcher MatcherFacts Fixtures.
Local Open Scope Q_scope.



(** C5. With zero samples in the gallery, [match_face] returns
    (None, 0.0) for every query, and raises nothing. *)
Theorem match_face_empty_gallery (tolerance : Q) (db : Store)
    (encoding : Encoding) :
  (get_all_encodings db).1 = [] →
  match_face tolerance db encoding = Some (None, 0).
Proof.
  unfold match_face. destruct (get_all_encodings db) as [encs names].
  simpl. by intros ->.
Qed.

Lemma match_face_empty_gallery_witness :
  match_face (6 # 10) empty_store [1 # 4; 3 # 4] = Some (None, 0)
  ∧ match_face (6 # 10)
      {| database := [("Alice"%string, {| encodings := []; metadata := 0%nat |})];
         heap := ∅ |} [] = Some (None, 0).
Proof.
  split.
  - apply (match_face_empty_gallery (6 # 10) empty_store [1 # 4; 3 # 4]).
    reflexivity.
  - apply (match_face_empty_gallery (6 # 10)
             {| database :=
                  [("Alice"%string, {| encodings := []; metadata := 0%nat |})];
                heap := ∅ |} []).
    reflexivity.
Defined.
End MatcherSpec.

(* ===================================================================== *)
(** * Properties of [FaceDatabase.add_person] *)
(* ===================================================================== *)

Module GalleryFacts.
Import Gallery.

Lemma dict_set_absent {K V} `{EqDecision K} (k : K) (v : V) d :
  dict_get k d = None → dict_set k v d = d ++ [(k, v)].
Proof.
  induction d as [|[k' v'] r IH]; simpl; [done|].
  destruct (decide (k = k')); [done|]. intros Hg. by rewrite IH.
Qed.

Lemma dict_set_same_image {K V A} `{EqDecision K} (f : V → A)
    (k : K) (v v' : V) d :
  dict_get k d = Some v → f v' = f v →
  map (λ kv, f kv.2) (dict_set k v' d) = map (λ kv, f kv.2) d.
Proof.
  intros Hg Hf. induction d as [|[k0 v0] r IH]; simpl in *; [done|].
  destruct (decide (k = k0)) as [->|Hne]; simpl.
  - injection Hg as ->. by rewrite Hf.
  - by rewrite IH.
Qed.

Lemma deref_meta_set_ne l l' k v h :
  l ≠ l' → deref (meta_set l k v h) l' = deref h l'.
Proof. intros Hne. unfold deref, meta_set. by rewrite lookup_insert_ne. Qed.

Lemma deref_meta_set_eq l k v h :
  deref (meta_set l k v h) l = dict_set k v (deref h l).
Proof. unfold deref at 1, meta_set. by rewrite lookup_insert_eq. Qed.

Lemma dom_meta_set l k v (h : gmap loc Meta) :
  dom (meta_set l k v h) = {[ l ]} ∪ dom h.
Proof. unfold meta_set. apply dom_insert_L. Qed.

(** Distinct identities of a well-formed store have distinct metadata
    dictionaries. *)
Lemma store_wf_unshared s n1 n2 p1 p2 :
  store_wf s →
  dict_get n1 (database s) = Some p1 →
  dict_get n2 (database s) = Some p2 →
  n1 ≠ n2 → metadata p1 ≠ metadata p2.
Proof.
  intros (_ & Hnd & _) H1%dict_get_Some_elem H2%dict_get_Some_elem Hne Heq.
  apply list_elem_of_lookup_1 in H1 as [i Hi], H2 as [j Hj].
  assert (i = j) as ->.
  { eapply (NoDup_lookup _ _ _ (metadata p1) Hnd).
    - by rewrite list_lookup_fmap, Hi.
    - by rewrite list_lookup_fmap, Hj, Heq. }
  congruence.
Qed.

(** The two shapes of a call without a caller-supplied dictionary. *)
Lemma add_person_known name encoding metadata_arg added updated s p :
  dict_get name (database s) = Some p →
  add_person name encoding metadata_arg added updated s =
  ({| database :=
        dict_set name
          {| encodings := encodings p ++ [encoding]; metadata := metadata p |}
          (database s);
      heap := meta_set (metadata p) "last_updated" updated (heap s) |},
   true).
Proof.
  intros Hg. unfold add_person.
  assert (dict_mem name (database s) = true) as ->
    by (apply dict_mem_true; eauto).
  by rewrite Hg.
Qed.

Lemma add_person_new name encoding added updated s :
  dict_get name (database s) = None →
  add_person name encoding None added updated s =
  (let l := fresh (dom (heap s)) in
   {| database :=
        dict_set name {| encodings := [encoding]; metadata := l |}
          (dict_set name {| encodings := []; metadata := l |} (database s));
      heap :=
        meta_set l "last_updated" updated
          (meta_set l "added_date" added (<[ l := [] ]> (heap s))) |},
   true).
Proof.
  intros Hg. unfold add_person.
  assert (dict_mem name (database s) = false) as ->
    by (by apply dict_mem_false).
  unfold metadata_or_new. cbn [database heap].
  by rewrite dict_get_set_eq.
Qed.

Lemma add_person_never_shrinks name encoding metadata_arg added updated s n :
  length (samples_of n s)
  ≤ length (samples_of n (add_person name encoding metadata_arg added updated s).1).
Proof.
  unfold samples_of.
  destruct (dict_get name (database s)) as [p|] eqn:Hg.
  - rewrite (add_person_known _ _ _ _ _ _ _ Hg). simpl.
    destruct (decide (name = n)) as [->|Hne].
    + rewrite dict_get_set_eq, Hg. simpl. rewrite length_app. lia.
    + by rewrite dict_get_set_ne.
  - unfold add_person.
    assert (dict_mem name (database s) = false) as ->
      by (by apply dict_mem_false).
    destruct (metadata_or_new metadata_arg (heap s)) as [l h].
    cbn [database heap]. rewrite dict_get_set_eq. simpl.
    destruct (decide (name = n)) as [->|Hne].
    + rewrite dict_get_set_eq, Hg. simpl. lia.
    + by rewrite !dict_get_set_ne.
Qed.

Lemma empty_store_wf : store_wf empty_store.
Proof.
  split_and!; simpl.
  - apply NoDup_nil_2.
  - apply NoDup_nil_2.
  - done.
Qed.

Lemma add_person_wf name encoding added updated s :
  store_wf s →
  store_wf (add_person name encoding None added updated s).1.
Proof.
  intros (Hwf & Hnd & Hdom).
  destruct (dict_get name (database s)) as [p|] eqn:Hg.
  - rewrite (add_person_known _ _ _ _ _ _ _ Hg). simpl.
    split_and!; simpl.
    + by apply dict_wf_set.
    + by rewrite (dict_set_same_image metadata _ p).
    + intros n q. rewrite dom_meta_set.
      destruct (decide (name = n)) as [->|Hne].
      * rewrite dict_get_set_eq. intros [= <-]. simpl. set_solver.
      * rewrite dict_get_set_ne by done. intros ?%Hdom. set_solver.
  - rewrite (add_person_new _ _ _ _ _ Hg). cbv zeta. simpl.
    pose proof (is_fresh (dom (heap s))) as Hfresh.
    set (l := fresh (dom (heap s))) in *.
    split_and!; simpl.
    + by apply dict_wf_set, dict_wf_set.
    + rewrite (dict_set_same_image metadata _
                 {| encodings := []; metadata := l |});
        [| apply dict_get_set_eq | done].
      rewrite dict_set_absent by done. rewrite map_app. simpl.
      apply NoDup_app. split_and!; [done | | apply NoDup_singleton].
      intros x Hx ->%list_elem_of_singleton. apply Hfresh.
      apply list_elem_of_fmap in Hx as ([n q] & -> & Hin). simpl.
      apply (dict_elem_get _ _ _ Hwf) in Hin. eauto.
    + intros n q. rewrite !dom_meta_set, dom_insert_L.
      destruct (decide (name = n)) as [->|Hne].
      * rewrite dict_get_set_eq. intros [= <-]. simpl. set_solver.
      * rewrite !dict_get_set_ne by done. intros ?%Hdom. set_solver.
Qed.

Lemma remove_person_wf name s :
  store_wf s → store_wf (remove_person name s).1.
Proof.
  intros (Hwf & Hnd & Hdom). unfold remove_person.
  destruct (dict_mem name (database s)); [|done].
  split_and!; simpl.
  - by apply dict_wf_del.
  - clear Hwf Hdom. induction (database s) as [|[k v] r IH]; simpl; [done|].
    simpl in Hnd. apply NoDup_cons in Hnd as [Hv Hr].
    destruct (decide (name = k)); [auto|].
    simpl. apply NoDup_cons. split; [|auto].
    intros Hin. apply Hv.
    apply list_elem_of_fmap in Hin as ([k' v'] & Heq & Hin).
    apply list_elem_of_fmap. exists (k', v'). split; [done|].
    clear -Hin. induction r as [|[k0 v0] r IH]; simpl in *.
    + by apply elem_of_nil in Hin.
    + destruct (decide (name = k0)); [right; auto|].
      apply elem_of_cons in Hin as [->|Hin]; [left | right; auto].
  - intros n p. destruct (decide (name = n)) as [->|Hne].
    + by rewrite dict_get_del_eq.
    + rewrite dict_get_del_ne by done. apply Hdom.
Qed.
End GalleryFacts.

Module GallerySpec.
Import Gallery GalleryFacts Fixtures.

(** C9. On a gallery in which every identity owns its metadata
    dictionary, [add_person(name, encoding)] returns [True] and leaves
    [name] with its previous sample list (empty when [name] was absent)
    followed by [encoding], and with [last_updated] set to the time of
    the call; the entry, the samples and the metadata of every other
    identity are unchanged; no identity's sample list gets shorter,
    whatever the optional [metadata] argument is; and the gallery stays
    well formed. *)
Theorem add_person_appends (s : Store) (name : string)
    (encoding : Encoding) (added updated : string) :
  store_wf s →
  (add_person name encoding None added updated s).2 = true
  ∧ samples_of name (add_person name encoding None added updated s).1
    = samples_of name s ++ [encoding]
  ∧ (∃ m, metadata_of name (add_person name encoding None added updated s).1
          = Some m
          ∧ dict_get "last_updated"%string m = Some updated)
  ∧ (∀ other, other ≠ name →
       dict_get other (database (add_person name encoding None added updated s).1)
       = dict_get other (database s)
       ∧ samples_of other (add_person name encoding None added updated s).1
         = samples_of other s
       ∧ metadata_of other (add_person name encoding None added updated s).1
         = metadata_of other s)
  ∧ (∀ metadata_arg n,
       length (samples_of n s)
       ≤ length (samples_of n
                   (add_person name encoding metadata_arg added updated s).1))
  ∧ store_wf (add_person name encoding None added updated s).1.
Proof.
  intros Hwf.
  pose proof (add_person_wf name encoding added updated s Hwf) as Hwf'.
  pose proof (λ m n, add_person_never_shrinks name encoding m added updated s n)
    as Hshrink.
  destruct Hwf as (Hkeys & Hnd & Hdom).
  assert (store_wf s) as Hwf by done.
  unfold samples_of, metadata_of in *.
  destruct (dict_get name (database s)) as [p|] eqn:Hg.
  - rewrite (add_person_known _ _ _ _ _ _ _ Hg) in *. simpl in *.
    split_and!; [done | | | | done | done].
    + by rewrite dict_get_set_eq.
    + rewrite dict_get_set_eq. simpl. eexists. split; [done|].
      rewrite deref_meta_set_eq. apply dict_get_set_eq.
    + intros other Hne. rewrite dict_get_set_ne by done.
      split_and!; [done..|].
      destruct (dict_get other (database s)) as [q|] eqn:Hq; [|done].
      rewrite deref_meta_set_ne; [done|].
      by eapply (store_wf_unshared s name other).
  - rewrite (add_person_new _ _ _ _ _ Hg) in *. cbv zeta in *. simpl in *.
    pose proof (is_fresh (dom (heap s))) as Hfresh.
    set (l := fresh (dom (heap s))) in *.
    split_and!; [done | | | | done | done].
    + by rewrite dict_get_set_eq.
    + rewrite dict_get_set_eq. simpl. eexists. split; [done|].
      rewrite deref_meta_set_eq. apply dict_get_set_eq.
    + intros other Hne. rewrite !dict_get_set_ne by done.
      split_and!; [done..|].
      destruct (dict_get other (database s)) as [q|] eqn:Hq; [|done].
      assert (l ≠ metadata q) as Hl.
      { intros Heq. apply Hfresh. rewrite Heq. by eapply Hdom. }
      rewrite !deref_meta_set_ne by done.
      unfold deref. by rewrite lookup_insert_ne.
Qed.

Lemma add_person_appends_witness :
  samples_of "Alice" (add_person "Alice" [1 # 3; 2 # 3]%Q None "t4" "t5" two_people).1
  = samples_of "Alice" two_people ++ [[1 # 3; 2 # 3]%Q]
  ∧ samples_of "Carol" (add_person "Carol" [1 # 3; 2 # 3]%Q None "t4" "t5" two_people).1
    = samples_of "Carol" two_people ++ [[1 # 3; 2 # 3]%Q].
Proof.
  assert (store_wf two_people) as Hwf.
  { apply add_person_wf, add_person_wf, empty_store_wf. }
  split.
  - apply (add_person_appends two_people "Alice" [1 # 3; 2 # 3]%Q "t4" "t5" Hwf).
  - apply (add_person_appends two_people "Carol" [1 # 3; 2 # 3]%Q "t4" "t5" Hwf).
Defined.

(** Why the gallery must own its metadata dictionaries: when a caller
    hands the same non-empty dictionary to two registrations through the
    optional [metadata] argument, the second call rewrites the metadata
    of the first identity. *)
Example shared_metadata_is_aliased :
  let s1 := (add_person "Alice" [1 # 2]%Q (Some 7) "t0" "t1" caller_heap).1 in
  let s2 := (add_person "Bob" [1 # 4]%Q (Some 7) "t2" "t3" s1).1 in
  metadata_of "Alice" s1
  = Some [("source", "camera"); ("added_date", "t0"); ("last_updated", "t1")]%string
  ∧ metadata_of "Alice" s2
    = Some [("source", "camera"); ("added_date", "t2"); ("last_updated", "t3")]%string.
Proof. split; vm_compute; reflexivity. Qed.
End GallerySpec.
(* ===================================================================== *)
(** * Properties of [FaceDatabase._load_database] and [save_database] *)
(* ===================================================================== *)

Module PersistFacts.
Import Gallery Persist.

Ltac unfold_io :=
  unfold path_exists, read_file, open_write, write_file, mkdir_exist_ok,
    add_entry, try_except, get_fs, set_fs, log_op, print, now, raise,
    ends, mbind, io_bind, bind, mret, io_ret, ret in *.

(** ** Worlds only move forward *)

Lemma later_refl w : later w w.
Proof.
  exists [], []. rewrite !app_nil_r. split_and!; [done..|].
  intros src dst Hin. by apply elem_of_nil in Hin.
Qed.

Lemma later_trans w1 w2 w3 : later w1 w2 → later w2 w3 → later w1 w3.
Proof.
  intros (o1 & s1 & Ht1 & Hh1 & Hn1) (o2 & s2 & Ht2 & Hh2 & Hn2).
  exists (o1 ++ o2), (s1 ++ s2). split_and!.
  - by rewrite Ht2, Ht1, app_assoc.
  - by rewrite Hh2, Hh1, app_assoc.
  - intros src dst [?|?]%elem_of_app; [by eapply Hn1 | by eapply Hn2].
Qed.

Lemma steady_ret {A} (a : A) : steady (ret a).
Proof. intros w. split; [apply later_refl | done]. Qed.

Lemma steady_mret {A} (a : A) : steady (mret a : IO A).
Proof. intros w. split; [apply later_refl | done]. Qed.

Lemma steady_raise {A} e : steady (raise e : IO A).
Proof. intros w. split; [apply later_refl | done]. Qed.

Lemma steady_bind {A B} (m : IO A) (k : A → IO B) :
  steady m → (∀ a, steady (k a)) → steady (m ≫= k).
Proof.
  intros Hm Hk w. unfold mbind, io_bind, bind.
  destruct (Hm w) as [Hl Hne].
  destruct (m w) as [[a|e|e] w1]; simpl in *; [|done|by destruct (Hne e)].
  destruct (Hk a w1) as [Hl' Hne']. split; [|done].
  eapply later_trans; [exact Hl | exact Hl'].
Qed.

Lemma steady_try {A} (m : IO A) (h : string → IO A) :
  steady m → (∀ e, steady (h e)) → steady (try_except m h).
Proof.
  intros Hm Hh w. unfold try_except.
  destruct (Hm w) as [Hl Hne].
  destruct (m w) as [[a|e|e] w1]; simpl in *; [done| |by destruct (Hne e)].
  destruct (Hh e w1) as [Hl' Hne']. split; [|done].
  eapply later_trans; [exact Hl | exact Hl'].
Qed.

Lemma steady_log_op op :
  (∀ src dst, op ≠ OpRename src dst) → steady (log_op op).
Proof.
  intros Hop w. split; [|done]. exists [op], []. simpl. rewrite app_nil_r.
  split_and!; [done..|].
  intros src dst Heq%list_elem_of_singleton. by eapply Hop.
Qed.

Lemma steady_set_fs f : steady (set_fs f).
Proof.
  intros w. split; [|done]. exists [], [f]. simpl. rewrite app_nil_r.
  split_and!; [done..|].
  intros src dst Hin. by apply elem_of_nil in Hin.
Qed.

Lemma steady_get_fs : steady get_fs.
Proof. intros w. split; [apply later_refl | done]. Qed.

Lemma steady_print msg : steady (print msg).
Proof.
  intros w. split; [|done].
  exists [], []. simpl. rewrite !app_nil_r. split_and!; [done..|].
  intros src dst Hin. by apply elem_of_nil in Hin.
Qed.

Lemma steady_now : steady now.
Proof. intros w. split; [apply later_refl | done]. Qed.

Create HintDb steady.

#[local] Hint Resolve steady_ret steady_mret steady_raise steady_set_fs
  steady_get_fs steady_print steady_now : steady.

Ltac steady_step :=
  first
    [ apply steady_bind; [|intros ?]
    | apply steady_try; [|intros ?]
    | apply steady_log_op; intros ? ?; discriminate
    | solve [auto with steady]
    | match goal with
      | |- steady (match ?x with _ => _ end) => destruct x
      | |- steady (if ?x then _ else _) => destruct x
      end ].

Lemma steady_add_entry parent p node : steady (add_entry parent p node).
Proof. unfold add_entry. repeat steady_step. Qed.

#[local] Hint Resolve steady_add_entry : steady.

Lemma steady_open_write parent p : steady (open_write parent p).
Proof. unfold open_write. repeat steady_step. Qed.

Lemma steady_write_file p data : steady (write_file p data).
Proof. unfold write_file. repeat steady_step. Qed.

Lemma steady_mkdir parent p : steady (mkdir_exist_ok parent p).
Proof. unfold mkdir_exist_ok. repeat steady_step. Qed.

#[local] Hint Resolve steady_open_write steady_write_file steady_mkdir
  : steady.

(** ** The file operations, case by case *)

Lemma can_open_write_opens parent f p :
  can_open_write f p = false → opens parent f p = false.
Proof.
  unfold can_open_write, opens. by destruct (f !! p) as [[]|].
Qed.

Lemma open_write_ok parent p w :
  opens parent (fs w) p = true →
  ∃ w', open_write parent p w = (Returned tt, w')
        ∧ fs w' = <[ p := written (fs w) p "" ]> (fs w)
        ∧ stdout w' = stdout w ∧ clock w' = clock w.
Proof.
  unfold opens, can_add, written. unfold_io. simpl.
  destruct (fs w !! p) as [[r [] c|d|e]|]; intros ?; try done.
  - eexists; split_and!; reflexivity.
  - simpl. destruct (fs w !! parent p) as [[r wr c|[]|e]|]; try done.
    eexists; split_and!; reflexivity.
Qed.

Lemma open_write_ok_logs parent p w :
  opens parent (fs w) p = true →
  trace (open_write parent p w).2 = trace w ++ [OpOpenWrite p]
  ∧ history (open_write parent p w).2
    = history w ++ [<[ p := written (fs w) p "" ]> (fs w)].
Proof.
  unfold opens, can_add, written. unfold_io. simpl.
  destruct (fs w !! p) as [[r [] c|d|e]|]; intros ?; try done.
  simpl. destruct (fs w !! parent p) as [[r wr c|[]|e]|]; done.
Qed.

Lemma open_write_fail parent p w :
  opens parent (fs w) p = false →
  ∃ e w', open_write parent p w = (Raised e, w')
          ∧ fs w' = fs w ∧ stdout w' = stdout w ∧ clock w' = clock w
          ∧ trace w' = trace w ++ [OpOpenWrite p]
          ∧ history w' = history w.
Proof.
  unfold opens, can_add. unfold_io. simpl.
  destruct (fs w !! p) as [[r [] c|d|e]|]; intros ?; try done;
    try (eexists _, _; split_and!; reflexivity).
  simpl. destruct (fs w !! parent p) as [[r wr c|[]|e]|]; try done;
    eexists _, _; split_and!; reflexivity.
Qed.

Lemma open_write_trace parent p w :
  trace (open_write parent p w).2 = trace w ++ [OpOpenWrite p].
Proof.
  destruct (opens parent (fs w) p) eqn:Hop.
  - by apply open_write_ok_logs.
  - by destruct (open_write_fail parent p w Hop)
      as (e & w' & -> & _ & _ & _ & ? & _).
Qed.

Lemma write_file_ok p data w r c :
  fs w !! p = Some (RegFile r true c) →
  ∃ w', write_file p data w = (Returned tt, w')
        ∧ fs w' = <[ p := RegFile r true (c +:+ data) ]> (fs w)
        ∧ stdout w' = stdout w ∧ clock w' = clock w.
Proof.
  intros Hf. unfold_io. simpl. rewrite Hf.
  eexists; split_and!; reflexivity.
Qed.

Lemma write_file_ok_logs p data w r c :
  fs w !! p = Some (RegFile r true c) →
  trace (write_file p data w).2 = trace w ++ [OpWrite p data]
  ∧ history (write_file p data w).2
    = history w ++ [<[ p := RegFile r true (c +:+ data) ]> (fs w)].
Proof. intros Hf. unfold_io. simpl. by rewrite Hf. Qed.

(** Opening [p] for writing and writing [data]. *)
Lemma write_whole_ok parent p data w :
  opens parent (fs w) p = true →
  ∃ w', (open_write parent p;; write_file p data) w = (Returned tt, w')
        ∧ fs w' = <[ p := written (fs w) p data ]> (fs w)
        ∧ stdout w' = stdout w ∧ clock w' = clock w.
Proof.
  intros Hcan.
  destruct (open_write_ok parent p w Hcan) as (w1 & Hrun & Hfs & Hout & Hclk).
  unfold mbind at 1, io_bind at 1, bind at 1. rewrite Hrun.
  destruct (write_file_ok p data w1
              (match fs w !! p with Some (RegFile r _ _) => r | _ => true end)
              "") as (w2 & Hrun2 & Hfs2 & Hout2 & Hclk2).
  { rewrite Hfs. apply lookup_insert_eq. }
  exists w2. split; [exact Hrun2|]. split_and!.
  - rewrite Hfs2, Hfs. unfold written. simpl. apply insert_insert_eq.
  - congruence.
  - congruence.
Qed.

Lemma write_whole_fail parent p data w :
  opens parent (fs w) p = false →
  ∃ e w', (open_write parent p;; write_file p data) w = (Raised e, w')
          ∧ fs w' = fs w ∧ stdout w' = stdout w ∧ clock w' = clock w.
Proof.
  intros Hcan.
  destruct (open_write_fail parent p w Hcan)
    as (e & w1 & Hrun & Hfs & Hout & Hclk & _).
  unfold mbind at 1, io_bind at 1, bind at 1. rewrite Hrun. eauto 10.
Qed.

Lemma mkdir_ok parent p w :
  makes_dir parent (fs w) p = true →
  ∃ w', mkdir_exist_ok parent p w = (Returned tt, w')
        ∧ fs w' = <[ p := made (fs w) p ]> (fs w)
        ∧ stdout w' = stdout w ∧ clock w' = clock w.
Proof.
  unfold makes_dir, can_add, made. unfold_io. simpl.
  destruct (fs w !! p) as [[r wr c|d|e]|] eqn:Hf; intros ?; try done.
  - eexists; split_and!; try reflexivity. simpl. by rewrite insert_id.
  - simpl. destruct (fs w !! parent p) as [[r wr c|[]|e]|]; try done.
    eexists; split_and!; reflexivity.
Qed.

Lemma mkdir_fail parent p w :
  makes_dir parent (fs w) p = false →
  ∃ e w', mkdir_exist_ok parent p w = (Raised e, w')
          ∧ fs w' = fs w ∧ stdout w' = stdout w ∧ clock w' = clock w.
Proof.
  unfold makes_dir, can_add. unfold_io. simpl.
  destruct (fs w !! p) as [[r wr c|d|e]|]; intros ?; try done;
    try (eexists _, _; split_and!; reflexivity).
  simpl. destruct (fs w !! parent p) as [[r wr c|[]|e]|]; try done;
    eexists _, _; split_and!; reflexivity.
Qed.

Lemma can_open_write_insert_ne f p q node :
  p ≠ q → can_open_write (<[ q := node ]> f) p = can_open_write f p.
Proof. intros Hne. unfold can_open_write. by rewrite lookup_insert_ne. Qed.

Lemma opens_insert_ne parent f p q node :
  p ≠ q → parent p ≠ q →
  opens parent (<[ q := node ]> f) p = opens parent f p.
Proof.
  intros Hne Hpar. unfold opens, can_add. by rewrite !lookup_insert_ne.
Qed.

Lemma makes_dir_insert_ne parent f p q node :
  p ≠ q → parent p ≠ q →
  makes_dir parent (<[ q := node ]> f) p = makes_dir parent f p.
Proof.
  intros Hne Hpar. unfold makes_dir, can_add. by rewrite !lookup_insert_ne.
Qed.

Lemma opens_written parent f p data data' :
  opens parent (<[ p := written f p data ]> f) p = true
  ∧ written (<[ p := written f p data ]> f) p data' = written f p data'.
Proof. unfold opens, written. rewrite lookup_insert_eq. done. Qed.

Lemma bind_run {A B} (m : IO A) (k : A → IO B) (w : World) :
  (m ≫= k) w
  = match m w with
    | (Returned a, w') => k a w'
    | (Raised e, w') => (Raised e, w')
    | (Exited e, w') => (Exited e, w')
    end.
Proof. reflexivity. Qed.

Section WithSerializers.
Variable pickle_dumps : Store → string.
Variable pickle_loads : string → outcome pyobject.
Variable json_dumps : list (string * (nat * string * string)) → string.
Variable with_suffix : string → string → string.
Variable parent : string → string.
Variable joinpath : string → string → string.

Lemma steady_save_metadata self :
  steady (_save_metadata json_dumps with_suffix parent self).
Proof. unfold _save_metadata. repeat steady_step. Qed.

Lemma steady_create_backup self :
  steady (_create_backup pickle_dumps parent joinpath self).
Proof. unfold _create_backup. repeat steady_step. Qed.

Lemma steady_after_write self :
  steady (_save_metadata json_dumps with_suffix parent self;;
          (if backup_enabled self
           then _create_backup pickle_dumps parent joinpath self
           else ret tt);;
          (ret true : IO bool)).
Proof.
  repeat first [ apply steady_save_metadata | apply steady_create_backup
               | steady_step ].
Qed.

Lemma steady_save_rest self :
  steady (save_rest pickle_dumps json_dumps with_suffix parent joinpath self).
Proof.
  unfold save_rest.
  repeat first [ apply steady_save_metadata | apply steady_create_backup
               | steady_step ].
Qed.

(** [save_database] runs from the world its first [open] leaves, and
    always returns. *)
Lemma save_database_after_open self w :
  ∃ b w',
    save_database pickle_dumps json_dumps with_suffix parent joinpath self w
    = (Returned b, w')
    ∧ later (open_write parent (db_path self) w).2 w'.
Proof.
  unfold save_database.
  change (open_write parent (db_path self);; write_file _ _;; _)
    with (open_write parent (db_path self) ≫=
          λ _, save_rest pickle_dumps json_dumps with_suffix parent
                 joinpath self).
  unfold try_except. unfold mbind at 1, io_bind at 1, bind at 1.
  pose proof (steady_open_write parent (db_path self) w) as [_ Hne].
  destruct (open_write parent (db_path self) w) as [[[]|e|e] w1]; simpl.
  - pose proof (steady_save_rest self w1) as [Hrest Hne'].
    destruct (save_rest _ _ _ _ _ self w1) as [[b|e|e] w2]; simpl in *.
    + eauto.
    + eexists _, _. split; [reflexivity|]. simpl.
      eapply later_trans; [exact Hrest|]. apply steady_print.
    + by destruct (Hne' e).
  - eexists _, _. split; [reflexivity|]. simpl. apply steady_print.
  - by destruct (Hne e).
Qed.

(** Once the gallery file is open, [save_database] runs from the world
    that the write of the pickled gallery leaves. *)
Lemma save_database_after_write self w :
  opens parent (fs w) (db_path self) = true →
  later
    (write_file (db_path self) (pickle_dumps (store self))
       (open_write parent (db_path self) w).2).2
    (save_database pickle_dumps json_dumps with_suffix parent joinpath
       self w).2.
Proof.
  intros Hop. unfold save_database, try_except. rewrite bind_run.
  destruct (open_write_ok parent (db_path self) w Hop)
    as (w1 & Hrun & Hfs & _).
  rewrite Hrun. cbn [snd]. rewrite bind_run.
  destruct (write_file_ok (db_path self) (pickle_dumps (store self)) w1
              (match fs w !! db_path self with
               | Some (RegFile r _ _) => r | _ => true end) "")
    as (w2 & Hrun2 & _).
  { rewrite Hfs. apply lookup_insert_eq. }
  rewrite Hrun2. cbn [snd].
  pose proof (steady_after_write self w2) as [Hl Hne].
  match goal with
  | |- later _ (match ?m with _ => _ end).2 =>
      change m with
        ((_save_metadata json_dumps with_suffix parent self;;
          (if backup_enabled self
           then _create_backup pickle_dumps parent joinpath self
           else ret tt);;
          (ret true : IO bool)) w2)
  end.
  destruct ((_save_metadata json_dumps with_suffix parent self;;
             (if backup_enabled self
              then _create_backup pickle_dumps parent joinpath self
              else ret tt);;
             (ret true : IO bool)) w2) as [[b|e|e] w3]; simpl in *.
  - done.
  - eapply later_trans; [exact Hl|]. apply steady_print.
  - by destruct (Hne e).
Qed.

(** [_create_backup], case by case: it raises only when the directory
    cannot be made; a failure to write the backup file is printed. *)
Lemma create_backup_cases self w :
  let bd := joinpath (parent (db_path self)) "backups" in
  let bp := joinpath bd ("face_database_" +:+ clock w +:+ ".pkl") in
  (makes_dir parent (fs w) bd = false
   ∧ ∃ e w', _create_backup pickle_dumps parent joinpath self w
             = (Raised e, w')
             ∧ fs w' = fs w ∧ stdout w' = stdout w ∧ clock w' = clock w)
  ∨ (makes_dir parent (fs w) bd = true
     ∧ ∃ w', _create_backup pickle_dumps parent joinpath self w
             = (Returned tt, w')
             ∧ clock w' = clock w
             ∧ ((opens parent (<[ bd := made (fs w) bd ]> (fs w)) bp = false
                 ∧ fs w' = <[ bd := made (fs w) bd ]> (fs w)
                 ∧ ∃ e, stdout w'
                        = stdout w
                          ++ ["Warning: Could not create backup: " +:+ e])
                ∨ (opens parent (<[ bd := made (fs w) bd ]> (fs w)) bp = true
                   ∧ fs w'
                     = <[ bp := written (<[ bd := made (fs w) bd ]> (fs w)) bp
                                  (pickle_dumps (store self)) ]>
                         (<[ bd := made (fs w) bd ]> (fs w))
                   ∧ stdout w' = stdout w))).
Proof.
  intros bd bp. unfold _create_backup. fold bd.
  destruct (makes_dir parent (fs w) bd) eqn:Hmk; [right | left];
    split; try done.
  - destruct (mkdir_ok parent bd w Hmk) as (w1 & Hrun & Hfs & Hout & Hclk).
    unfold mbind at 1, io_bind at 1, bind at 1. rewrite Hrun.
    unfold mbind at 1, io_bind at 1, bind at 1, now at 1.
    rewrite Hclk. fold bp. unfold try_except.
    destruct (opens parent (fs w1) bp) eqn:Hcan.
    + destruct (write_whole_ok parent bp (pickle_dumps (store self)) w1 Hcan)
        as (w2 & Hrun2 & Hfs2 & Hout2 & Hclk2).
      rewrite Hrun2. exists w2. split; [done|]. split; [congruence|].
      right. rewrite <- Hfs. split_and!; [done | done | congruence].
    + destruct (write_whole_fail parent bp (pickle_dumps (store self)) w1 Hcan)
        as (e & w2 & Hrun2 & Hfs2 & Hout2 & Hclk2).
      rewrite Hrun2. eexists. split; [reflexivity|].
      split; [simpl; congruence|].
      left. rewrite <- Hfs. split_and!; [done | simpl; congruence |].
      exists e. simpl. congruence.
  - destruct (mkdir_fail parent bd w Hmk) as (e & w1 & Hrun & Hfs & Hout & Hclk).
    unfold mbind at 1, io_bind at 1, bind at 1. rewrite Hrun. eauto 10.
Qed.

(** [save_database], case by case. *)
Lemma save_database_cases self w :
  let db := db_path self in
  let mp := with_suffix (db_path self) ".json" in
  let bd := joinpath (parent (db_path self)) "backups" in
  let bp := joinpath bd ("face_database_" +:+ clock w +:+ ".pkl") in
  let pk := pickle_dumps (store self) in
  let fails (w' : World) :=
    ∃ e, stdout w' = stdout w ++ ["Error saving database: " +:+ e] in
  ∃ b w',
    save_database pickle_dumps json_dumps with_suffix parent joinpath self w
    = (Returned b, w')
    ∧ clock w' = clock w
    ∧ ((opens parent (fs w) db = false
        ∧ b = false ∧ fs w' = fs w ∧ fails w')
       ∨ (opens parent (fs w) db = true
          ∧ ∃ f1, f1 = <[ db := written (fs w) db pk ]> (fs w)
            ∧ ((opens parent f1 mp = false
                ∧ b = false ∧ fs w' = f1 ∧ fails w')
               ∨ (opens parent f1 mp = true
                  ∧ ∃ f2 js, f2 = <[ mp := written f1 mp js ]> f1
                    ∧ ((backup_enabled self = false
                        ∧ b = true ∧ fs w' = f2 ∧ stdout w' = stdout w)
                       ∨ (backup_enabled self = true
                          ∧ makes_dir parent f2 bd = false
                          ∧ b = false ∧ fs w' = f2 ∧ fails w')
                       ∨ (backup_enabled self = true
                          ∧ makes_dir parent f2 bd = true
                          ∧ b = true
                          ∧ ∃ f3, f3 = <[ bd := made f2 bd ]> f2
                            ∧ ((opens parent f3 bp = false
                                ∧ fs w' = f3
                                ∧ ∃ e, stdout w'
                                       = stdout w
                                         ++ ["Warning: Could not create backup: "
                                             +:+ e])
                               ∨ (opens parent f3 bp = true
                                  ∧ fs w' = <[ bp := written f3 bp pk ]> f3
                                  ∧ stdout w' = stdout w)))))))).
Proof.
  intros db mp bd bp pk fails. unfold save_database, try_except.
  fold db pk. rewrite bind_run.
  destruct (opens parent (fs w) db) eqn:Hdb.
  2:{ destruct (open_write_fail parent db w Hdb)
        as (e & w1 & Hrun & Hfs & Hout & Hclk & _).
      rewrite Hrun. eexists false, _. split; [reflexivity|].
      split; [simpl; congruence|]. left.
      split_and!; [done | done | simpl; congruence |].
      exists e. simpl. congruence. }
  destruct (open_write_ok parent db w Hdb) as (w1 & Hrun & Hfs & Hout & Hclk).
  rewrite Hrun, bind_run.
  destruct (write_file_ok db pk w1
              (match fs w !! db with Some (RegFile r _ _) => r | _ => true end)
              "") as (w2 & Hrun2 & Hfs2 & Hout2 & Hclk2).
  { rewrite Hfs. apply lookup_insert_eq. }
  rewrite Hrun2.
  assert (fs w2 = <[ db := written (fs w) db pk ]> (fs w)) as Hf1.
  { rewrite Hfs2, Hfs. unfold written. simpl. apply insert_insert_eq. }
  rewrite bind_run. unfold _save_metadata. fold mp.
  match goal with
  | |- context [write_file mp ?j] => set (js := j)
  end.
  destruct (opens parent (fs w2) mp) eqn:Hmp.
  2:{ destruct (write_whole_fail parent mp js w2 Hmp)
        as (e & w3 & Hrun3 & Hfs3 & Hout3 & Hclk3).
      rewrite Hrun3. eexists false, _. split; [reflexivity|].
      split; [simpl; congruence|]. right. split; [done|].
      eexists. split; [reflexivity|]. left. rewrite <- Hf1.
      split_and!; [done | done | simpl; congruence |].
      exists e. simpl. congruence. }
  destruct (write_whole_ok parent mp js w2 Hmp)
    as (w3 & Hrun3 & Hfs3 & Hout3 & Hclk3).
  rewrite Hrun3, bind_run.
  destruct (backup_enabled self) eqn:Hbk.
  2:{ eexists true, _. split; [reflexivity|].
      split; [simpl; congruence|]. right. split; [done|].
      eexists. split; [reflexivity|]. right. rewrite <- Hf1.
      split; [done|]. eexists _, js. split; [reflexivity|]. left.
      split_and!; [done | done | simpl; congruence | simpl; congruence]. }
  assert (clock w3 = clock w) as Hclk3' by congruence.
  destruct (create_backup_cases self w3)
    as [(Hmk & e & w4 & Hrun4 & Hfs4 & Hout4 & Hclk4)
       |(Hmk & w4 & Hrun4 & Hclk4 & Hcases)];
    rewrite Hclk3' in *; fold bd bp in Hmk, Hrun4 |- *; rewrite Hrun4.
  - eexists false, _. split; [reflexivity|].
    split; [simpl; congruence|]. right. split; [done|].
    eexists. split; [reflexivity|]. right. rewrite <- Hf1.
    split; [done|]. eexists _, js. split; [reflexivity|]. right. left.
    rewrite <- Hfs3.
    split_and!; [done | done | done | simpl; congruence |].
    exists e. simpl. congruence.
  - eexists true, _. split; [reflexivity|].
    split; [simpl; congruence|]. right. split; [done|].
    eexists. split; [reflexivity|]. right. rewrite <- Hf1.
    split; [done|]. eexists _, js. split; [reflexivity|]. right. right.
    rewrite <- Hfs3. split_and!; [done..|].
    eexists. split; [reflexivity|]. fold bd bp in Hcases.
    destruct Hcases as [(Hbp & Hfs4 & e & Hout4)|(Hbp & Hfs4 & Hout4)].
    + left. split_and!; [done | done |]. exists e. simpl. congruence.
    + right. split_and!; [done | done | simpl; congruence].
Qed.

(** [_load_database], case by case on what is at the path. *)
Lemma load_database_cases p w :
  match fs w !! p with
  | None =>
      _load_database pickle_loads p w = (Returned (PyGallery empty_store), w)
  | Some (NoStat e) => _load_database pickle_loads p w = (Raised e, w)
  | Some (RegFile true _ content) =>
      ∃ w', fs w' = fs w
        ∧ match pickle_loads content with
          | Returned o =>
              _load_database pickle_loads p w = (Returned o, w')
              ∧ stdout w' = stdout w
          | Raised e =>
              _load_database pickle_loads p w
              = (Returned (PyGallery empty_store), w')
              ∧ stdout w'
                = stdout w ++ ["Warning: Could not load database: " +:+ e]
          | Exited e =>
              _load_database pickle_loads p w = (Exited e, w')
              ∧ stdout w' = stdout w
          end
  | Some _ =>
      ∃ e w', _load_database pickle_loads p w
              = (Returned (PyGallery empty_store), w')
        ∧ fs w' = fs w
        ∧ stdout w'
          = stdout w ++ ["Warning: Could not load database: " +:+ e]
  end.
Proof.
  unfold _load_database, pickle_load. unfold_io. simpl.
  destruct (fs w !! p) as [[[] wr content|d|e]|] eqn:Hnode; simpl;
    rewrite ?Hnode; simpl; try done.
  - destruct (pickle_loads content) as [o|e|e]; simpl;
      eexists; (split; [|split; reflexivity]); reflexivity.
  - eexists _, _. split_and!; reflexivity.
  - eexists _, _. split_and!; reflexivity.
Qed.

(** Where [_load_database] does recover: with no file at the path it
    returns the empty gallery and prints nothing; with a file that
    cannot be opened for reading, a directory, or a content whose
    unpickling raises an [Exception], it prints one warning and returns
    the empty gallery.  The files stay as they are. *)
Lemma load_database_recovers p w :
  (fs w !! p = None →
   _load_database pickle_loads p w = (Returned (PyGallery empty_store), w))
  ∧ (∀ node, fs w !! p = Some node →
       unreadable_or_corrupt pickle_loads node →
       ∃ e w', _load_database pickle_loads p w
               = (Returned (PyGallery empty_store), w')
         ∧ fs w' = fs w
         ∧ stdout w'
           = stdout w ++ ["Warning: Could not load database: " +:+ e]).
Proof.
  pose proof (load_database_cases p w) as Hc. split.
  - intros Hnone. by rewrite Hnone in Hc.
  - intros node Hnode Hbad. rewrite Hnode in Hc.
    destruct node as [[] wr content|d|e]; simpl in Hbad; [| | |done].
    + destruct Hbad as [e He]. destruct Hc as (w' & Hfs & Hc).
      rewrite He in Hc. destruct Hc. eauto.
    + done.
    + done.
Qed.

(** [_load_database] on a readable file that unpickles. *)
Lemma load_database_ok p w wr content o :
  fs w !! p = Some (RegFile true wr content) →
  pickle_loads content = Returned o →
  ∃ w', _load_database pickle_loads p w = (Returned o, w')
        ∧ fs w' = fs w ∧ stdout w' = stdout w.
Proof.
  intros Hf Hl. pose proof (load_database_cases p w) as Hc.
  rewrite Hf in Hc. destruct Hc as (w' & Hfs & Hc). rewrite Hl in Hc.
  destruct Hc. eauto.
Qed.

(** The value [_load_database] returns depends on the files only. *)
Lemma load_database_fs p w1 w2 :
  fs w1 = fs w2 →
  (_load_database pickle_loads p w1).1 = (_load_database pickle_loads p w2).1.
Proof.
  intros Hfs. unfold _load_database, pickle_load. unfold_io. simpl.
  rewrite Hfs. destruct (fs w2 !! p) as [node|] eqn:Hnode; [|done].
  destruct node as [[] wr content|d|e]; simpl; rewrite ?Hfs, ?Hnode; simpl;
    try done.
  by destruct (pickle_loads content).
Qed.

(** Once the gallery file could be opened, it holds the pickled
    gallery when [save_database] returns, whatever it returns. *)
Lemma save_gallery_file self w :
  opens parent (fs w) (db_path self) = true →
  with_suffix (db_path self) ".json" ≠ db_path self →
  fs (save_database pickle_dumps json_dumps with_suffix parent joinpath
        self w).2 !! db_path self
  = Some (written (fs w) (db_path self) (pickle_dumps (store self))).
Proof.
  intros Hdb Hmp.
  destruct (save_database_cases self w) as (b & w' & -> & _ & Hcases).
  cbn [snd].
  destruct Hcases as [(Hno & _)|(_ & f1 & Hf1 & Hcases)]; [congruence|].
  assert (f1 !! db_path self
          = Some (written (fs w) (db_path self) (pickle_dumps (store self))))
    as Hl1 by (rewrite Hf1; apply lookup_insert_eq).
  destruct Hcases as [(_ & _ & -> & _)|(_ & f2 & js & Hf2 & Hcases)]; [done|].
  assert (f2 !! db_path self
          = Some (written (fs w) (db_path self) (pickle_dumps (store self))))
    as Hl2 by (rewrite Hf2, lookup_insert_ne by done; exact Hl1).
  destruct Hcases as [(_ & _ & -> & _)|[(_ & _ & _ & -> & _)|Hcases]];
    [done..|].
  destruct Hcases as (_ & Hmk & _ & f3 & Hf3 & Hcases).
  assert (joinpath (parent (db_path self)) "backups" ≠ db_path self) as Hbd.
  { intros Heq. unfold makes_dir in Hmk. rewrite Heq, Hl2 in Hmk. done. }
  assert (f3 !! db_path self
          = Some (written (fs w) (db_path self) (pickle_dumps (store self))))
    as Hl3 by (rewrite Hf3, lookup_insert_ne by done; exact Hl2).
  destruct Hcases as [(_ & -> & _)|(_ & -> & _)]; [done|].
  match goal with
  | |- <[ ?bp := _ ]> _ !! _ = _ => destruct (decide (bp = db_path self)) as [->|Hne]
  end.
  - rewrite lookup_insert_eq. unfold written at 1. by rewrite Hl3.
  - by rewrite lookup_insert_ne.
Qed.
End WithSerializers.

(** What any later world shows of a run that began with the [open] of
    [p] for writing. *)
Lemma after_open_write parent p w w' :
  later (open_write parent p w).2 w' →
  (∃ rest, calls_between w w' = OpOpenWrite p :: rest)
  ∧ (∀ src dst, OpRename src dst ∉ calls_between w w').
Proof.
  intros (ops & states & Htr & Hhist & Hno).
  rewrite open_write_trace in Htr.
  assert (calls_between w w' = OpOpenWrite p :: ops) as Hcalls.
  { unfold calls_between. rewrite Htr, <- app_assoc.
    by rewrite drop_app_length. }
  split; [by eauto|].
  intros src dst. rewrite Hcalls.
  intros [?|?]%elem_of_cons; [done | by eapply Hno].
Qed.

(** What any later world shows of a run that began with the [open] of
    [p] for writing, which succeeded, and the write of [data]. *)
Lemma after_write_whole parent p data w w' :
  opens parent (fs w) p = true →
  later (write_file p data (open_write parent p w).2).2 w' →
  (∃ rest, calls_between w w' = OpOpenWrite p :: OpWrite p data :: rest)
  ∧ (∃ rest,
       states_between w w'
       = <[ p := written (fs w) p "" ]> (fs w)
         :: <[ p := written (fs w) p data ]> (fs w) :: rest).
Proof.
  intros Hop (ops & states & Htr & Hhist & Hno).
  destruct (open_write_ok parent p w Hop) as (w1 & Hrun & Hfs & _).
  destruct (open_write_ok_logs parent p w Hop) as [Ht1 Hh1].
  rewrite Hrun in *. cbn [snd] in *.
  assert (fs w1 !! p
          = Some (RegFile (match fs w !! p with
                           | Some (RegFile r _ _) => r | _ => true end)
                    true "")) as Hf1.
  { rewrite Hfs. apply lookup_insert_eq. }
  destruct (write_file_ok_logs p data w1 _ _ Hf1) as [Ht2 Hh2].
  rewrite Ht2, Ht1 in Htr. rewrite Hh2, Hh1, Hfs in Hhist.
  split.
  - exists ops. unfold calls_between. rewrite Htr, <- !app_assoc.
    by rewrite drop_app_length.
  - exists states. unfold states_between. rewrite Hhist, <- !app_assoc.
    rewrite drop_app_length. simpl. by rewrite insert_insert_eq.
Qed.
End PersistFacts.

Module PersistSpec.
Import Gallery Persist PersistFacts Fixtures.

Section WithSerializers.
Variable pickle_dumps : Store → string.
Variable json_dumps : list (string * (nat * string * string)) → string.
Variable with_suffix : string → string → string.
Variable parent : string → string.
Variable joinpath : string → string → string.

(** C7, as the code has it.  The first file-system call of every
    [save_database] opens the gallery file itself for writing, and no
    save makes a rename.  When that open fails, the save returns
    [False], has made no other call and leaves every file as it was.
    When it succeeds, the open leaves the gallery file empty (truncated,
    or created), the next call writes the pickled gallery directly into
    that file, and these are the first two states the file system goes
    through: the gallery file empty, then the gallery file holding the
    pickled gallery. *)
Theorem save_database_writes_in_place (self : FaceDatabase) (w : World) :
  let db := db_path self in
  let pk := pickle_dumps (store self) in
  ∃ b w',
    save_database pickle_dumps json_dumps with_suffix parent joinpath self w
    = (Returned b, w')
    ∧ (∃ rest, calls_between w w' = OpOpenWrite db :: rest)
    ∧ (∀ src dst, OpRename src dst ∉ calls_between w w')
    ∧ (opens parent (fs w) db = false →
       b = false ∧ fs w' = fs w ∧ calls_between w w' = [OpOpenWrite db])
    ∧ (opens parent (fs w) db = true →
       (∃ rest,
          calls_between w w' = OpOpenWrite db :: OpWrite db pk :: rest)
       ∧ (∃ rest,
            states_between w w'
            = <[ db := written (fs w) db "" ]> (fs w)
              :: <[ db := written (fs w) db pk ]> (fs w) :: rest)).
Proof.
  intros db pk.
  destruct (save_database_after_open pickle_dumps json_dumps with_suffix
              parent joinpath self w)
    as (b & w' & Hrun & Hlater).
  exists b, w'. split; [done|].
  destruct (after_open_write _ _ _ _ Hlater) as [Hfirst Hnone].
  split_and!; [done | done | |].
  - intros Hop.
    destruct (open_write_fail parent db w Hop)
      as (e & w1 & Hrun1 & Hfs & _ & _ & Htr & _).
    unfold save_database, try_except in Hrun. rewrite bind_run in Hrun.
    fold db in Hrun. rewrite Hrun1 in Hrun. simpl in Hrun.
    injection Hrun as <- <-. simpl. split_and!; [done | done |].
    unfold calls_between. simpl. rewrite Htr. by rewrite drop_app_length.
  - intros Hop.
    pose proof (save_database_after_write pickle_dumps json_dumps
                  with_suffix parent joinpath self w Hop) as Hl.
    rewrite Hrun in Hl. cbn [snd] in Hl.
    exact (after_write_whole parent db pk w w' Hop Hl).
Qed.
End WithSerializers.

(** C7 as stated fails: saving over an existing gallery file opens and
    writes that file in place, with no temporary file and no rename,
    and goes through a state in which the file is empty, which is
    neither the old nor the new gallery. *)
Lemma save_database_not_atomic :
  let w' := (save_database toy_dumps toy_json toy_with_suffix toy_parent
               toy_joinpath facedb0 world0).2 in
  ¬ atomic_replace "db.pkl" (calls_between world0 w')
  ∧ fs world0 !! "db.pkl"%string = Some (RegFile true true "Alice")
  ∧ fs w' !! "db.pkl"%string = Some (RegFile true true "Alice,Bob")
  ∧ ∃ f, f ∈ states_between world0 w'
         ∧ f !! "db.pkl"%string = Some (RegFile true true "").
Proof.
  assert (calls_between world0
            (save_database toy_dumps toy_json toy_with_suffix toy_parent
               toy_joinpath facedb0 world0).2
          = [OpOpenWrite "db.pkl"; OpWrite "db.pkl" "Alice,Bob";
             OpOpenWrite "db.pkl.json"; OpWrite "db.pkl.json" "Alice,Bob";
             OpMkdir "./backups";
             OpOpenWrite "./backups/face_database_20240101_000000.pkl";
             OpWrite "./backups/face_database_20240101_000000.pkl"
               "Alice,Bob"]) as Hcalls
    by (vm_compute; reflexivity).
  cbv zeta. split_and!.
  - rewrite Hcalls. intros [_ Hnone].
    apply (Hnone (OpOpenWrite "db.pkl")); [left | by left].
  - vm_compute. reflexivity.
  - vm_compute. reflexivity.
  - assert (opens toy_parent (fs world0) "db.pkl" = true) as Hop
      by (vm_compute; reflexivity).
    pose proof (save_database_after_write toy_dumps toy_json
                  toy_with_suffix toy_parent toy_joinpath facedb0 world0 Hop)
      as Hl.
    apply after_write_whole in Hl as [_ [rest Hstates]]; [|exact Hop].
    eexists. split; [rewrite Hstates; left|].
    rewrite lookup_insert_eq. vm_compute. reflexivity.
Qed.

(** C8. [_load_database] does raise.  The [exists] test of line 21 is
    outside the [try] block: at a gallery path whose status cannot be
    read, it raises the [OSError], which leaves [_load_database] and,
    through [__init__], stops the start of the process.  At the same
    path holding a file that cannot be opened for reading, the error is
    raised inside the [try] block, and the load prints a warning and
    returns the empty gallery, as the claim says. *)
Theorem load_raises_when_stat_fails :
  fs world_nostat !! "db.pkl"%string
  = Some (NoStat "[Errno 13] Permission denied")
  ∧ _load_database toy_unpickle "db.pkl" world_nostat
    = (Raised "[Errno 13] Permission denied", world_nostat)
  ∧ fs world_locked !! "db.pkl"%string = Some (RegFile false false "Alice")
  ∧ ∃ w', _load_database toy_unpickle "db.pkl" world_locked
          = (Returned (PyGallery empty_store), w')
          ∧ fs w' = fs world_locked
          ∧ stdout w'
            = ["Warning: Could not load database: Permission denied"%string].
Proof.
  split_and!; [vm_compute; reflexivity.. |].
  eexists. split_and!; [vm_compute; reflexivity | reflexivity | reflexivity].
Qed.
End PersistSpec.

(* ===================================================================== *)
(** * Further properties of [FaceTracker] *)
(* ===================================================================== *)

Module TrackerMoreFacts.
Import Tracker TrackerFacts IoUSpec.
Local Open Scope Z_scope.

(** ** The loop from any state *)

Lemma fold_loop_snoc l ds d :
  fold_left loop_body (ds ++ [d]) l = loop_body (fold_left loop_body ds l) d.
Proof. by rewrite fold_left_app. Qed.

Lemma fold_loop_outputs ds l :
  ∃ rs cs,
    l_results (fold_left loop_body ds l) = l_results l ++ rs
    ∧ l_claims (fold_left loop_body ds l) = l_claims l ++ cs
    ∧ length rs = length ds ∧ length cs = length ds.
Proof.
  induction ds as [|d ds IH] using rev_ind.
  - exists [], []. by rewrite !app_nil_r.
  - rewrite fold_loop_snoc.
    destruct IH as (rs & cs & Hr & Hc & Hlr & Hlc).
    destruct (loop_body_results (fold_left loop_body ds l) d)
      as (r & c & -> & -> & _).
    exists (rs ++ [r]), (cs ++ [c]).
    rewrite Hr, Hc, <- !app_assoc, !length_app, Hlr, Hlc. done.
Qed.

Lemma update_loop_split self ds1 ds2 :
  update_loop self (ds1 ++ ds2)
  = fold_left loop_body ds2 (update_loop self ds1).
Proof. unfold update_loop. by rewrite fold_left_app. Qed.

(** The claim and the result at position [i] are the ones made by the
    iteration for the [i]-th detection. *)
Lemma update_loop_at self ds i d :
  ds !! i = Some d →
  l_claims (update_loop self ds) !! i
  = last (l_claims (loop_body (update_loop self (take i ds)) d))
  ∧ l_results (update_loop self ds) !! i
    = last (l_results (loop_body (update_loop self (take i ds)) d)).
Proof.
  intros Hd.
  assert (update_loop self ds
          = fold_left loop_body (drop (S i) ds)
              (loop_body (update_loop self (take i ds)) d)) as ->.
  { rewrite <- (take_drop_middle ds i d Hd) at 1.
    by rewrite update_loop_split. }
  destruct (update_loop_lengths self (take i ds)) as (Hlr & Hlc & _).
  rewrite length_take, (Nat.min_l i) in Hlr, Hlc
    by (apply Nat.lt_le_incl; by eapply lookup_lt_Some).
  destruct (loop_body_results (update_loop self (take i ds)) d)
    as (r & c & Hr & Hc & _).
  destruct (fold_loop_outputs (drop (S i) ds)
              (loop_body (update_loop self (take i ds)) d))
    as (rs & cs & -> & -> & _).
  rewrite Hr, Hc, !last_snoc, <- !app_assoc. simpl.
  split.
  - rewrite lookup_app_r by lia. by rewrite Hlc, Nat.sub_diag.
  - rewrite lookup_app_r by lia. by rewrite Hlr, Nat.sub_diag.
Qed.

(** Under the state invariant, a claimed track is not touched again in
    the same call. *)
Lemma loop_body_keeps_matched l d k :
  tracker_wf (l_self l) → matched_fresh l → k ∈ l_matched l →
  dict_get k (tracks (l_self (loop_body l d))) = dict_get k (tracks (l_self l)).
Proof.
  intros (_ & Hfresh & _) Hmf Hk.
  loop_cases l d; rewrite Hbody; simpl.
  - apply dict_get_set_ne. intros ->. done.
  - apply dict_get_set_ne. intros <-.
    destruct (Hmf _ Hk) as (t & Ht & _).
    assert (next_id (l_self l) < next_id (l_self l)); [|lia].
    apply Hfresh, dict_get_is_Some_keys. eauto.
Qed.

Lemma fold_loop_keeps_matched ds l k :
  tracker_wf (l_self l) → matched_fresh l → k ∈ l_matched l →
  dict_get k (tracks (l_self (fold_left loop_body ds l)))
  = dict_get k (tracks (l_self l)).
Proof.
  intros Hwf Hmf Hk. induction ds as [|d ds IH] using rev_ind; [done|].
  rewrite fold_loop_snoc, <- IH.
  assert (tracker_wf (l_self (fold_left loop_body ds l))
          ∧ matched_fresh (fold_left loop_body ds l)
          ∧ k ∈ l_matched (fold_left loop_body ds l)) as (? & ? & ?).
  { clear IH. induction ds as [|d' ds IH] using rev_ind; [done|].
    rewrite fold_loop_snoc. destruct IH as (? & ? & ?).
    split_and!; [by apply loop_body_wf | by apply loop_body_matched_fresh
                | by apply loop_body_matched_mono]. }
  by apply loop_body_keeps_matched.
Qed.

(** ** Means and queues *)

Lemma Qsum_le_length (q : list Q) :
  (∀ c, c ∈ q → (c <= 1)%Q) → (Qsum q <= inject_Z (Z.of_nat (length q)))%Q.
Proof.
  induction q as [|c q IH]; intros Hq; [done|].
  cbn [Qsum fold_right length]. rewrite Nat2Z.inj_succ, <- Z.add_1_l.
  rewrite inject_Z_plus. apply Qplus_le_compat.
  - apply Hq. left.
  - apply IH. intros c' Hc'. apply Hq. by right.
Qed.

Lemma np_mean_in_unit (q : list Q) :
  q ≠ [] → (∀ c, c ∈ q → in_unit c) → in_unit (np_mean q).
Proof.
  intros Hne Hq. unfold np_mean.
  assert (0 < inject_Z (Z.of_nat (length q)))%Q as Hlen.
  { destruct q; [done|]. unfold Qlt. simpl. lia. }
  split.
  - apply Qle_shift_div_l; [done|]. rewrite Qmult_0_l.
    apply Qsum_nonneg. intros c Hc. by apply Hq.
  - apply Qle_shift_div_r; [done|]. rewrite Qmult_1_l.
    apply Qsum_le_length. intros c Hc. by apply Hq.
Qed.

Lemma deque_append_length maxlen q c :
  length (deque_append maxlen q c) = ((length q + 1) `min` maxlen)%nat.
Proof. unfold deque_append. rewrite length_drop, length_app. simpl. lia. Qed.

Lemma deque_append_elem maxlen q c x :
  x ∈ deque_append maxlen q c → x ∈ q ∨ x = c.
Proof.
  unfold deque_append. intros Hx%subseteq_drop.
  apply elem_of_app in Hx as [?|?%list_elem_of_singleton]; auto.
Qed.

Lemma deque_append_last maxlen q c :
  (0 < maxlen)%nat → last (deque_append maxlen q c) = Some c.
Proof.
  intros Hpos. unfold deque_append.
  rewrite last_lookup, length_drop, lookup_drop, length_app. simpl.
  replace (length q + 1 - maxlen
           + pred (length q + 1 - (length q + 1 - maxlen)))%nat
    with (length q) by lia.
  by rewrite lookup_app_r, Nat.sub_diag.
Qed.

(** The queue of [name] after [push_vote], and the other queues. *)
Lemma push_vote_get maxlen name c votes :
  dict_get name (push_vote maxlen name c votes)
  = Some (deque_append maxlen (default [] (dict_get name votes)) c).
Proof.
  unfold push_vote, dict_mem.
  destruct (dict_get name votes) as [q|] eqn:Hg; simpl.
  - rewrite Hg. apply dict_get_set_eq.
  - rewrite dict_get_set_eq. apply dict_get_set_eq.
Qed.

Lemma push_vote_get_ne maxlen name c votes other :
  name ≠ other →
  dict_get other (push_vote maxlen name c votes) = dict_get other votes.
Proof.
  intros Hne. unfold push_vote, dict_mem.
  destruct (dict_get name votes) as [q|] eqn:Hg; simpl.
  - rewrite Hg. by apply dict_get_set_ne.
  - rewrite dict_get_set_eq. by rewrite !dict_get_set_ne.
Qed.

Lemma push_vote_ok maxlen name c votes :
  (0 < maxlen)%nat → in_unit c → votes_ok maxlen votes →
  votes_ok maxlen (push_vote maxlen name c votes).
Proof.
  intros Hpos Hc Hok other q.
  destruct (decide (name = other)) as [<-|Hne].
  - rewrite push_vote_get. intros [= <-]. split_and!.
    + intros Hnil. apply (f_equal length) in Hnil.
      rewrite deque_append_length in Hnil. simpl in Hnil. lia.
    + rewrite deque_append_length. lia.
    + intros x [Hx| ->]%deque_append_elem; [|done].
      destruct (dict_get name votes) as [q0|] eqn:Hg; simpl in Hx.
      * by eapply Hok.
      * by apply elem_of_nil in Hx.
  - rewrite push_vote_get_ne by done. apply Hok.
Qed.

Lemma votes_after_ok maxlen d votes :
  (0 < maxlen)%nat → in_unit (det_conf d) → votes_ok maxlen votes →
  votes_ok maxlen (votes_after maxlen d votes).
Proof.
  intros Hpos Hc Hok. unfold votes_after.
  destruct (_ && _); [by apply push_vote_ok | done].
Qed.

Lemma votes_created_ok maxlen d :
  (0 < maxlen)%nat → in_unit (det_conf d) →
  votes_ok maxlen (votes_created maxlen d).
Proof.
  intros Hpos Hc name q. unfold votes_created.
  destruct (_ && _); simpl; [|done].
  destruct (decide _); [|done]. intros [= <-].
  rewrite deque_single_pos by done. split_and!; [done | simpl; lia |].
  by intros x ->%list_elem_of_singleton.
Qed.

Lemma stabilize_in_unit votes c :
  dict_wf votes → (∀ name q, dict_get name votes = Some q →
                             q ≠ [] ∧ ∀ x, x ∈ q → in_unit x) →
  in_unit c → in_unit (stabilize votes c).2.
Proof.
  intros Hwf Hok Hc. destruct votes as [|v votes]; [done|].
  destruct (stabilize_nonempty (v :: votes) c) as (q & [Hg _] & ->); [done..|].
  destruct (Hok _ _ Hg) as [Hne Hq]. by apply np_mean_in_unit.
Qed.

(** ** Flat boxes *)

Lemma iou_flat (a b : BBox) : flat_box a → (_calculate_iou a b == 0)%Q.
Proof.
  intros Hflat. apply iou_no_overlap.
  destruct a as [[[x1 y1] w1] h1], b as [[[x2 y2] w2] h2].
  unfold flat_box, overlap, x_extent, y_extent in *. cbn [fst snd]. lia.
Qed.
End TrackerMoreFacts.

Module TrackerMore.
Import Tracker TrackerFacts IoUSpec TrackerMoreFacts Fixtures.
Local Open Scope Z_scope.

(** ** The overlap measure *)

Lemma intersection_bounds (a b : BBox) :
  proper_box a → proper_box b →
  0 ≤ intersection_area a b
  ∧ intersection_area a b ≤ area a
  ∧ intersection_area a b ≤ area b.
Proof.
  destruct a as [[[x1 y1] w1] h1], b as [[[x2 y2] w2] h2].
  unfold proper_box, intersection_area, x_extent, y_extent, area.
  intros [Hw1 Hh1] [Hw2 Hh2].
  destruct (Z.ltb_spec (Z.min (x1 + w1) (x2 + w2)) (Z.max x1 x2)) as [|Hx];
    [simpl; nia|].
  destruct (Z.ltb_spec (Z.min (y1 + h1) (y2 + h2)) (Z.max y1 y2)) as [|Hy];
    [simpl; nia|].
  simpl.
  assert (0 ≤ Z.min (x1 + w1) (x2 + w2) - Z.max x1 x2 ≤ w1) by lia.
  assert (Z.min (x1 + w1) (x2 + w2) - Z.max x1 x2 ≤ w2) by lia.
  assert (0 ≤ Z.min (y1 + h1) (y2 + h2) - Z.max y1 y2 ≤ h1) by lia.
  assert (Z.min (y1 + h1) (y2 + h2) - Z.max y1 y2 ≤ h2) by lia.
  nia.
Qed.

(** X1. For two boxes whose widths and heights are not negative, the
    value of [_calculate_iou] lies between 0 and 1. *)
Theorem iou_between_0_and_1 (a b : BBox) :
  proper_box a → proper_box b →
  (0 <= _calculate_iou a b)%Q ∧ (_calculate_iou a b <= 1)%Q.
Proof.
  intros Ha Hb.
  destruct (intersection_bounds a b Ha Hb) as (H0 & H1 & H2).
  rewrite iou_unfold. destruct (_ || _); [done|].
  destruct (Z.ltb_spec 0 (union_area a b)) as [Hu|Hu]; [|done].
  assert (intersection_area a b ≤ union_area a b) as Hle
    by (unfold union_area in *; lia).
  assert (0 < inject_Z (union_area a b))%Q as HuQ
    by (unfold Qlt; simpl; lia).
  split.
  - apply Qle_shift_div_l; [done|].
    rewrite Qmult_0_l. unfold Qle. simpl. lia.
  - apply Qle_shift_div_r; [done|].
    rewrite Qmult_1_l. unfold Qle. simpl. lia.
Qed.

Lemma iou_between_0_and_1_witness :
  (0 <= _calculate_iou (0, 0, 4, 4)%Z (2, 2, 4, 4)%Z)%Q
  ∧ (_calculate_iou (0, 0, 4, 4)%Z (2, 2, 4, 4)%Z <= 1)%Q.
Proof.
  apply (iou_between_0_and_1 (0, 0, 4, 4) (2, 2, 4, 4));
    unfold proper_box; lia.
Defined.

(** ** The search for a track *)

(** The state of the search after any number of tracks. *)
Lemma best_fold_spec (thr : Q) (matched : gset Z) (b : BBox)
    (ts : list (Z * Track)) :
  match fold_left (best_step thr matched b) ts (0%Q, None) with
  | (best_iou, Some k) =>
      ∃ t, (k, t) ∈ ts ∧ (k ∉ matched)
           ∧ best_iou = _calculate_iou b (bbox t)
           ∧ (thr < best_iou)%Q ∧ (0 < best_iou)%Q
           ∧ ∀ k' t', (k', t') ∈ ts → k' ∉ matched →
                      (_calculate_iou b (bbox t') <= best_iou)%Q
  | (best_iou, None) =>
      best_iou = 0%Q
      ∧ ∀ k' t', (k', t') ∈ ts → k' ∉ matched →
                 ¬ ((0 < _calculate_iou b (bbox t'))%Q
                    ∧ (thr < _calculate_iou b (bbox t'))%Q)
  end.
Proof.
  induction ts as [|[k1 t1] ts IH] using rev_ind.
  { simpl. split; [done|]. intros k' t' Hin. by apply elem_of_nil in Hin. }
  rewrite fold_left_app. cbn [fold_left].
  destruct (fold_left (best_step thr matched b) ts (0%Q, None))
    as [best_iou [k|]]; unfold best_step; cbn [fst snd].
  - destruct IH as (t & Hin & Hk & Hiou & Hthr & Hpos & Hmax).
    case_bool_decide as Hm.
    + exists t. split_and!; [apply elem_of_app; by left | done..|].
      intros k' t' [?| [= -> ->]%list_elem_of_singleton]%elem_of_app Hk';
        [by eapply Hmax | done].
    + destruct (Qgtb _ best_iou) eqn:Hgt1; cbn [andb];
        [destruct (Qgtb _ thr) eqn:Hgt2|].
      * apply Qgtb_true in Hgt1, Hgt2.
        exists t1. split_and!; [apply elem_of_app; right; left | done..
                               | by etrans |].
        intros k' t' [Hin'| [= -> ->]%list_elem_of_singleton]%elem_of_app Hk'.
        -- apply Qlt_le_weak. eapply Qle_lt_trans; [by eapply Hmax | done].
        -- apply Qle_refl.
      * apply Qgtb_false in Hgt2.
        exists t. split_and!; [apply elem_of_app; by left | done..|].
        intros k' t' [?| [= -> ->]%list_elem_of_singleton]%elem_of_app Hk';
          [by eapply Hmax|].
        apply Qlt_le_weak. by eapply Qle_lt_trans.
      * apply Qgtb_false in Hgt1.
        exists t. split_and!; [apply elem_of_app; by left | done..|].
        intros k' t' [?| [= -> ->]%list_elem_of_singleton]%elem_of_app Hk';
          [by eapply Hmax | done].
  - destruct IH as (-> & Hnone).
    case_bool_decide as Hm.
    + split; [done|].
      intros k' t' [?| [= -> ->]%list_elem_of_singleton]%elem_of_app Hk';
        [by eapply Hnone | done].
    + destruct (Qgtb _ 0) eqn:Hgt1; cbn [andb];
        [destruct (Qgtb _ thr) eqn:Hgt2|].
      * apply Qgtb_true in Hgt1, Hgt2.
        exists t1. split_and!; [apply elem_of_app; right; left | done..|].
        intros k' t' [Hin'| [= -> ->]%list_elem_of_singleton]%elem_of_app Hk'.
        -- destruct (Qlt_le_dec 0 (_calculate_iou b (bbox t'))) as [Hp|Hn].
           ++ destruct (Qlt_le_dec thr (_calculate_iou b (bbox t'))) as [Ht|Ht].
              ** exfalso. by eapply Hnone.
              ** apply Qlt_le_weak. by eapply Qle_lt_trans.
           ++ apply Qlt_le_weak. by eapply Qle_lt_trans.
        -- apply Qle_refl.
      * apply Qgtb_false in Hgt2. split; [done|].
        intros k' t' [?| [= -> ->]%list_elem_of_singleton]%elem_of_app Hk';
          [by eapply Hnone|].
        intros [_ Hlt]. by apply Qlt_not_le in Hlt.
      * apply Qgtb_false in Hgt1. split; [done|].
        intros k' t' [?| [= -> ->]%list_elem_of_singleton]%elem_of_app Hk';
          [by eapply Hnone|].
        intros [Hlt _]. by apply Qlt_not_le in Hlt.
Qed.

(** X2. The track that the search of [update] picks for a detection is
    one that no earlier detection of the call claimed, its IoU with the
    detection's box is above the threshold and above 0, and no unclaimed
    track has a greater IoU; the search picks no track exactly when no
    unclaimed track has an IoU above both. *)
Theorem find_best_is_best (thr : Q) (matched : gset Z) (b : BBox)
    (ts : list (Z * Track)) :
  (∀ k, find_best thr matched b ts = Some k →
        ∃ t, (k, t) ∈ ts ∧ (k ∉ matched)
             ∧ (thr < _calculate_iou b (bbox t))%Q
             ∧ (0 < _calculate_iou b (bbox t))%Q
             ∧ ∀ k' t', (k', t') ∈ ts → k' ∉ matched →
                 (_calculate_iou b (bbox t') <= _calculate_iou b (bbox t))%Q)
  ∧ (find_best thr matched b ts = None ↔
     ∀ k' t', (k', t') ∈ ts → k' ∉ matched →
              ¬ ((0 < _calculate_iou b (bbox t'))%Q
                 ∧ (thr < _calculate_iou b (bbox t'))%Q)).
Proof.
  pose proof (best_fold_spec thr matched b ts) as Hspec.
  unfold find_best.
  destruct (fold_left (best_step thr matched b) ts (0%Q, None))
    as [best_iou [k|]]; cbn [snd].
  - destruct Hspec as (t & Hin & Hk & -> & Hthr & Hpos & Hmax).
    split.
    + intros k' [= <-]. exists t. by split_and!.
    + split; [done|]. intros Hnone. exfalso. by eapply Hnone.
  - destruct Hspec as (_ & Hnone). split; [done|]. by split.
Qed.

Lemma find_best_flat (thr : Q) (matched : gset Z) (b : BBox)
    (ts : list (Z * Track)) :
  flat_box b → find_best thr matched b ts = None.
Proof.
  intros Hflat. pose proof (best_fold_spec thr matched b ts) as Hspec.
  unfold find_best.
  destruct (fold_left (best_step thr matched b) ts (0%Q, None))
    as [best_iou [k|]]; [|done].
  destruct Hspec as (t & _ & _ & -> & _ & Hpos & _).
  rewrite (iou_flat b (bbox t) Hflat) in Hpos. done.
Qed.

(** X3. A detection whose box has width zero or height zero never
    re-matches a track: whatever the state, [update] creates a new track
    for it and returns the detection tuple unchanged. *)
Theorem flat_detection_creates_track (self : FaceTracker)
    (detections : list Detection) (i : nat) (d : Detection) :
  detections !! i = Some d →
  flat_box (det_bbox d) →
  ∃ k, l_claims (update_loop self detections) !! i = Some (Created k)
       ∧ (update self detections).2 !! i = Some d.
Proof.
  intros Hd Hflat.
  destruct (update_loop_at self detections i d Hd) as [Hc Hr].
  unfold update. cbn [snd]. rewrite Hc, Hr.
  rewrite loop_body_create by by apply find_best_flat.
  cbn [l_claims l_results]. rewrite !last_snoc. eauto.
Qed.

Lemma flat_detection_creates_track_witness :
  ∃ k, l_claims (update_loop tracker1 [(10, 10, 0, 50, "Alice"%string, 1%Q, true)])
         !! 0%nat = Some (Created k)
       ∧ (update tracker1 [(10, 10, 0, 50, "Alice"%string, 1%Q, true)]).2 !! 0%nat
         = Some (10, 10, 0, 50, "Alice"%string, 1%Q, true).
Proof.
  apply (flat_detection_creates_track tracker1
           [(10, 10, 0, 50, "Alice"%string, 1%Q, true)] 0
           (10, 10, 0, 50, "Alice"%string, 1%Q, true)).
  - reflexivity.
  - left. reflexivity.
Defined.

(** ** Track ids *)

(** X4. From a well-formed state, [update] raises [next_id] by the number
    of tracks it creates; the ids of the tracks claimed or created during
    one call are pairwise distinct; and every created track gets an id
    between the old and the new [next_id] that no track of the old state
    has. *)
Theorem update_ids_fresh (self : FaceTracker) (detections : list Detection) :
  tracker_wf self →
  next_id (l_self (update_loop self detections))
  = next_id self
    + Z.of_nat (length (filter (λ c, is_created c = true)
                          (l_claims (update_loop self detections))))
  ∧ NoDup (map claim_id (l_claims (update_loop self detections)))
  ∧ ∀ i k, l_claims (update_loop self detections) !! i = Some (Created k) →
           next_id self ≤ k < next_id (l_self (update_loop self detections))
           ∧ k ∉ dict_keys (tracks self).
Proof.
  intros Hwf.
  assert (∀ k, k ∈ dict_keys (tracks self) → k < next_id self) as Hold
    by apply Hwf.
  cut (next_id (l_self (update_loop self detections))
       = next_id self
         + Z.of_nat (length (filter (λ c, is_created c = true)
                               (l_claims (update_loop self detections))))
       ∧ NoDup (map claim_id (l_claims (update_loop self detections)))
       ∧ (∀ c, c ∈ l_claims (update_loop self detections) →
               claim_id c ∈ l_matched (update_loop self detections))
       ∧ ∀ k, Created k ∈ l_claims (update_loop self detections) →
              next_id self ≤ k
              < next_id (l_self (update_loop self detections))).
  { intros (Hn & Hnd & _ & Hcr). split_and!; [done..|].
    intros i k Hi%list_elem_of_lookup_2. split; [by apply Hcr|].
    intros Hk%Hold. apply Hcr in Hi. lia. }
  induction detections as [|d ds IH] using rev_ind.
  { rewrite update_loop_nil. simpl. split_and!.
    - lia.
    - apply NoDup_nil_2.
    - intros c Hc. by apply elem_of_nil in Hc.
    - intros k Hk. by apply elem_of_nil in Hk. }
  destruct IH as (Hn & Hnd & Hin & Hcr).
  rewrite update_loop_snoc.
  pose proof (update_loop_wf self ds Hwf) as (_ & Hfresh & _).
  pose proof (update_loop_matched_fresh self ds) as Hmf.
  set (l := update_loop self ds) in *.
  assert (∀ k, k ∈ l_matched l → k < next_id (l_self l)) as Hlt.
  { intros k [t [Ht _]]%Hmf. apply Hfresh, dict_get_is_Some_keys. eauto. }
  loop_cases l d; rewrite Hbody; cbn [l_self l_claims l_matched next_id set_tracks];
    rewrite filter_app, map_app, length_app.
  - rewrite filter_cons_False, filter_nil by done. simpl. split_and!.
    + lia.
    + apply NoDup_app. split_and!; [done | | apply NoDup_singleton].
      intros x Hx ->%list_elem_of_singleton.
      apply list_elem_of_fmap in Hx as (c & -> & Hc). by apply Hin in Hc.
    + intros c [Hc| ->%list_elem_of_singleton]%elem_of_app; apply elem_of_union.
      * right. by apply Hin.
      * left. by apply elem_of_singleton.
    + intros k' [Hk'| [=]%list_elem_of_singleton]%elem_of_app. by apply Hcr.
  - rewrite filter_cons_True, filter_nil by done. simpl. split_and!.
    + lia.
    + apply NoDup_app. split_and!; [done | | apply NoDup_singleton].
      intros x Hx ->%list_elem_of_singleton.
      apply list_elem_of_fmap in Hx as (c & Heq & Hc).
      apply Hin, Hlt in Hc. simpl in Heq. lia.
    + intros c [Hc| ->%list_elem_of_singleton]%elem_of_app; apply elem_of_union.
      * right. by apply Hin.
      * left. by apply elem_of_singleton.
    + intros k' [Hk'%Hcr| [= ->]%list_elem_of_singleton]%elem_of_app; lia.
Qed.

Lemma update_ids_fresh_witness :
  next_id (l_self (update_loop tracker1
                     [seen "Alice" (8 # 10); ((200, 200, 40, 40), "Bob"%string, 1%Q, true)]))
  = 2.
Proof.
  rewrite (proj1 (update_ids_fresh tracker1
                    [seen "Alice" (8 # 10);
                     ((200, 200, 40, 40), "Bob"%string, 1%Q, true)]
                    (update_wf _ _ (init_wf _ _)))).
  vm_compute. reflexivity.
Defined.

(** ** Ages *)

(** X5. After every [update] call the age of every track is between 0
    and [max_age], provided no age was negative before and [max_age] is
    not negative. *)
Theorem update_ages_in_range (self : FaceTracker) (detections : list Detection) :
  dict_wf (tracks self) →
  0 ≤ max_age self →
  (∀ k t, dict_get k (tracks self) = Some t → 0 ≤ age t) →
  ages_ok (update self detections).1.
Proof.
  intros Hwf Hmax Hages k t Ht.
  rewrite update_max_age.
  destruct (decide (k ∈ matched_in self detections)) as [Hin|Hout].
  - destruct (update_matched self detections k Hin) as (t' & Ht' & Hzero).
    assert (t' = t) as -> by congruence. lia.
  - rewrite update_unmatched in Ht by done.
    destruct (dict_get k (tracks self)) as [t0|] eqn:Ht0; [|done].
    simpl in Ht. unfold aged in Ht. cbn [age] in Ht.
    destruct (Z.ltb_spec (max_age self) (age t0 + 1)); [done|].
    injection Ht as <-. cbn [age]. specialize (Hages _ _ Ht0). lia.
Qed.

Lemma update_ages_in_range_witness :
  ages_ok (update tracker1 [seen "Alice" (8 # 10)]).1.
Proof.
  apply (update_ages_in_range tracker1 [seen "Alice" (8 # 10)]).
  - apply (update_wf _ _ (init_wf _ _)).
  - vm_compute. discriminate.
  - intros k t. vm_compute tracker1. simpl.
    destruct (decide (k = 0)); [|done]. intros [= <-]. simpl. lia.
Defined.

(** ** Vote queues and confidences *)

Lemma loop_body_votes_ok l d :
  (0 < history_size (l_self l))%nat →
  in_unit (det_conf d) →
  tracker_wf (l_self l) →
  tracker_votes_ok (l_self l) →
  (∀ r, r ∈ l_results l → in_unit (det_conf r)) →
  tracker_votes_ok (l_self (loop_body l d))
  ∧ ∀ r, r ∈ l_results (loop_body l d) → in_unit (det_conf r).
Proof.
  intros Hpos Hc (_ & _ & Hvwf) Hok Hres.
  loop_cases l d; rewrite Hbody; simpl; split.
  - intros k' t'. simpl. destruct (decide (k = k')) as [<-|Hne].
    + rewrite dict_get_set_eq. intros [= <-]. cbn [name_votes].
      apply votes_after_ok; [done..|]. by eapply Hok.
    + rewrite dict_get_set_ne by done. apply Hok.
  - intros r [Hr| ->%list_elem_of_singleton]%elem_of_app; [by apply Hres|].
    unfold det_conf at 1. cbn [fst snd].
    assert (votes_ok (history_size (l_self l))
              (votes_after (history_size (l_self l)) d (name_votes track)))
      as Hva by (apply votes_after_ok; [done..|]; by eapply Hok).
    apply stabilize_in_unit; [|intros n q' Hq'; split; by eapply Hva|done].
    apply votes_after_wf. by eapply Hvwf.
  - intros k' t'. simpl.
    destruct (decide (next_id (l_self l) = k')) as [<-|Hne].
    + rewrite dict_get_set_eq. intros [= <-]. cbn [name_votes].
      by apply votes_created_ok.
    + rewrite dict_get_set_ne by done. apply Hok.
  - intros r [Hr| ->%list_elem_of_singleton]%elem_of_app; [by apply Hres|done].
Qed.

(** X6. With a positive queue capacity, a well-formed tracker whose vote
    queues are all non-empty, hold at most [history_size] confidences and
    only confidences between 0 and 1, fed detections whose confidences
    are between 0 and 1, keeps such queues, and every confidence that
    [update] returns is between 0 and 1. *)
Theorem update_votes_bounded (self : FaceTracker) (detections : list Detection) :
  tracker_wf self →
  (0 < history_size self)%nat →
  tracker_votes_ok self →
  (∀ d, d ∈ detections → in_unit (det_conf d)) →
  tracker_votes_ok (update self detections).1
  ∧ ∀ r, r ∈ (update self detections).2 → in_unit (det_conf r).
Proof.
  intros Hwf Hpos Hok Hdets. unfold update. cbn [fst snd].
  induction detections as [|d ds IH] using rev_ind.
  - rewrite update_loop_nil. cbn [l_self l_results]. split.
    + intros k t. cbn [tracks set_tracks history_size].
      rewrite age_tracks_get by apply Hwf.
      destruct (dict_get k (tracks self)) as [t0|] eqn:Ht0; [|done].
      simpl. unfold aged. destruct (_ <? _); [done|].
      intros [= <-]. cbn [name_votes]. by eapply Hok.
    + intros r Hr. by apply elem_of_nil in Hr.
  - rewrite update_loop_snoc.
    destruct IH as [IH1 IH2].
    { intros d' Hd'. apply Hdets, elem_of_app. by left. }
    destruct (update_loop_params self ds) as (Hhs & _ & _).
    apply loop_body_votes_ok; [by rewrite Hhs | | by apply update_loop_wf
                              | done | done].
    apply Hdets, elem_of_app. right. left.
Qed.

Lemma update_votes_bounded_witness :
  in_unit (det_conf (box0, "Alice"%string, (300000 # 500000)%Q, true)).
Proof.
  refine (proj2 (update_votes_bounded tracker5 [seen "Bob" 1] _ _ _ _)
            (box0, "Alice"%string, (300000 # 500000)%Q, true) _).
  - apply run_wf, init_wf.
  - vm_compute. lia.
  - intros k t.
    let v := eval vm_compute in tracker5 in change tracker5 with v.
    cbn [tracks history_size dict_get].
    destruct (decide (k = 0%Z)); [|done]. intros [= <-] name q.
    cbn [name_votes dict_get].
    destruct (decide (name = "Alice"%string)); [|done]. intros [= <-].
    split_and!; [done | cbn [length]; lia |].
    intros c Hc.
    repeat (apply elem_of_cons in Hc as [->|Hc]; [by split|]).
    by apply elem_of_nil in Hc.
  - intros d ->%list_elem_of_singleton. by split.
  - vm_compute. left.
Defined.

(** X7. When a detection re-matches a track, the track leaves the call
    with the detection's box, age 0 and the votes of before the call
    plus the vote of this detection, and the tuple returned for the
    detection carries the label these votes give.  A detection that is
    not known adds no vote: the label is the one the old votes give. *)
Theorem rematch_updates_track (self : FaceTracker)
    (detections : list Detection) (i : nat) (d : Detection) (k : Z)
    (t0 : Track) :
  tracker_wf self →
  detections !! i = Some d →
  l_claims (update_loop self detections) !! i = Some (Rematched k) →
  dict_get k (tracks self) = Some t0 →
  dict_get k (tracks (update self detections).1)
  = Some {| bbox := det_bbox d;
            name_votes := votes_after (history_size self) d (name_votes t0);
            age := 0 |}
  ∧ (update self detections).2 !! i
    = Some (det_bbox d,
            (stabilize (votes_after (history_size self) d (name_votes t0))
               (det_conf d)).1,
            (stabilize (votes_after (history_size self) d (name_votes t0))
               (det_conf d)).2,
            negb (bool_decide
                    ((stabilize
                        (votes_after (history_size self) d (name_votes t0))
                        (det_conf d)).1 = "Unknown"%string)))
  ∧ (det_known d = false →
     votes_after (history_size self) d (name_votes t0) = name_votes t0).
Proof.
  intros Hwf Hd Hc Ht0.
  destruct (update_loop_at self detections i d Hd) as [Hc' Hr'].
  unfold update. cbn [fst snd]. rewrite Hc' in Hc.
  assert (update_loop self detections
          = fold_left loop_body (drop (S i) detections)
              (loop_body (update_loop self (take i detections)) d)) as Hsplit.
  { rewrite <- (take_drop_middle detections i d Hd) at 1.
    by rewrite update_loop_split. }
  pose proof (update_loop_wf self (take i detections) Hwf) as Hwfi.
  pose proof (update_loop_matched_fresh self (take i detections)) as Hmfi.
  pose proof (update_loop_unmatched self (take i detections)) as Hun.
  destruct (update_loop_params self (take i detections)) as (Hhs & _ & _).
  set (l := update_loop self (take i detections)) in *.
  assert (k ∈ l_matched (loop_body l d)
          ∧ dict_get k (tracks (l_self (loop_body l d)))
            = Some {| bbox := det_bbox d;
                      name_votes :=
                        votes_after (history_size self) d (name_votes t0);
                      age := 0 |}
          ∧ last (l_results (loop_body l d))
            = Some (det_bbox d,
                    (stabilize
                       (votes_after (history_size self) d (name_votes t0))
                       (det_conf d)).1,
                    (stabilize
                       (votes_after (history_size self) d (name_votes t0))
                       (det_conf d)).2,
                    negb (bool_decide
                            ((stabilize
                                (votes_after (history_size self) d
                                   (name_votes t0))
                                (det_conf d)).1 = "Unknown"%string))))
    as (Hin & Hget & Hlast).
  { loop_cases l d; rewrite Hbody in *; cbn [l_claims l_results l_matched
      l_self tracks set_tracks] in *; rewrite last_snoc in Hc;
      [|done]. injection Hc as ->.
    assert (name_votes track = name_votes t0) as Hsame.
    { rewrite (Hun k Hm), age_tracks_get, Ht0 in Hg by apply Hwf.
      simpl in Hg. unfold aged in Hg. destruct (_ <? _); [done|].
      by injection Hg as <-. }
    rewrite Hhs, Hsame. split_and!.
    - apply elem_of_union. left. by apply elem_of_singleton.
    - apply dict_get_set_eq.
    - by rewrite last_snoc. }
  split_and!.
  - rewrite Hsplit, fold_loop_keeps_matched;
      [done | by apply loop_body_wf | by apply loop_body_matched_fresh | done].
  - etrans; [exact Hr'|exact Hlast].
  - intros Hk. unfold votes_after. by rewrite Hk, andb_false_r.
Qed.

Lemma rematch_updates_track_witness :
  (update tracker5 [(box0, "Unknown"%string, 3 # 10, false)]).2 !! 0%nat
  = Some (box0,
          (stabilize [("Alice"%string, replicate 5 (6 # 10)%Q)] (3 # 10)).1,
          (stabilize [("Alice"%string, replicate 5 (6 # 10)%Q)] (3 # 10)).2,
          negb (bool_decide
                  ((stabilize [("Alice"%string, replicate 5 (6 # 10)%Q)]
                      (3 # 10)).1 = "Unknown"%string))).
Proof.
  refine (proj1 (proj2 (rematch_updates_track tracker5
                          [(box0, "Unknown"%string, 3 # 10, false)] 0
                          (box0, "Unknown"%string, 3 # 10, false) 0
                          {| bbox := box0;
                             name_votes :=
                               [("Alice"%string, replicate 5 (6 # 10)%Q)];
                             age := 0 |}
                          _ _ _ _))).
  - apply run_wf, init_wf.
  - reflexivity.
  - vm_compute. reflexivity.
  - vm_compute. reflexivity.
Defined.

(** X8. With a positive capacity, [push_vote] leaves the name with a
    queue that ends with the new confidence, is the most recent part of
    the old queue followed by it, and holds one more entry than before
    unless the capacity is reached; the queues of the other names are
    unchanged. *)
Theorem push_vote_fifo (maxlen : nat) (name : string) (c : Q)
    (votes : list (string * Votes)) :
  (0 < maxlen)%nat →
  ∃ q, dict_get name (push_vote maxlen name c votes) = Some q
       ∧ last q = Some c
       ∧ length q
         = ((length (default [] (dict_get name votes)) + 1) `min` maxlen)%nat
       ∧ q `suffix_of` (default [] (dict_get name votes) ++ [c])
       ∧ ∀ other, other ≠ name →
           dict_get other (push_vote maxlen name c votes)
           = dict_get other votes.
Proof.
  intros Hpos. eexists. split; [apply push_vote_get|].
  split_and!.
  - by apply deque_append_last.
  - apply deque_append_length.
  - apply suffix_drop.
  - intros other Hne. by apply push_vote_get_ne.
Qed.

Lemma push_vote_fifo_witness :
  ∃ q, dict_get "Alice"%string
         (push_vote 2 "Alice" (3 # 10) [("Alice"%string, [1 # 10; 2 # 10]%Q)])
       = Some q
       ∧ last q = Some (3 # 10)%Q
       ∧ length q = 2%nat.
Proof.
  destruct (push_vote_fifo 2 "Alice" (3 # 10)
              [("Alice"%string, [1 # 10; 2 # 10]%Q)])
    as (q & Hq & Hlast & Hlen & _); [lia|].
  exists q. split_and!; [done | done | exact Hlen].
Defined.
End TrackerMore.

(* ===================================================================== *)
(** * Further properties of [FaceMatcher] *)
(* ===================================================================== *)

Module MatcherMoreFacts.
Import Gallery Matcher MatcherFacts.
Local Open Scope Q_scope.

(** ** The sort *)






(** ** The nearest sample *)

Lemma clamp01_mono a b : a <= b → clamp01 a <= clamp01 b.
Proof.
  intros Hab. unfold clamp01.
  apply Q.max_le_compat_l. by apply Q.min_le_compat_l.
Qed.

(** Where [match_face] gets when the distances can be computed. *)
Lemma match_face_run (tolerance : Q) (db : Store) (encoding : Encoding) ds :
  (get_all_encodings db).1 ≠ [] →
  _calculate_distances encoding (get_all_encodings db).1 = Some ds →
  ∃ i d name,
    np_argmin ds = Some i
    ∧ ds !! i = Some d
    ∧ (get_all_encodings db).2 !! i = Some name
    ∧ (∀ y, y ∈ ds → d <= y)
    ∧ match_face tolerance db encoding
      = if Qle_bool d tolerance
        then Some (Some name, clamp01 (1 - d / 2))
        else Some (None, 0).
Proof.
  intros Hne Hds.
  pose proof (get_all_encodings_lengths db) as Hlen.
  unfold match_face.
  destruct (get_all_encodings db) as [encs names]. simpl in *.
  pose proof (Forall2_length _ _ _ (distances_Forall2 _ _ _ Hds)) as Hlds.
  destruct (np_argmin_is_Some ds) as [i Hi].
  { intros ->. destruct encs; [done | simpl in Hlds; lia]. }
  destruct (np_argmin_spec _ _ Hi) as (d & Hd & Hmin).
  destruct (lookup_lt_is_Some_2 names i) as [name Hname].
  { rewrite <- Hlen, Hlds. by eapply lookup_lt_Some. }
  exists i, d, name. split_and!; [done..|].
  destruct encs; [done|]. by rewrite Hds, Hi, Hd, Hname.
Qed.

Lemma match_face_nil (tolerance : Q) (db : Store) (encoding : Encoding) :
  (get_all_encodings db).1 = [] →
  match_face tolerance db encoding = Some (None, 0).
Proof.
  unfold match_face. destruct (get_all_encodings db) as [encs names].
  simpl. by intros ->.
Qed.

Lemma match_face_raises (tolerance : Q) (db : Store) (encoding : Encoding) :
  (get_all_encodings db).1 ≠ [] →
  _calculate_distances encoding (get_all_encodings db).1 = None →
  match_face tolerance db encoding = None.
Proof.
  intros Hne Hds. unfold match_face.
  destruct (get_all_encodings db) as [encs names]. simpl in *.
  destruct encs; [done|]. by rewrite Hds.
Qed.

Lemma names_registered (db : Store) i name :
  (get_all_encodings db).2 !! i = Some name →
  ∃ p e, (name, p) ∈ database db ∧ e ∈ encodings p
         ∧ (get_all_encodings db).1 !! i = Some e.
Proof.
  intros Hn.
  destruct (lookup_lt_is_Some_2 (get_all_encodings db).1 i) as [e He].
  { rewrite get_all_encodings_lengths. by eapply lookup_lt_Some. }
  destruct (get_all_encodings_aligned (database db) i e name He Hn)
    as (p & Hp & Hin).
  eauto.
Qed.
End MatcherMoreFacts.

Module MatcherMore.
Import Gallery Matcher MatcherFacts MatcherMoreFacts Fixtures.
Local Open Scope Q_scope.

(** X9. Whenever [match_face] reports a match, the name is that of a
    registered identity holding a sample at a distance [d] within the
    tolerance that no other sample beats, and the confidence is
    clamp(1 - d/2, 0, 1): it lies between 0 and 1 and is never below
    min(1, 1 - tolerance/2).  When it reports no match the confidence is
    0.  And when every gallery sample has the length of the query, it
    raises nothing. *)
Theorem match_face_result (tolerance : Q) (db : Store) (encoding : Encoding) :
  (∀ name c,
     match_face tolerance db encoding = Some (Some name, c) →
     (∃ p e d, (name, p) ∈ database db ∧ e ∈ encodings p
               ∧ _calculate_distance encoding e = Some d
               ∧ d <= tolerance
               ∧ c = clamp01 (1 - d / 2)
               ∧ ∀ e' d', e' ∈ (get_all_encodings db).1 →
                          _calculate_distance encoding e' = Some d' →
                          d <= d')
     ∧ 0 <= c ∧ c <= 1
     ∧ Qmin 1 (1 - tolerance / 2) <= c)
  ∧ (∀ c, match_face tolerance db encoding = Some (None, c) → c = 0)
  ∧ ((∀ e, e ∈ (get_all_encodings db).1 → length e = length encoding) →
     is_Some (match_face tolerance db encoding)).
Proof.
  destruct (decide ((get_all_encodings db).1 = [])) as [Hnil|Hne].
  { rewrite (match_face_nil tolerance db encoding Hnil).
    split_and!; [done | by intros c [= <-] | eauto]. }
  destruct (_calculate_distances encoding (get_all_encodings db).1)
    as [ds|] eqn:Hds.
  - destruct (match_face_run tolerance db encoding ds Hne Hds)
      as (i & d & name & Hi & Hd & Hname & Hmin & ->).
    pose proof (distances_Forall2 _ _ _ Hds) as Hall.
    destruct (Qle_bool d tolerance) eqn:Hle.
    + apply Qle_bool_iff in Hle. split_and!; [|done|eauto].
      intros name' c [= <- <-].
      destruct (names_registered db i name Hname) as (p & e & Hp & He & Hei).
      destruct (Forall2_lookup_l _ _ _ _ _ Hall Hei) as (d' & Hd' & Hdist).
      assert (d' = d) as -> by congruence.
      split_and!.
      * exists p, e, d. split_and!; [done..|].
        intros e' d' [j Hj]%list_elem_of_lookup_1 He'.
        destruct (Forall2_lookup_l _ _ _ _ _ Hall Hj) as (d'' & Hd'' & Hdist').
        assert (d'' = d') as -> by congruence.
        apply Hmin. by eapply list_elem_of_lookup_2.
      * apply clamp01_range.
      * apply clamp01_range.
      * unfold clamp01. eapply Qle_trans; [|apply Q.le_max_r].
        apply Q.min_le_compat_l.
        unfold Qminus, Qdiv. apply Qplus_le_r, Qopp_le_compat.
        apply Qmult_le_compat_r; [done|]. discriminate.
    + split_and!; [done | by intros c [= <-] | eauto].
  - rewrite (match_face_raises tolerance db encoding Hne Hds).
    split_and!; [done..|]. intros Hlen.
    destruct (distances_is_Some encoding (get_all_encodings db).1 Hlen)
      as [ds Hds']. congruence.
Qed.

(** ** All matches *)



End MatcherMore.

(* ===================================================================== *)
(** * Properties of the frame loop *)
(* ===================================================================== *)

Module PipelineSpec.
Import Tracker TrackerFacts Gallery Matcher MatcherFacts MatcherMoreFacts.
Import Pipeline Fixtures.

Lemma match_face_name_registered (tolerance : Q) (db : Store)
    (encoding : Encoding) name c :
  match_face tolerance db encoding = Some (Some name, c) →
  is_Some (dict_get name (database db)) ∧ in_unit c.
Proof.
  intros Hm.
  destruct (decide ((get_all_encodings db).1 = [])) as [Hnil|Hne].
  { by rewrite (match_face_nil tolerance db encoding Hnil) in Hm. }
  destruct (_calculate_distances encoding (get_all_encodings db).1)
    as [ds|] eqn:Hds.
  - destruct (match_face_run tolerance db encoding ds Hne Hds)
      as (i & d & name' & _ & _ & Hname & _ & Hrun).
    rewrite Hrun in Hm. destruct (Qle_bool d tolerance); [|done].
    injection Hm as -> <-. split; [|apply clamp01_range].
    destruct (names_registered db i name Hname) as (p & e & Hp & _).
    apply dict_get_is_Some_keys, list_elem_of_fmap. by exists (name, p).
  - by rewrite (match_face_raises tolerance db encoding Hne Hds) in Hm.
Qed.

(** X11. The tuple that the frame loop builds for a face carries the
    face's box and is either (box, name, confidence, True), with the
    non-empty name of a registered identity and the matcher's confidence,
    which lies between 0 and 1, or (box, "Unknown", detection
    confidence, False).  So when no identity is registered under the
    name "Unknown", the tuple has one of the two shapes for which the
    tracker's output for a new track is the stabilized one. *)
Theorem label_face_shape (tolerance : Q) (db : Store) (f : Face)
    (d : Detection) :
  label_face tolerance db f = Some d →
  det_bbox d = face_bbox f
  ∧ ((det_known d = true ∧ det_name d ≠ ""%string
      ∧ is_Some (dict_get (det_name d) (database db))
      ∧ in_unit (det_conf d))
     ∨ (det_known d = false ∧ det_name d = "Unknown"%string
        ∧ det_conf d = f.1.2))
  ∧ (dict_get "Unknown"%string (database db) = None → pipeline_detection d).
Proof.
  destruct f as [[b dc] [enc|]]; unfold label_face, face_bbox; cbn [fst snd].
  - destruct (match_face tolerance db enc) as [[[name|] c]|] eqn:Hm; [| |done].
    + destruct (match_face_name_registered _ _ _ _ _ Hm) as [Hreg Hc].
      unfold truthy. case_bool_decide as Hname; simpl; intros [= <-].
      * split_and!; [done | right; done | intros _; right; done].
      * split_and!; [done | left; done |].
        intros Hunk. left. split_and!; [done..|].
        unfold det_name. simpl. intros ->. rewrite Hunk in Hreg.
        by destruct Hreg.
    + intros [= <-]. split_and!; [done | right; done | intros _; right; done].
  - intros [= <-]. split_and!; [done | right; done | intros _; right; done].
Qed.

Lemma label_face_shape_witness :
  pipeline_detection (box0, "Bob"%string, 1%Q, true).
Proof.
  refine (proj2 (proj2 (label_face_shape (6 # 10) two_people
                          (box0, 9 # 10, Some [1 # 4; 3 # 4]%Q)
                          (box0, "Bob"%string, 1%Q, true) _)) _).
  - vm_compute. reflexivity.
  - vm_compute. reflexivity.
Defined.

(** What [update] is fed: the box of the face, in one of the two shapes
    of the frame loop. *)
Lemma label_face_fed (tolerance : Q) (db : Store) (f : Face)
    (d : Detection) :
  label_face tolerance db f = Some d →
  det_bbox d = face_bbox f
  ∧ (dict_get "Unknown"%string (database db) = None → pipeline_detection d).
Proof.
  destruct f as [[b dc] [enc|]]; unfold label_face, face_bbox; cbn [fst snd].
  - destruct (match_face tolerance db enc) as [[[name|] c]|] eqn:Hm; [| |done].
    + destruct (match_face_name_registered _ _ _ _ _ Hm) as [Hreg _].
      unfold truthy. case_bool_decide as Hname; simpl; intros [= <-].
      * split; [done | intros _; right; done].
      * split; [done|]. intros Hunk. left. split_and!; [done..|].
        unfold det_name. simpl. intros ->. rewrite Hunk in Hreg.
        by destruct Hreg.
    + intros [= <-]. split; [done | intros _; right; done].
  - intros [= <-]. split; [done | intros _; right; done].
Qed.

Lemma label_faces_Forall2 (tolerance : Q) (db : Store) faces ds :
  label_faces tolerance db faces = Some ds →
  Forall2 (λ f d, label_face tolerance db f = Some d) faces ds.
Proof.
  revert ds. induction faces as [|f r IH]; intros ds; simpl.
  - intros [= <-]. constructor.
  - destruct (label_face tolerance db f) as [d|] eqn:Hd; [|done].
    destruct (label_faces tolerance db r) as [ds'|]; [|done].
    intros [= <-]. constructor; auto.
Qed.

(** X12. One processed frame, end to end: when no identity is registered
    under the name "Unknown" and the tracker state is well formed, the
    frame loop returns one tuple per face, in order and with the face's
    box, and in every returned tuple [is_known] is true exactly when the
    name is not "Unknown"; the new tracker state is well formed again. *)
Theorem process_frame_consistent (tolerance : Q) (db : Store)
    (tracker tracker' : FaceTracker) (faces : list Face)
    (out : list Detection) :
  tracker_wf tracker →
  dict_get "Unknown"%string (database db) = None →
  process_frame tolerance db tracker faces = Some (tracker', out) →
  length out = length faces
  ∧ map det_bbox out = map face_bbox faces
  ∧ (∀ r, r ∈ out →
          det_known r = negb (bool_decide (det_name r = "Unknown"%string)))
  ∧ tracker_wf tracker'.
Proof.
  intros Hwf Hunk. unfold process_frame.
  destruct (label_faces tolerance db faces) as [ds|] eqn:Hds; [|done].
  intros [= <- <-].
  pose proof (label_faces_Forall2 _ _ _ _ Hds) as Hall.
  destruct (update_loop_lengths tracker ds) as (Hlr & Hlc & Hbox).
  unfold update. cbn [fst snd].
  split_and!.
  - rewrite Hlr. symmetry. by eapply Forall2_length.
  - rewrite Hbox. clear -Hall.
    induction Hall as [|f d faces ds Hfd _ IH]; [done|].
    simpl. rewrite IH. f_equal.
    by apply label_face_fed in Hfd as [-> _].
  - intros r [i Hr]%list_elem_of_lookup_1.
    destruct (lookup_lt_is_Some_2 ds i) as [d Hd].
    { rewrite <- Hlr. by eapply lookup_lt_Some. }
    destruct (lookup_lt_is_Some_2 (l_claims (update_loop tracker ds)) i)
      as [c Hc].
    { rewrite Hlc. by eapply lookup_lt_Some. }
    destruct (update_loop_emitted tracker ds i c d r Hwf Hc Hr Hd)
      as (_ & t & _ & _ & Hem).
    destruct c as [k|k].
    + cbv zeta in Hem. by subst r.
    + destruct Hem as [-> _].
      destruct (Forall2_lookup_r _ _ _ _ _ Hall Hd) as (f & _ & Hfd).
      apply label_face_fed in Hfd as (_ & Hpipe).
      destruct (Hpipe Hunk) as [(Hk & _ & Hn)|(Hk & Hn)]; rewrite Hk.
      * by rewrite bool_decide_eq_false_2.
      * by rewrite bool_decide_eq_true_2.
  - by apply update_loop_wf.
Qed.

Lemma process_frame_consistent_witness :
  length [(box0, "Bob"%string, 1%Q, true)]
  = length [(box0, 9 # 10, Some [1 # 4; 3 # 4])%Q].
Proof.
  refine (proj1 (process_frame_consistent (6 # 10) two_people tracker0
                   (update tracker0 [(box0, "Bob"%string, 1%Q, true)]).1
                   [(box0, 9 # 10, Some [1 # 4; 3 # 4])%Q]
                   [(box0, "Bob"%string, 1%Q, true)] _ _ _)).
  - apply init_wf.
  - vm_compute. reflexivity.
  - vm_compute. reflexivity.
Defined.

(** ** An identity registered under the name "Unknown" *)

(** C4. The emitted [is_known] is not (stabilized name != "Unknown") on
    every path of [update].  A face recognised as an identity that is
    registered under the name "Unknown" reaches the tracker as
    (bbox, "Unknown", confidence, True).  The call that creates its
    track (line 98) emits that tuple as it came: [is_known] is True
    although the track's only vote, and so its stabilized name, is
    "Unknown".  The next call re-matches the track (line 86) and emits,
    for the same face and the same name, [is_known] False, as the claim
    says. *)
Theorem unknown_identity_is_known_flips :
  let face : Face := (box0, 9 # 10, Some [1 # 4; 3 # 4])%Q in
  let d : Detection := (box0, "Unknown"%string, 1%Q, true) in
  label_face (6 # 10) unknown_person face = Some d
  ∧ ∃ (after1 after2 : FaceTracker) (t : Track) (r1 r2 : Detection),
      process_frame (6 # 10) unknown_person tracker0 [face]
      = Some (after1, [r1])
      ∧ l_claims (update_loop tracker0 [d]) = [Created 0%Z]
      ∧ dict_get 0%Z (tracks after1) = Some t
      ∧ name_votes t = [("Unknown"%string, [1%Q])]
      ∧ (stabilize (name_votes t) (det_conf d)).1 = "Unknown"%string
      ∧ r1 = (box0, "Unknown"%string, 1%Q, true)
      ∧ det_known r1 ≠ negb (bool_decide (det_name r1 = "Unknown"%string))
      ∧ process_frame (6 # 10) unknown_person after1 [face]
        = Some (after2, [r2])
      ∧ l_claims (update_loop after1 [d]) = [Rematched 0%Z]
      ∧ det_bbox r2 = box0
      ∧ det_name r2 = "Unknown"%string
      ∧ (det_conf r2 == 1)%Q
      ∧ det_known r2 = false.
Proof.
  intros face d. split; [vm_compute; reflexivity|].
  eexists _, _, _, _, _.
  split; [vm_compute; reflexivity|].
  split; [vm_compute; reflexivity|].
  split; [vm_compute; reflexivity|].
  split; [vm_compute; reflexivity|].
  split; [vm_compute; reflexivity|].
  split; [vm_compute; reflexivity|].
  split; [vm_compute; discriminate|].
  split; [vm_compute; reflexivity|].
  split; [vm_compute; reflexivity|].
  split; [vm_compute; reflexivity|].
  split; [vm_compute; reflexivity|].
  split; [vm_compute; reflexivity|].
  vm_compute; reflexivity.
Qed.
End PipelineSpec.

(* ===================================================================== *)
(** * Further properties of the in-memory gallery *)
(* ===================================================================== *)

Module GalleryMoreFacts.
Import Gallery GalleryFacts.

Lemma dict_del_absent {K V} `{EqDecision K} (k : K) (d : list (K * V)) :
  dict_get k d = None → dict_del k d = d.
Proof.
  induction d as [|[k' v'] r IH]; simpl; [done|].
  destruct (decide (k = k')); [done|]. intros Hg. by rewrite IH.
Qed.


Lemma dict_set_snoc {K V} `{EqDecision K} (k : K) (v v' : V) (d : list (K * V)) :
  dict_get k d = None → dict_set k v' (d ++ [(k, v)]) = d ++ [(k, v')].
Proof.
  induction d as [|[k0 v0] r IH]; simpl.
  - by rewrite decide_True.
  - destruct (decide (k = k0)); [done|]. intros Hg. by rewrite IH.
Qed.

Lemma dict_get_snoc {K V} `{EqDecision K} (k k' : K) (v : V)
    (d : list (K * V)) :
  dict_get k (d ++ [(k', v)])
  = match dict_get k d with
    | Some x => Some x
    | None => if decide (k = k') then Some v else None
    end.
Proof.
  induction d as [|[k0 v0] r IH]; simpl; [done|].
  by destruct (decide (k = k0)).
Qed.

(** The table after [add_person], whatever the [metadata] argument. *)
Lemma add_person_database name encoding metadata_arg added updated s :
  ∃ l,
    database (add_person name encoding metadata_arg added updated s).1
    = match dict_get name (database s) with
      | Some p =>
          dict_set name
            {| encodings := encodings p ++ [encoding]; metadata := metadata p |}
            (database s)
      | None =>
          database s ++ [(name, {| encodings := [encoding]; metadata := l |})]
      end.
Proof.
  destruct (dict_get name (database s)) as [p|] eqn:Hg.
  - exists 0. by rewrite (add_person_known _ _ _ _ _ _ _ Hg).
  - unfold add_person.
    assert (dict_mem name (database s) = false) as ->
      by (by apply dict_mem_false).
    destruct (metadata_or_new metadata_arg (heap s)) as [l h].
    exists l. cbn [database heap]. rewrite dict_get_set_eq. cbn [fst database].
    rewrite (dict_set_absent name _ (database s) Hg).
    by rewrite dict_set_snoc.
Qed.

(** Replacing the entry of a registered name: the flattened views. *)
Lemma flat_map_dict_set {B} (f : string * Person → list B)
    (name : string) (p p' : Person) (db : list (string * Person)) :
  dict_get name db = Some p →
  ∃ before after,
    flat_map f db = before ++ f (name, p) ++ after
    ∧ flat_map f (dict_set name p' db) = before ++ f (name, p') ++ after.
Proof.
  induction db as [|[k v] r IH]; simpl; [done|].
  destruct (decide (name = k)) as [->|Hne].
  - intros [= ->]. exists [], (flat_map f r). done.
  - intros Hg. destruct (IH Hg) as (before & after & Hold & Hnew).
    exists (f (k, v) ++ before), after. simpl.
    rewrite Hold, Hnew. by rewrite <- !app_assoc.
Qed.

Lemma sum_list_app (l1 l2 : list nat) :
  sum_list (l1 ++ l2) = sum_list l1 + sum_list l2.
Proof. induction l1 as [|x l1 IH]; simpl; [done|]. rewrite IH. lia. Qed.

Lemma total_encodings_flat (db : list (string * Person)) :
  sum_list (map (λ kv, length (encodings kv.2)) db)
  = length (flat_map (λ kv, encodings kv.2) db).
Proof.
  induction db as [|kv r IH]; simpl; [done|].
  by rewrite length_app, IH.
Qed.
End GalleryMoreFacts.

Module GalleryMore.
Import Gallery GalleryFacts GalleryMoreFacts Fixtures.

(** X13. [remove_person] returns [True] exactly when the name was
    registered; afterwards the name is not registered, every other
    identity is as before, and a second removal returns [False]. *)
Theorem remove_person_removes (name : string) (s : Store) :
  ((remove_person name s).2 = true ↔ is_Some (get_person name s))
  ∧ get_person name (remove_person name s).1 = None
  ∧ (∀ other, other ≠ name →
       get_person other (remove_person name s).1 = get_person other s
       ∧ metadata_of other (remove_person name s).1 = metadata_of other s)
  ∧ (remove_person name (remove_person name s).1).2 = false.
Proof.
  unfold remove_person, get_person, metadata_of.
  destruct (dict_mem name (database s)) eqn:Hmem; cbn [fst snd database heap].
  - apply dict_mem_true in Hmem as Hsome. split_and!.
    + done.
    + apply dict_get_del_eq.
    + intros other Hne. by rewrite dict_get_del_ne.
    + assert (dict_mem name (dict_del name (database s)) = false) as ->; [|done].
      apply dict_mem_false, dict_get_del_eq.
  - apply dict_mem_false in Hmem as Hnone. split_and!.
    + rewrite Hnone. split; [done | by intros [? ?]].
    + done.
    + done.
    + by rewrite Hmem.
Qed.



(** X15. [get_stats] counts the identities and the samples:
    [total_encodings] is the number of samples [get_all_encodings]
    lists, the average times the number of identities is that total, and
    the empty gallery gives (0, 0, 0).  One [add_person] call raises
    [total_encodings] by exactly 1 and [total_people] by 1 for a new name
    and by 0 for a registered one. *)
Theorem get_stats_counts (name : string) (encoding : Encoding)
    (metadata_arg : option loc) (added updated : string) (s : Store) :
  (get_stats s).1.2 = length (get_all_encodings s).1
  ∧ ((get_stats s).2 * inject_Z (Z.of_nat (get_stats s).1.1)
     == inject_Z (Z.of_nat (get_stats s).1.2))%Q
  ∧ get_stats empty_store = (0, 0, 0%Q)
  ∧ (get_stats (add_person name encoding metadata_arg added updated s).1).1.2
    = S (get_stats s).1.2
  ∧ (get_stats (add_person name encoding metadata_arg added updated s).1).1.1
    = match get_person name s with
      | Some _ => (get_stats s).1.1
      | None => S (get_stats s).1.1
      end.
Proof.
  unfold get_stats, get_person. cbn [fst snd].
  split_and!.
  - apply total_encodings_flat.
  - case_bool_decide as Hpos.
    + field. unfold Qeq. simpl. lia.
    + destruct (database s); [simpl; reflexivity | simpl in Hpos; lia].
  - reflexivity.
  - destruct (add_person_database name encoding metadata_arg added updated s)
      as [l ->].
    rewrite !total_encodings_flat.
    destruct (dict_get name (database s)) as [p|] eqn:Hg.
    + destruct (flat_map_dict_set (λ kv, encodings kv.2) name p
                  {| encodings := encodings p ++ [encoding];
                     metadata := metadata p |} (database s) Hg)
        as (before & after & -> & ->).
      cbn [snd encodings]. rewrite !length_app. simpl. lia.
    + rewrite flat_map_app, length_app. simpl. lia.
  - destruct (add_person_database name encoding metadata_arg added updated s)
      as [l ->].
    destruct (dict_get name (database s)) as [p|] eqn:Hg.
    + assert (length (dict_keys (dict_set name
                {| encodings := encodings p ++ [encoding];
                   metadata := metadata p |} (database s)))
              = length (dict_keys (database s))) as Hlen.
      { rewrite dict_keys_set.
        assert (dict_mem name (database s) = true) as ->; [|done].
        apply dict_mem_true. eauto. }
      unfold dict_keys in Hlen. by rewrite !length_map in Hlen.
    + rewrite length_app. simpl. lia.
Qed.

(** X16. In the flattened gallery that the matcher searches, one
    [add_person] call adds exactly one sample and one name: the new lists
    are rearrangements of the old ones with the sample, respectively the
    name, added, and for a name that was not registered the sample and
    the name are appended at the end. *)
Theorem get_all_encodings_add (name : string) (encoding : Encoding)
    (metadata_arg : option loc) (added updated : string) (s : Store) :
  (get_all_encodings (add_person name encoding metadata_arg added updated s).1).1
  ≡ₚ (get_all_encodings s).1 ++ [encoding]
  ∧ (get_all_encodings (add_person name encoding metadata_arg added updated s).1).2
    ≡ₚ (get_all_encodings s).2 ++ [name]
  ∧ (get_person name s = None →
     get_all_encodings (add_person name encoding metadata_arg added updated s).1
     = ((get_all_encodings s).1 ++ [encoding],
        (get_all_encodings s).2 ++ [name])).
Proof.
  unfold get_all_encodings, get_person. cbn [fst snd].
  destruct (add_person_database name encoding metadata_arg added updated s)
    as [l ->].
  destruct (dict_get name (database s)) as [p|] eqn:Hg.
  - split_and!; [| |done].
    + destruct (flat_map_dict_set (λ kv, encodings kv.2) name p
                  {| encodings := encodings p ++ [encoding];
                     metadata := metadata p |} (database s) Hg)
        as (before & after & -> & ->).
      cbn [snd encodings]. rewrite <- !app_assoc.
      do 2 apply Permutation_app_head. apply Permutation_app_comm.
    + destruct (flat_map_dict_set
                  (λ kv, map (λ _, kv.1) (encodings kv.2)) name p
                  {| encodings := encodings p ++ [encoding];
                     metadata := metadata p |} (database s) Hg)
        as (before & after & -> & ->).
      cbn [fst snd encodings]. rewrite map_app. simpl.
      rewrite <- !app_assoc.
      do 2 apply Permutation_app_head. apply Permutation_app_comm.
  - rewrite !flat_map_app. simpl. done.
Qed.
End GalleryMore.

(* ===================================================================== *)
(** * Further properties of saving and loading the gallery *)
(* ===================================================================== *)

Module PersistMore.
Import Gallery Persist PersistFacts Fixtures.

Section WithSerializers.
Variable pickle_dumps : Store → string.
Variable pickle_loads : string → outcome pyobject.
Variable json_dumps : list (string * (nat * string * string)) → string.
Variable with_suffix : string → string → string.
Variable parent : string → string.
Variable joinpath : string → string → string.

(** X17. Saving and loading round-trip.  When [pickle] reads back what
    it wrote for this gallery, the metadata path differs from the gallery
    path, the gallery path holds no file that is closed to reading, and
    [save_database] returned [True], then [_load_database] in the world
    the save left returns the saved gallery and prints nothing. *)
Theorem save_then_load (self : FaceDatabase) (w : World) :
  pickle_loads (pickle_dumps (store self))
  = Returned (PyGallery (store self)) →
  with_suffix (db_path self) ".json" ≠ db_path self →
  stays_readable (fs w) (db_path self) →
  (save_database pickle_dumps json_dumps with_suffix parent joinpath
     self w).1 = Returned true →
  ∃ w'',
    _load_database pickle_loads (db_path self)
      (save_database pickle_dumps json_dumps with_suffix parent joinpath
         self w).2
    = (Returned (PyGallery (store self)), w'')
    ∧ stdout w''
      = stdout (save_database pickle_dumps json_dumps with_suffix parent
                  joinpath self w).2.
Proof.
  intros Hrt Hmp Hread Htrue.
  assert (opens parent (fs w) (db_path self) = true) as Hdb.
  { destruct (save_database_cases pickle_dumps json_dumps with_suffix
                parent joinpath self w) as (b & w' & Hrun & _ & Hcases).
    rewrite Hrun in Htrue. injection Htrue as ->.
    destruct Hcases as [(_ & ? & _)|(? & _)]; done. }
  pose proof (save_gallery_file pickle_dumps json_dumps with_suffix parent
                joinpath self w Hdb Hmp) as Hfile.
  unfold written in Hfile.
  assert (match fs w !! db_path self with
          | Some (RegFile r _ _) => r
          | _ => true
          end = true) as Hr.
  { unfold stays_readable in Hread.
    by destruct (fs w !! db_path self) as [[]|]. }
  rewrite Hr in Hfile.
  destruct (load_database_ok pickle_loads _ _ _ _ _ Hfile Hrt)
    as (w'' & Hload & _ & Hout).
  eauto.
Qed.

(** X18. When the gallery path cannot be opened for writing (a file
    closed to writing, or a directory), [save_database] makes that one
    call, prints one error line, returns [False] and leaves every file
    as it was. *)
Theorem save_unwritable (self : FaceDatabase) (w : World) :
  can_open_write (fs w) (db_path self) = false →
  ∃ e w',
    save_database pickle_dumps json_dumps with_suffix parent joinpath self w
    = (Returned false, w')
    ∧ fs w' = fs w
    ∧ stdout w' = stdout w ++ ["Error saving database: " +:+ e]
    ∧ calls_between w w' = [OpOpenWrite (db_path self)].
Proof.
  intros Hdb. unfold save_database, try_except. rewrite bind_run.
  destruct (open_write_fail parent (db_path self) w
              (can_open_write_opens parent _ _ Hdb))
    as (e & w1 & Hrun & Hfs & Hout & _ & Htr & _).
  rewrite Hrun. exists e. eexists. split; [reflexivity|]. simpl.
  split_and!; [done | congruence |].
  unfold calls_between. simpl. rewrite Htr. by rewrite drop_app_length.
Qed.

(** X19. [save_database] touches no path but the gallery file, the
    metadata file beside it, the backup directory and the backup file
    named after the clock: every other path holds afterwards what it
    held before, whatever the save returns. *)
Theorem save_touches_only_its_files (self : FaceDatabase) (w : World)
    (p : string) :
  let bd := joinpath (parent (db_path self)) "backups" in
  p ≠ db_path self →
  p ≠ with_suffix (db_path self) ".json" →
  p ≠ bd →
  p ≠ joinpath bd ("face_database_" +:+ clock w +:+ ".pkl") →
  fs (save_database pickle_dumps json_dumps with_suffix parent joinpath
        self w).2 !! p
  = fs w !! p.
Proof.
  intros bd Hdb Hmp Hbd Hbp.
  destruct (save_database_cases pickle_dumps json_dumps with_suffix
              parent joinpath self w) as (b & w' & -> & _ & Hcases).
  cbn [snd].
  destruct Hcases as [(_ & _ & -> & _)|(_ & f1 & Hf1 & Hcases)]; [done|].
  assert (f1 !! p = fs w !! p) as Hl1
    by (by rewrite Hf1, lookup_insert_ne).
  destruct Hcases as [(_ & _ & -> & _)|(_ & f2 & js & Hf2 & Hcases)]; [done|].
  assert (f2 !! p = fs w !! p) as Hl2
    by (by rewrite Hf2, lookup_insert_ne).
  destruct Hcases as [(_ & _ & -> & _)|[(_ & _ & _ & -> & _)|Hcases]];
    [done..|].
  destruct Hcases as (_ & _ & _ & f3 & Hf3 & Hcases).
  assert (f3 !! p = fs w !! p) as Hl3
    by (by rewrite Hf3, lookup_insert_ne).
  destruct Hcases as [(_ & -> & _)|(_ & -> & _)]; [done|].
  by rewrite lookup_insert_ne.
Qed.

(** X20. What the result of [save_database] tells.  Let the metadata
    path, the backup directory and the parent directories of both be
    distinct from the gallery path, and the backup directory and its
    parent distinct from the metadata path.  A [True] result means that
    the gallery path and the metadata path could be opened for writing
    (a writable file was there, or nothing was and the directory above
    is there and writable) and, with backups enabled, that the backup
    directory was there or could be made in the directory above; the
    gallery file then holds the pickled gallery, and at most one line
    was printed, a warning.  A [False] result comes with exactly one
    error line.  A backup file that cannot be opened does not make the
    result [False]: when the save returns [True] although the backup
    path holds what cannot be opened for writing (a directory, a file
    closed to writing, a path whose status cannot be read), it has
    printed exactly one warning. *)
Theorem save_result (self : FaceDatabase) (w : World) :
  let db := db_path self in
  let mp := with_suffix (db_path self) ".json" in
  let bd := joinpath (parent (db_path self)) "backups" in
  let bp := joinpath bd ("face_database_" +:+ clock w +:+ ".pkl") in
  mp ≠ db → bd ≠ db → bd ≠ mp →
  parent mp ≠ db → parent bd ≠ db → parent bd ≠ mp →
  ∃ b w',
    save_database pickle_dumps json_dumps with_suffix parent joinpath self w
    = (Returned b, w')
    ∧ (b = true →
       opens parent (fs w) db = true
       ∧ opens parent (fs w) mp = true
       ∧ (backup_enabled self = true → makes_dir parent (fs w) bd = true)
       ∧ fs w' !! db = Some (written (fs w) db (pickle_dumps (store self)))
       ∧ (stdout w' = stdout w
          ∨ ∃ e, stdout w'
                 = stdout w ++ ["Warning: Could not create backup: " +:+ e]))
    ∧ (b = false →
       ∃ e, stdout w' = stdout w ++ ["Error saving database: " +:+ e])
    ∧ (b = true → backup_enabled self = true →
       bp ≠ db → bp ≠ mp → bp ≠ bd →
       can_open_write (fs w) bp = false →
       ∃ e, stdout w'
            = stdout w ++ ["Warning: Could not create backup: " +:+ e]).
Proof.
  intros db mp bd bp Hmp Hbd Hbm Hpm Hpb Hpbm.
  pose proof (save_gallery_file pickle_dumps json_dumps with_suffix parent
                joinpath self w) as Hfile.
  destruct (save_database_cases pickle_dumps json_dumps with_suffix
              parent joinpath self w) as (b & w' & Hrun & _ & Hcases).
  rewrite Hrun in Hfile. cbn [snd] in Hfile.
  fold mp in Hcases. fold bd in Hcases. fold bp in Hcases.
  fold db in Hcases, Hfile.
  exists b, w'. split; [done|].
  destruct Hcases as [(_ & -> & _ & Herr)|(Hdb & f1 & Hf1 & Hcases)].
  { split_and!; [done | by intros _ | done]. }
  assert (opens parent f1 mp = opens parent (fs w) mp) as Hc1
    by (rewrite Hf1; by apply opens_insert_ne).
  rewrite Hc1 in Hcases.
  destruct Hcases as [(_ & -> & _ & Herr)|(Hmpo & f2 & js & Hf2 & Hcases)].
  { split_and!; [done | by intros _ | done]. }
  assert (makes_dir parent f2 bd = makes_dir parent (fs w) bd) as Hc2.
  { rewrite Hf2, makes_dir_insert_ne by done.
    rewrite Hf1. by apply makes_dir_insert_ne. }
  rewrite Hc2 in Hcases.
  destruct Hcases
    as [(Hbk & -> & _ & Hout)
       |[(_ & _ & -> & _ & Herr)|(Hbk & Hmk & -> & f3 & Hf3 & Hcases)]].
  - split_and!; [| done | intros _ ?; congruence].
    intros _. split_and!; [done | done | congruence | by apply Hfile | by left].
  - split_and!; [done | by intros _ | done].
  - split_and!; [| done |].
    + intros _. split_and!; [done | done | done | by apply Hfile |].
      destruct Hcases as [(_ & _ & Hw)|(_ & _ & Hout)]; [by right | by left].
    + intros _ _ Hbpdb Hbpmp Hbpbd Hno.
      assert (opens parent f3 bp = false) as Hno3.
      { apply can_open_write_opens.
        rewrite Hf3, can_open_write_insert_ne by done.
        rewrite Hf2, can_open_write_insert_ne by done.
        rewrite Hf1, can_open_write_insert_ne by done. exact Hno. }
      destruct Hcases as [(_ & _ & Hw)|(Hyes & _)]; [done | congruence].
Qed.

(** X21. [clear_database] leaves the object with no identity, whatever
    the save returns.  When the gallery path cannot be opened for
    writing the call returns [False] and the files are as before, so
    that [_load_database] still returns the gallery it returned before
    the call; when the save succeeds (and [pickle] reads back the empty
    gallery, the metadata path differs from the gallery path and the
    file is open to reading), [_load_database] returns a gallery with no
    identity. *)
Theorem clear_database_result (self : FaceDatabase) (w : World) :
  ∃ cleared b w',
    clear_database pickle_dumps json_dumps with_suffix parent joinpath self w
    = (Returned (cleared, b), w')
    ∧ db_path cleared = db_path self
    ∧ get_person_names (store cleared) = []
    ∧ (can_open_write (fs w) (db_path self) = false →
       b = false
       ∧ (_load_database pickle_loads (db_path self) w').1
         = (_load_database pickle_loads (db_path self) w).1)
    ∧ (b = true →
       pickle_loads (pickle_dumps (store cleared))
       = Returned (PyGallery (store cleared)) →
       with_suffix (db_path self) ".json" ≠ db_path self →
       stays_readable (fs w) (db_path self) →
       ∃ s, (_load_database pickle_loads (db_path self) w').1
            = Returned (PyGallery s)
            ∧ get_person_names s = []).
Proof.
  unfold clear_database. rewrite bind_run.
  set (cleared := {| db_path := db_path self;
                     backup_enabled := backup_enabled self;
                     store := {| database := [];
                                 heap := heap (store self) |} |}).
  pose proof (save_gallery_file pickle_dumps json_dumps with_suffix parent
                joinpath cleared w) as Hfile.
  destruct (save_database_cases pickle_dumps json_dumps with_suffix
              parent joinpath cleared w) as (b & w' & Hrun & _ & Hcases).
  rewrite Hrun in Hfile |- *. cbn [snd] in Hfile.
  exists cleared, b, w'. split; [reflexivity|].
  split_and!; [done | done | |].
  - intros Hdb.
    apply (can_open_write_opens parent) in Hdb.
    destruct Hcases as [(_ & -> & Hfs & _)|(Hyes & _)];
      [|cbn [db_path cleared] in Hyes; congruence].
    split; [done|]. by apply load_database_fs.
  - intros -> Hrt Hmp Hread.
    assert (opens parent (fs w) (db_path self) = true) as Hdb.
    { destruct Hcases as [(_ & ? & _)|(? & _)]; done. }
    specialize (Hfile Hdb Hmp). unfold written in Hfile.
    assert (match fs w !! db_path self with
            | Some (RegFile r _ _) => r
            | _ => true
            end = true) as Hr.
    { unfold stays_readable in Hread.
      by destruct (fs w !! db_path self) as [[]|]. }
    cbn [db_path cleared] in Hfile. rewrite Hr in Hfile.
    destruct (load_database_ok pickle_loads _ _ _ _ _ Hfile Hrt)
      as (w'' & Hload & _).
    exists (store cleared). by rewrite Hload.
Qed.
End WithSerializers.

Lemma save_then_load_witness :
  ∃ w'',
    _load_database toy_unpickle "db.pkl"
      (save_database toy_dumps toy_json toy_with_suffix toy_parent
         toy_joinpath facedb0 world0).2
    = (Returned (PyGallery two_people), w'')
    ∧ stdout w''
      = stdout (save_database toy_dumps toy_json toy_with_suffix toy_parent
                  toy_joinpath facedb0 world0).2.
Proof.
  refine (save_then_load toy_dumps toy_unpickle toy_json toy_with_suffix
            toy_parent toy_joinpath facedb0 world0 _ _ _ _).
  - vm_compute. reflexivity.
  - vm_compute. discriminate.
  - vm_compute. reflexivity.
  - vm_compute. reflexivity.
Defined.

Lemma save_unwritable_witness :
  ∃ e w',
    save_database toy_dumps toy_json toy_with_suffix toy_parent toy_joinpath
      facedb0 world_dir
    = (Returned false, w')
    ∧ fs w' = fs world_dir
    ∧ stdout w' = stdout world_dir ++ ["Error saving database: " +:+ e]
    ∧ calls_between world_dir w' = [OpOpenWrite "db.pkl"].
Proof.
  refine (save_unwritable toy_dumps toy_json toy_with_suffix toy_parent
            toy_joinpath facedb0 world_dir _).
  vm_compute. reflexivity.
Defined.

Lemma save_touches_only_its_files_witness :
  fs (save_database toy_dumps toy_json toy_with_suffix toy_parent
        toy_joinpath
        {| db_path := "new.pkl"; backup_enabled := true;
           store := two_people |} world0).2 !! "db.pkl"%string
  = Some (RegFile true true "Alice").
Proof.
  refine (save_touches_only_its_files toy_dumps toy_json toy_with_suffix
            toy_parent toy_joinpath
            {| db_path := "new.pkl"; backup_enabled := true;
               store := two_people |} world0 "db.pkl" _ _ _ _);
    vm_compute; discriminate.
Defined.

Lemma save_result_witness :
  ∃ e w',
    save_database toy_dumps toy_json toy_with_suffix toy_parent toy_joinpath
      facedb0 world_backup_locked
    = (Returned true, w')
    ∧ fs w' !! "db.pkl"%string = Some (RegFile true true "Alice,Bob")
    ∧ stdout w' = ["Warning: Could not create backup: " +:+ e].
Proof.
  destruct (save_result toy_dumps toy_json toy_with_suffix toy_parent
              toy_joinpath facedb0 world_backup_locked)
    as (b & w' & Hrun & Htrue & _ & Hwarn).
  - vm_compute. discriminate.
  - vm_compute. discriminate.
  - vm_compute. discriminate.
  - vm_compute. discriminate.
  - vm_compute. discriminate.
  - vm_compute. discriminate.
  - assert ((save_database toy_dumps toy_json toy_with_suffix toy_parent
               toy_joinpath facedb0 world_backup_locked).1 = Returned true)
      as Hb by (vm_compute; reflexivity).
    rewrite Hrun in Hb. injection Hb as Hb.
    destruct (Htrue Hb) as (_ & _ & _ & Hfile & _).
    destruct (Hwarn Hb) as [e Hout].
    + reflexivity.
    + vm_compute. discriminate.
    + vm_compute. discriminate.
    + vm_compute. discriminate.
    + vm_compute. reflexivity.
    + exists e, w'. split_and!.
      * rewrite Hrun. by rewrite Hb.
      * etrans; [exact Hfile|]. vm_compute. reflexivity.
      * exact Hout.
Defined.
End PersistMore.

(* ===================================================================== *)
(** * Registering a sample and recognising it *)
(* ===================================================================== *)

Module EnrollFacts.
Import Gallery GalleryFacts GalleryMoreFacts Matcher MatcherFacts
  MatcherMoreFacts.
Local Open Scope Q_scope.

(** The samples the matcher searches after one [add_person] call. *)
Lemma get_all_encodings_add_elem name encoding metadata_arg added updated s e :
  e ∈ (get_all_encodings
         (add_person name encoding metadata_arg added updated s).1).1
  ↔ e ∈ (get_all_encodings s).1 ∨ e = encoding.
Proof.
  unfold get_all_encodings. cbn [fst].
  destruct (add_person_database name encoding metadata_arg added updated s)
    as [l ->].
  destruct (dict_get name (database s)) as [p|] eqn:Hg.
  - destruct (flat_map_dict_set (λ kv, encodings kv.2) name p
                {| encodings := encodings p ++ [encoding];
                   metadata := metadata p |} (database s) Hg)
      as (before & after & -> & ->).
    cbn [snd encodings]. rewrite !elem_of_app, list_elem_of_singleton.
    tauto.
  - rewrite flat_map_app. simpl.
    rewrite elem_of_app, list_elem_of_singleton. tauto.
Qed.

(** The entries of the table after one [add_person] call. *)
Lemma dict_set_elem {K V} `{EqDecision K} (k k' : K) (v v' : V)
    (d : list (K * V)) :
  (k', v') ∈ dict_set k v d → (k', v') ∈ d ∨ k' = k.
Proof.
  induction d as [|[k0 v0] r IH]; simpl.
  - intros [= -> ->]%list_elem_of_singleton. by right.
  - destruct (decide (k = k0)) as [->|Hne].
    + intros [[= -> ->]|Hin]%elem_of_cons; [by right|].
      left. by right.
    + intros [[= -> ->]|Hin]%elem_of_cons; [left; by left|].
      destruct (IH Hin); [left; by right | by right].
Qed.

Lemma add_person_entry name encoding metadata_arg added updated s n p :
  (n, p) ∈ database (add_person name encoding metadata_arg added updated s).1 →
  (n, p) ∈ database s ∨ n = name.
Proof.
  destruct (add_person_database name encoding metadata_arg added updated s)
    as [l ->].
  destruct (dict_get name (database s)) as [p0|].
  - apply dict_set_elem.
  - intros [Hin|[= -> ->]%list_elem_of_singleton]%elem_of_app; auto.
Qed.

(** A sum of non-negative numbers is zero only when each is. *)
Lemma Qsum_zero_inv (l : list Q) :
  (∀ x, x ∈ l → 0 <= x) → Qsum l == 0 → ∀ x, x ∈ l → x == 0.
Proof.
  induction l as [|y r IH]; intros Hpos Hsum x Hx.
  - by apply elem_of_nil in Hx.
  - unfold Qsum in Hsum. simpl in Hsum. fold (Qsum r) in Hsum.
    assert (0 <= y) as Hy by (apply Hpos; left).
    assert (0 <= Qsum r) as Hr.
    { apply Qsum_nonneg. intros z Hz. apply Hpos. by right. }
    apply elem_of_cons in Hx as [->|Hx].
    + lra.
    + apply IH; [|lra|done]. intros z Hz. apply Hpos. by right.
Qed.

Lemma chi_term_zero a b : 0 <= a → 0 <= b → chi_term a b == 0 → a == b.
Proof.
  intros Ha Hb. unfold chi_term. intros Hz.
  pose proof epsilon_pos as Heps.
  assert (¬ a + b + epsilon == 0) as Hden by lra.
  assert ((a - b) ^ 2 == 0) as Hsq.
  { rewrite <- (Qmult_div_r ((a - b) ^ 2) (a + b + epsilon)) by exact Hden.
    rewrite Hz. ring. }
  simpl in Hsq. nra.
Qed.

(** Two arrays without negative entries at chi-square distance zero are
    equal entry by entry. *)
Lemma zero_distance_equal u v d :
  nonneg u → nonneg v → length u = length v →
  _calculate_distance u v = Some d → d == 0 → Forall2 Qeq u v.
Proof.
  intros Hu Hv Hlen. rewrite distance_same_length by done.
  intros [= <-] Hz.
  assert (Qsum (zip_with chi_term u v) == 0) as Hsum by lra.
  clear Hz. revert v Hv Hlen Hsum.
  induction u as [|a u IH]; intros [|b v] Hv Hlen Hsum; simpl in *;
    try done; try (by constructor).
  assert (∀ x, x ∈ chi_term a b :: zip_with chi_term u v → x == 0) as Hall.
  { apply Qsum_zero_inv; [|exact Hsum].
    intros x [->|Hx]%elem_of_cons.
    - apply chi_term_nonneg; [apply Hu | apply Hv]; left.
    - apply zip_with_elem in Hx as (x1 & x2 & H1 & H2 & ->).
      apply chi_term_nonneg; [apply Hu | apply Hv]; by right. }
  constructor.
  - apply chi_term_zero; [apply Hu; left | apply Hv; left |].
    apply Hall. left.
  - apply IH.
    + intros x Hx. apply Hu. by right.
    + intros x Hx. apply Hv. by right.
    + lia.
    + apply Qsum_zero. intros x Hx. apply Hall. by right.
Qed.
End EnrollFacts.

Module EnrollSpec.
Import Gallery GalleryFacts GalleryMoreFacts Matcher MatcherFacts
  MatcherMoreFacts EnrollFacts Fixtures.
Local Open Scope Q_scope.

(** X22. Registering a sample and presenting it again.  When the
    tolerance is not negative and the new sample and the samples of the
    gallery have no negative entry and all the same length, [match_face]
    on the sample just registered by [add_person] reports a match with
    confidence 1, and the name it reports is the registered name, unless
    an identity of the gallery already held an equal sample, whose name
    it may report instead. *)
Theorem register_then_recognise (tolerance : Q) (name : string)
    (encoding : Encoding) (metadata_arg : option loc)
    (added updated : string) (db : Store) :
  0 <= tolerance →
  nonneg encoding →
  (∀ e, e ∈ (get_all_encodings db).1 →
        nonneg e ∧ length e = length encoding) →
  ∃ n c,
    match_face tolerance
      (add_person name encoding metadata_arg added updated db).1 encoding
    = Some (Some n, c)
    ∧ c == 1
    ∧ (n = name
       ∨ ∃ p e, (n, p) ∈ database db ∧ e ∈ encodings p
                ∧ Forall2 Qeq encoding e).
Proof.
  intros Htol Hnn Hgal.
  set (db' := (add_person name encoding metadata_arg added updated db).1).
  assert (∀ e, e ∈ (get_all_encodings db').1 →
               nonneg e ∧ length e = length encoding) as Hgal'.
  { intros e [He| ->]%get_all_encodings_add_elem; [by apply Hgal | done]. }
  assert (encoding ∈ (get_all_encodings db').1) as Hin
    by (apply get_all_encodings_add_elem; by right).
  assert ((get_all_encodings db').1 ≠ []) as Hne
    by (intros Hnil; rewrite Hnil in Hin; by apply elem_of_nil in Hin).
  destruct (distances_is_Some encoding (get_all_encodings db').1) as [ds Hds].
  { intros e He. by apply Hgal'. }
  destruct (match_face_run tolerance db' encoding ds Hne Hds)
    as (i & d & n & Hi & Hd & Hn & Hmin & Hrun).
  pose proof (distances_Forall2 _ _ _ Hds) as Hall.
  (* the best distance is zero *)
  assert (d <= 0) as Hle.
  { apply list_elem_of_lookup_1 in Hin as [j Hj].
    destruct (Forall2_lookup_l _ _ _ _ _ Hall Hj) as (dj & Hdj & Hdist).
    destruct (distance_self encoding) as (d0 & Hd0 & Hz).
    rewrite Hd0 in Hdist. injection Hdist as <-.
    rewrite <- Hz. apply Hmin. by eapply list_elem_of_lookup_2. }
  destruct (names_registered db' i n Hn) as (p & e & Hp & He & Hei).
  destruct (Forall2_lookup_r _ _ _ _ _ Hall Hd) as (e' & He' & Hdist).
  rewrite Hei in He'. injection He' as <-.
  assert (e ∈ (get_all_encodings db').1) as Hemem
    by (by eapply list_elem_of_lookup_2).
  destruct (Hgal' e Hemem) as [Hen Hel].
  assert (0 <= d) as Hge by (by eapply (distance_nonneg encoding e)).
  assert (d == 0) as Hzero by lra.
  assert (Qle_bool d tolerance = true) as Hb
    by (apply Qle_bool_iff; lra).
  rewrite Hb in Hrun.
  exists n, (clamp01 (1 - d / 2)). split; [exact Hrun|].
  split; [by apply clamp01_of_zero_distance|].
  destruct (add_person_entry _ _ _ _ _ _ _ _ Hp) as [Hold| ->]; [|by left].
  right. exists p, e. split_and!; [done | done |].
  by eapply zero_distance_equal.
Qed.

Lemma register_then_recognise_witness :
  ∃ n c,
    match_face (6 # 10)
      (add_person "Carol" [1 # 3; 2 # 3] None "t4" "t5" two_people).1
      [1 # 3; 2 # 3]
    = Some (Some n, c)
    ∧ c == 1.
Proof.
  destruct (register_then_recognise (6 # 10) "Carol" [1 # 3; 2 # 3] None
              "t4" "t5" two_people) as (n & c & Hrun & Hc & _).
  - discriminate.
  - intros x Hx.
    repeat (apply elem_of_cons in Hx as [->|Hx]; [discriminate|]).
    by apply elem_of_nil in Hx.
  - intros e He. vm_compute in He.
    repeat (apply elem_of_cons in He as [->|He];
            [split; [|reflexivity];
             intros x Hx;
             repeat (apply elem_of_cons in Hx as [->|Hx]; [discriminate|]);
             by apply elem_of_nil in Hx|]).
    by apply elem_of_nil in He.
  - exists n, c. split; [exact Hrun | exact Hc].
Defined.
End EnrollSpec.

(* ===================================================================== *)
(** * Properties of the detectors' boxes and of the encoder's crop *)
(* ===================================================================== *)

Module DetectFacts.
Import Tracker Detectors.
Local Open Scope Z_scope.




End DetectFacts.

Module DetectSpec.
Import Tracker Detectors DetectFacts NumFacts.
Local Open Scope Z_scope.




End DetectSpec.

Module EncoderSpec.
Import Tracker Encoder.
Local Open Scope Z_scope.

Lemma np_slice_inside n a b :
  0 ≤ a → a ≤ b → b ≤ n → np_slice n a b = (a, b - a).
Proof.
  intros Ha Hab Hb. unfold np_slice, slice_bound.
  destruct (Z.ltb_spec a 0); [lia|]. destruct (Z.ltb_spec b 0); [lia|].
  f_equal; lia.
Qed.

(** X25. For a box that lies inside the image, [encode_from_bbox] has
    [encode_face] crop exactly the box, rows [y] to [y + h] and columns
    [x] to [x + w], and the crop is empty, so that the face gets no
    encoding, exactly when the width or the height of the box is zero.
    The two conversions between boxes and face locations are inverse
    to each other. *)
Theorem crop_is_the_box (height width : Z) (bbox : BBox) :
  inside height width bbox →
  crop_from_bbox height width bbox
  = (let '(x, y, w, h) := bbox in
     if (w =? 0) || (h =? 0) then None else Some ((y, h), (x, w)))
  ∧ crop height width (bbox_to_face_location bbox)
    = crop_from_bbox height width bbox
  ∧ face_location_to_bbox (bbox_to_face_location bbox) = bbox
  ∧ ∀ l, bbox_to_face_location (face_location_to_bbox l) = l.
Proof.
  destruct bbox as [[[x y] w] h]. intros (Hx & Hy & Hw & Hh & Hxw & Hyh).
  split_and!.
  - unfold crop_from_bbox, crop.
    rewrite (Z.max_r 0 y), (Z.max_r 0 x) by lia.
    rewrite (Z.min_r height (y + h)), (Z.min_r width (x + w)) by lia.
    rewrite (np_slice_inside height y (y + h)) by lia.
    rewrite (np_slice_inside width x (x + w)) by lia.
    cbn [fst snd].
    replace (y + h - y) with h by lia. replace (x + w - x) with w by lia.
    destruct (Z.eqb_spec w 0) as [->|Hw0]; simpl.
    + by rewrite Z.mul_0_r.
    + destruct (Z.eqb_spec h 0) as [->|Hh0]; simpl; [done|].
      destruct (Z.eqb_spec (h * w) 0); [nia | done].
  - reflexivity.
  - simpl. repeat f_equal; lia.
  - intros [[[top right_] bottom] left_]. simpl.
    repeat f_equal; lia.
Qed.

Lemma crop_is_the_box_witness :
  crop_from_bbox 480 640 (10, 20, 50, 60) = Some ((20, 60), (10, 50)).
Proof.
  refine (proj1 (crop_is_the_box 480 640 (10, 20, 50, 60) _)).
  unfold inside. lia.
Defined.
End EncoderSpec.

(* ===================================================================== *)
(** * Properties of [Config.get] *)
(* ===================================================================== *)

Module ConfigFacts.
Import Config.

Lemma split_dot_nonempty key : split_dot key ≠ [].
Proof.
  destruct key as [|c r]; simpl; [done|].
  destruct (is_dot c); [done|]. by destruct (split_dot r).
Qed.

Lemma append_cons c r s : String c r +:+ s = String c (r +:+ s).
Proof. reflexivity. Qed.

(** Splitting a key at one of its dots. *)
Lemma split_dot_app k1 k2 :
  split_dot (k1 +:+ "." +:+ k2) = split_dot k1 ++ split_dot k2.
Proof.
  induction k1 as [|c r IH]; [reflexivity|].
  rewrite append_cons. cbn [split_dot]. destruct (is_dot c).
  - cbn [app]. f_equal. exact IH.
  - rewrite IH. pose proof (split_dot_nonempty r).
    by destruct (split_dot r).
Qed.

Lemma split_dot_dotless key : dotless key = true → split_dot key = [key].
Proof.
  induction key as [|c r IH]; simpl; [done|].
  destruct (is_dot c); simpl; [done|]. intros Hr. by rewrite IH.
Qed.

Lemma walk_app keys1 keys2 v :
  walk (keys1 ++ keys2) v = walk keys1 v ≫= walk keys2.
Proof.
  revert v. induction keys1 as [|k r IH]; intros v; simpl; [done|].
  destruct v; [done | done | apply IH].
Qed.
End ConfigFacts.

Module ConfigSpec.
Import Config ConfigFacts.

(** X26. [Config.get] with dot notation.  When the first part of a key
    leads to a mapping, the rest of the key is looked up in that
    mapping; a last part without a dot gives the entry of the mapping
    under it, and the default when there is no such entry or the entry
    is [None].  Whatever the key, [get] returns [None] only when the
    default is [None]. *)
Theorem get_dot_notation (config : value) (k1 k2 : string) (default : value)
    (d : list (string * value)) :
  walk (split_dot k1) config = Some (VDict d) →
  get config (k1 +:+ "." +:+ k2) default = get (VDict d) k2 default
  ∧ (dotless k2 = true →
     get config (k1 +:+ "." +:+ k2) default
     = match dict_get k2 d with
       | Some VNone | None => default
       | Some v => v
       end)
  ∧ ∀ key, get config key default = VNone → default = VNone.
Proof.
  intros Hwalk.
  assert (get config (k1 +:+ "." +:+ k2) default = get (VDict d) k2 default)
    as Hnest.
  { unfold get. by rewrite split_dot_app, walk_app, Hwalk. }
  split_and!; [exact Hnest | |].
  - intros Hk2. rewrite Hnest. unfold get.
    rewrite (split_dot_dotless k2 Hk2). simpl.
    by destruct (dict_get k2 d) as [[]|].
  - intros key. unfold get.
    by destruct (walk (split_dot key) config) as [[]|].
Qed.

Lemma get_dot_notation_witness :
  get (VDict [("detection"%string,
               VDict [("method"%string, VOther "dnn");
                      ("scale"%string, VNone)])])
    "detection.method" (VOther "haar")
  = VOther "dnn".
Proof.
  refine (proj1 (proj2 (get_dot_notation
                          (VDict [("detection"%string,
                                   VDict [("method"%string, VOther "dnn");
                                          ("scale"%string, VNone)])])
                          "detection" "method" (VOther "haar")
                          [("method"%string, VOther "dnn");
                           ("scale"%string, VNone)] _)) _).
  - reflexivity.
  - reflexivity.
Defined.
End ConfigSpec.

(* ===================================================================== *)
(** * Properties of the registration script *)
(* ===================================================================== *)

Module RegistrationFacts.
Import Gallery GalleryFacts GalleryMoreFacts Persist PersistFacts
  Registration PyDictFacts.



Section WithSerializers.
Variable pickle_dumps : Store → string.
Variable pickle_loads : string → outcome pyobject.
Variable json_dumps : list (string * (nat * string * string)) → string.
Variable with_suffix : string → string → string.
Variable parent : string → string.
Variable joinpath : string → string → string.
Variable isoformat : string → string.
Variable format_2f : Q → string.


End WithSerializers.
End RegistrationFacts.

Module RegistrationSpec.
Import Gallery GalleryFacts GalleryMoreFacts Persist PersistFacts
  Registration RegistrationFacts PyDictFacts Fixtures.

Lemma print_run msg w :
  ∃ w', print msg w = (Returned tt, w')
        ∧ fs w' = fs w ∧ clock w' = clock w
        ∧ stdout w' = stdout w ++ [msg].
Proof. eexists. split; [reflexivity|]. done. Qed.

Section WithSerializers.
Variable pickle_dumps : Store → string.
Variable pickle_loads : string → outcome pyobject.
Variable json_dumps : list (string * (nat * string * string)) → string.
Variable with_suffix : string → string → string.
Variable parent : string → string.
Variable joinpath : string → string → string.
Variable isoformat : string → string.
Variable format_2f : Q → string.


(** X28. [FaceRegistration.remove_person] returns [True] exactly when
    the name was registered, and never raises.  For an unknown name it
    prints one line and leaves the gallery and the files as they were.
    For a registered name the gallery no longer holds it afterwards and
    the other identities are as before; the result of the save is not
    looked at, so when the gallery file cannot be opened for writing the
    call still returns [True] while no file has changed, and loading the
    gallery file gives what it gave before the removal. *)
Theorem remove_person_command (self : FaceRegistration) (name : string)
    (w : World) :
  ∃ self' b w',
    Registration.remove_person pickle_dumps json_dumps with_suffix parent
      joinpath self name w
    = (Returned (self', b), w')
    ∧ (b = true ↔ is_Some (get_person name (store (db self))))
    ∧ (b = false →
       self' = self ∧ fs w' = fs w
       ∧ stdout w' = stdout w
                     ++ ["[FAILED] " +:+ name +:+ " not found in database"])
    ∧ (b = true →
       get_person name (store (db self')) = None
       ∧ (∀ other, other ≠ name →
            get_person other (store (db self'))
            = get_person other (store (db self)))
       ∧ (can_open_write (fs w) (db_path (db self)) = false →
          fs w' = fs w
          ∧ (_load_database pickle_loads (db_path (db self)) w').1
            = (_load_database pickle_loads (db_path (db self)) w).1)).
Proof.
  unfold Registration.remove_person, Gallery.remove_person, get_person.
  destruct (dict_mem name (database (store (db self)))) eqn:Hmem.
  - apply dict_mem_true in Hmem as Hsome.
    rewrite bind_run.
    match goal with
    | |- context [save_database _ _ _ _ _ ?d w] =>
        destruct (save_database_cases pickle_dumps json_dumps with_suffix
                    parent joinpath d w) as (bs & w1 & -> & _ & Hcases)
    end.
    rewrite bind_run.
    match goal with
    | |- context [print ?msg w1] =>
        destruct (print_run msg w1) as (w2 & -> & Hfs2 & _)
    end.
    eexists _, true, w2. split; [reflexivity|].
    split_and!; [done | done |].
    intros _. cbn [db store database]. split_and!.
    + apply dict_get_del_eq.
    + intros other Hne. by apply dict_get_del_ne.
    + intros Hcan. apply (can_open_write_opens parent) in Hcan.
      cbn [db_path] in Hcases.
      destruct Hcases as [(_ & _ & Hfs1 & _)|(Hyes & _)]; [|congruence].
      assert (fs w2 = fs w) as Hfs by congruence.
      split; [done|]. by apply load_database_fs.
  - apply dict_mem_false in Hmem as Hnone.
    rewrite bind_run.
    match goal with
    | |- context [print ?msg w] =>
        destruct (print_run msg w) as (w1 & -> & Hfs1 & _ & Hout1)
    end.
    eexists self, false, w1. split; [reflexivity|].
    split_and!; [|done|done].
    rewrite Hnone. split; [done | by intros [? ?]].
Qed.
End WithSerializers.
End RegistrationSpec.

(* ===================================================================== *)
(** * Properties of [FaceMatcher.match_with_voting] *)
(* ===================================================================== *)

Module VotingFacts.
Import Gallery GalleryFacts GalleryMoreFacts Matcher MatcherFacts
  MatcherMoreFacts PyDictFacts NumFacts.
Local Open Scope Q_scope.

Lemma dict_set_elem_inv {K V} `{EqDecision K} (k k' : K) (v v' : V)
    (d : list (K * V)) :
  (k', v') ∈ dict_set k v d → (k', v') ∈ d ∨ (k' = k ∧ v' = v).
Proof.
  induction d as [|[k0 v0] r IH]; simpl.
  - intros [= -> ->]%list_elem_of_singleton. by right.
  - destruct (decide (k = k0)) as [->|Hne].
    + intros [[= -> ->]|Hin]%elem_of_cons; [by right|].
      left. by right.
    + intros [[= -> ->]|Hin]%elem_of_cons; [left; by left|].
      destruct (IH Hin); [left; by right | by right].
Qed.

Lemma dict_set_not_nil {K V} `{EqDecision K} (k : K) (v : V) d :
  dict_set k v d ≠ [].
Proof. destruct d as [|[k0 v0] r]; simpl; [done|]. by destruct (decide _). Qed.

(** One vote: the confidence joins the list of the name. *)
Lemma cast_vote_eq votes name dist :
  cast_vote votes (name, dist)
  = dict_set name
      (default [] (dict_get name votes) ++ [clamp01 (1 - dist / 2)]) votes.
Proof.
  unfold cast_vote. destruct (dict_mem name votes) eqn:Hmem; [done|].
  apply dict_mem_false in Hmem.
  rewrite (dict_set_absent name [] votes Hmem).
  rewrite dict_get_snoc, Hmem, decide_True by done. simpl.
  rewrite (dict_set_snoc name [] _ votes Hmem).
  by rewrite (dict_set_absent name _ votes Hmem).
Qed.

(** The vote table after the loop over [valid_matches]. *)
Lemma fold_cast_vote valid :
  (valid ≠ [] → fold_left cast_vote valid [] ≠ [])
  ∧ ∀ name q,
      (name, q) ∈ fold_left cast_vote valid [] →
      q ≠ []
      ∧ ∀ c, c ∈ q →
             ∃ dist, (name, dist) ∈ valid ∧ c = clamp01 (1 - dist / 2).
Proof.
  induction valid as [|[n d] r IH] using rev_ind.
  - split; [done|]. intros name q Hin. by apply elem_of_nil in Hin.
  - rewrite fold_left_app. cbn [fold_left]. rewrite cast_vote_eq.
    destruct IH as [_ IH]. split; [intros _; apply dict_set_not_nil|].
    intros name q [Hold|[-> ->]]%dict_set_elem_inv.
    + destruct (IH name q Hold) as [Hne Hq]. split; [done|].
      intros c Hc. destruct (Hq c Hc) as (dist & Hin & ->).
      exists dist. split; [|done]. apply elem_of_app. by left.
    + split; [by destruct (default [] _)|].
      intros c [Hc| ->%list_elem_of_singleton]%elem_of_app.
      * destruct (dict_get n (fold_left cast_vote r [])) as [q0|] eqn:Hg;
          [|by apply elem_of_nil in Hc].
        apply dict_get_Some_elem in Hg.
        destruct (IH n q0 Hg) as [_ Hq]. destruct (Hq c Hc) as (dist & Hin & ->).
        exists dist. split; [|done]. apply elem_of_app. by left.
      * exists d. split; [|done]. apply elem_of_app. right. left.
Qed.

(** [max] returns one of its arguments. *)
Lemma py_max_elem {A} (gt : A → A → bool) (l : list A) (m : A) :
  py_max gt l = Some m → m ∈ l.
Proof.
  destruct l as [|x r]; simpl; [done|]. intros [= <-].
  revert x. induction r as [|y r IH]; intros x; simpl; [left|].
  pose proof (IH (if gt y x then y else x)) as Hin.
  apply elem_of_cons in Hin as [Heq|Hin].
  - rewrite Heq. destruct (gt y x); [right; left | left].
  - right. by right.
Qed.

(** The mean of a non-empty list lies between any two bounds of its
    elements. *)
Lemma Qsum_bounds (q : list Q) (lo hi : Q) :
  (∀ c, c ∈ q → lo <= c ∧ c <= hi) →
  inject_Z (Z.of_nat (length q)) * lo <= Qsum q
  ∧ Qsum q <= inject_Z (Z.of_nat (length q)) * hi.
Proof.
  induction q as [|c q IH]; intros Hq.
  - simpl. split; rewrite Qmult_0_l; apply Qle_refl.
  - cbn [Qsum fold_right length]. fold (Qsum q).
    rewrite Nat2Z.inj_succ, <- Z.add_1_l, inject_Z_plus.
    destruct (Hq c) as [Hlo Hhi]; [left|].
    destruct IH as [IHlo IHhi]; [intros c' Hc'; apply Hq; by right|].
    split.
    + rewrite Qmult_plus_distr_l, Qmult_1_l. by apply Qplus_le_compat.
    + rewrite Qmult_plus_distr_l, Qmult_1_l. by apply Qplus_le_compat.
Qed.

Lemma np_mean_bounds (q : list Q) (lo hi : Q) :
  q ≠ [] → (∀ c, c ∈ q → lo <= c ∧ c <= hi) →
  lo <= np_mean q ∧ np_mean q <= hi.
Proof.
  intros Hne Hq. unfold np_mean.
  assert (0 < inject_Z (Z.of_nat (length q))) as Hlen.
  { destruct q; [done|]. unfold Qlt. simpl. lia. }
  destruct (Qsum_bounds q lo hi Hq) as [Hlo Hhi].
  split.
  - apply Qle_shift_div_l; [done|]. by rewrite Qmult_comm.
  - apply Qle_shift_div_r; [done|]. by rewrite Qmult_comm.
Qed.

(** Reading an array at a list of indices that are all in range. *)
Lemma take_at_is_Some {A} (a : list A) (indices : list nat) :
  (∀ i, i ∈ indices → (i < length a)%nat) →
  ∃ vals, take_at a indices = Some vals
          ∧ Forall2 (λ i v, a !! i = Some v) indices vals.
Proof.
  intros Hin.
  destruct (proj2 (mapM_is_Some (λ i, a !! i) indices)) as [vals Hvals].
  { apply Forall_forall. intros i Hi. unfold compose.
    apply lookup_lt_is_Some_2. by apply Hin. }
  exists vals. split; [exact Hvals|]. by apply mapM_Some.
Qed.

(** An entry of the zipped names and distances read at the same
    indices comes from one index. *)
Lemma zip_at_elem {A B} (a : list A) (b : list B) indices va vb x y :
  Forall2 (λ i v, a !! i = Some v) indices va →
  Forall2 (λ i v, b !! i = Some v) indices vb →
  (x, y) ∈ zip va vb →
  ∃ i, i ∈ indices ∧ a !! i = Some x ∧ b !! i = Some y.
Proof.
  intros Ha Hb Hin.
  apply list_elem_of_lookup_1 in Hin as [k Hk].
  apply lookup_zip_with_Some in Hk as (x' & y' & [= <- <-] & Hx & Hy).
  destruct (Forall2_lookup_r _ _ _ _ _ Ha Hx) as (i & Hi & Hai).
  destruct (Forall2_lookup_r _ _ _ _ _ Hb Hy) as (i' & Hi' & Hbi).
  rewrite Hi in Hi'. injection Hi' as <-.
  exists i. split_and!; [by eapply list_elem_of_lookup_2 | done | done].
Qed.
End VotingFacts.

Module VotingSpec.
Import Gallery GalleryFacts GalleryMoreFacts Matcher MatcherFacts
  MatcherMoreFacts PyDictFacts NumFacts VotingFacts Fixtures.
Local Open Scope Q_scope.

Section Voting.
Variable np_argsort : list Q → list nat.

(** X29. [match_with_voting] against [match_face], when the distances
    can be computed and [np.argsort] returns the indices in ascending
    order of distance.  With [top_k] at least 1, voting reports a name
    exactly when [match_face] does; the name is the one of a registered
    identity, and the confidence lies between 0 and the confidence of
    [match_face], which is at most 1.  When it reports no name the
    confidence is 0, and with [top_k = 0] it never reports a name. *)
Theorem match_with_voting_agrees (tolerance : Q) (db : Store)
    (encoding : Encoding) (top_k : nat) (ds : list Q) :
  _calculate_distances encoding (get_all_encodings db).1 = Some ds →
  argsort_ok ds (np_argsort ds) →
  (top_k = 0%nat →
   match_with_voting np_argsort tolerance db encoding top_k = Some (None, 0))
  ∧ ((0 < top_k)%nat →
     ∃ r r',
       match_with_voting np_argsort tolerance db encoding top_k = Some r
       ∧ match_face tolerance db encoding = Some r'
       ∧ (r.1 = None ↔ r'.1 = None)
       ∧ (r.1 = None → r.2 = 0)
       ∧ ∀ n, r.1 = Some n →
           (∃ p, (n, p) ∈ database db)
           ∧ 0 <= r.2 ∧ r.2 <= r'.2 ∧ r'.2 <= 1).
Proof.
  intros Hds [Hperm Hsorted].
  destruct (decide ((get_all_encodings db).1 = [])) as [Hnil|Hne].
  { assert (∀ k, match_with_voting np_argsort tolerance db encoding k
                 = Some (None, 0)) as Hvote.
    { intros k. unfold match_with_voting.
      destruct (get_all_encodings db) as [encs names]. simpl in Hnil.
      by subst encs. }
    split; [intros _; apply Hvote|]. intros _.
    exists (None, 0), (None, 0).
    split; [apply Hvote|]. split; [by apply match_face_nil|]. done. }
  pose proof (get_all_encodings_lengths db) as Hlen.
  pose proof (Forall2_length _ _ _ (distances_Forall2 _ _ _ Hds)) as Hlds.
  destruct (match_face_run tolerance db encoding ds Hne Hds)
    as (i & d & name & Hi & Hd & Hname & Hmin & Hrun).
  destruct (get_all_encodings db) as [encs names] eqn:Hpair.
  cbn [fst snd] in *.
  assert (match_with_voting np_argsort tolerance db encoding top_k
          = match take_at names (take top_k (np_argsort ds)),
                  take_at ds (take top_k (np_argsort ds)) with
            | Some top_k_names, Some top_k_distances =>
                match filter (λ nd, Qle_bool nd.2 tolerance = true)
                        (zip top_k_names top_k_distances) with
                | [] => Some (None, 0)
                | _ :: _ =>
                    match py_max mean_gt
                            (fold_left cast_vote
                               (filter (λ nd, Qle_bool nd.2 tolerance = true)
                                  (zip top_k_names top_k_distances)) [])
                    with
                    | Some best_name =>
                        Some (Some best_name.1, np_mean best_name.2)
                    | None => None
                    end
                end
            | _, _ => None
            end) as ->.
  { unfold match_with_voting. rewrite Hpair.
    destruct encs as [|e0 encs']; [congruence|]. by rewrite Hds. }
  split; [by intros ->|]. intros Hk.
  assert (∀ a, a ∈ np_argsort ds → (a < length ds)%nat) as Hrange.
  { intros a Ha. rewrite Hperm in Ha. apply elem_of_seq in Ha. lia. }
  set (idx := take top_k (np_argsort ds)).
  assert (∀ a, a ∈ idx → a ∈ np_argsort ds) as Hidx
    by (intros a Ha; by eapply subseteq_take).
  destruct (take_at_is_Some names idx) as (tn & -> & Ftn).
  { intros a Ha. rewrite <- Hlen, Hlds. by apply Hrange, Hidx. }
  destruct (take_at_is_Some ds idx) as (td & -> & Ftd).
  { intros a Ha. by apply Hrange, Hidx. }
  set (valid := filter (λ nd, Qle_bool nd.2 tolerance = true) (zip tn td)).
  assert (∀ n dist, (n, dist) ∈ valid →
            dist <= tolerance ∧ d <= dist ∧ ∃ a, names !! a = Some n)
    as Hvalid.
  { intros n dist [Hle Hin]%list_elem_of_filter. simpl in Hle.
    apply Qle_bool_iff in Hle.
    destruct (zip_at_elem names ds idx tn td n dist Ftn Ftd Hin)
      as (a & _ & Hn & Hdist).
    split_and!; [done | | by eauto].
    apply Hmin. by eapply list_elem_of_lookup_2. }
  destruct (clamp01_range (1 - d / 2)) as [Hc0 Hc1].
  destruct valid as [|v vs] eqn:Hv.
  - (* no valid match: the nearest sample is beyond the tolerance *)
    assert (Qle_bool d tolerance = false) as Hfar.
    { destruct (Qle_bool d tolerance) eqn:Hb; [exfalso|done].
      apply Qle_bool_iff in Hb.
      destruct top_k as [|k]; [lia|].
      destruct (np_argsort ds) as [|a0 rest] eqn:Hargs.
      { apply Permutation_nil_l in Hperm.
        destruct ds; [|done]. destruct encs; [done | simpl in Hlds; lia]. }
      subst idx. cbn [take] in Ftn, Ftd.
      destruct tn as [|n0 tn']; [by apply Forall2_cons_nil_inv in Ftn|].
      destruct td as [|x0 td']; [by apply Forall2_cons_nil_inv in Ftd|].
      apply Forall2_cons_1 in Ftn as [Hn0 _].
      apply Forall2_cons_1 in Ftd as [Hx0 _].
      assert (i ∈ a0 :: rest) as Hin.
      { rewrite Hperm. apply elem_of_seq.
        apply lookup_lt_Some in Hd. lia. }
      apply list_elem_of_lookup_1 in Hin as [j Hj].
      assert (x0 <= d) as Hx0d
        by (apply (Hsorted 0%nat j a0 i x0 d); [lia | done..]).
      assert ((n0, x0) ∈ valid) as Hmem.
      { apply list_elem_of_filter. split; [|left]. simpl.
        apply Qle_bool_iff. lra. }
      rewrite Hv in Hmem. by apply elem_of_nil in Hmem. }
    rewrite Hfar in Hrun.
    exists (None, 0), (None, 0). done.
  - (* some valid match *)
    destruct (Hvalid v.1 v.2) as (Hvt & Hvd & _).
    { rewrite <- surjective_pairing. left. }
    assert (Qle_bool d tolerance = true) as Hnear
      by (apply Qle_bool_iff; lra).
    rewrite Hnear in Hrun.
    destruct (fold_cast_vote (v :: vs)) as [Hvotes_ne Hvotes].
    destruct (py_max mean_gt (fold_left cast_vote (v :: vs) []))
      as [[n q]|] eqn:Hmax.
    2:{ apply py_max_None in Hmax. by apply Hvotes_ne in Hmax. }
    apply py_max_elem in Hmax.
    destruct (Hvotes n q Hmax) as [Hq Hqc].
    exists (Some n, np_mean q), (Some name, clamp01 (1 - d / 2)).
    split; [done|]. split; [done|]. cbn [fst snd].
    split; [split; discriminate|]. split; [discriminate|].
    intros n' [= <-].
    assert (∀ c, c ∈ q → 0 <= c ∧ c <= clamp01 (1 - d / 2)) as Hbounds.
    { intros c Hc. destruct (Hqc c Hc) as (dist & Hin & ->).
      destruct (Hvalid n dist Hin) as (_ & Hdd & _).
      split; [apply clamp01_range|].
      apply clamp01_mono. unfold Qminus, Qdiv.
      apply Qplus_le_r, Qopp_le_compat.
      apply Qmult_le_compat_r; [done|]. discriminate. }
    destruct (np_mean_bounds q 0 (clamp01 (1 - d / 2)) Hq Hbounds)
      as [Hm0 Hm1].
    split_and!; [|done..].
    destruct q as [|c q']; [done|].
    destruct (Hqc c) as (dist & Hin & _); [left|].
    destruct (Hvalid n dist Hin) as (_ & _ & a & Ha).
    destruct (names_registered db a n) as (p & e & Hp & _).
    { by rewrite Hpair. }
    eauto.
Qed.
End Voting.

Lemma match_with_voting_agrees_witness :
  ∃ r r',
    match_with_voting toy_argsort (6 # 10) two_people [1 # 4; 3 # 4] 3
    = Some r
    ∧ match_face (6 # 10) two_people [1 # 4; 3 # 4] = Some r'
    ∧ (r.1 = None ↔ r'.1 = None).
Proof.
  destruct (proj2 (match_with_voting_agrees toy_argsort (6 # 10) two_people
                     [1 # 4; 3 # 4] 3
                     [3276800000327680000000000 # 49152000010485760000524288;
                      0 # 2516582400671088640033554432]
                     ltac:(vm_compute; reflexivity)
                     ltac:(split;
                           [vm_compute; apply perm_swap
                           |intros [|[|i]] [|[|j]] a b x y Hij Hi Hj Hx Hy;
                            vm_compute in Hi, Hj; try discriminate; try lia;
                            injection Hi as <-; injection Hj as <-;
                            injection Hx as <-; injection Hy as <-;
                            discriminate]))
              ltac:(lia))
    as (r & r' & Hr & Hr' & Hiff & _).
  exists r, r'. split; [exact Hr|]. split; [exact Hr' | exact Hiff].
Defined.
End VotingSpec.

(* ===================================================================== *)
(** * Properties of [FaceEncoder._compute_lbp] *)
(* ===================================================================== *)

Module LbpFacts.
Import Encoder.

(** ** The three slices of an axis *)

Lemma upto_m2_lookup {A} (l : list A) i :
  i < length l - 2 → upto_m2 l !! i = l !! i.
Proof. intros Hi. unfold upto_m2. by rewrite lookup_take_lt. Qed.

Lemma inner_lookup {A} (l : list A) i :
  i < length l - 2 → inner l !! i = l !! (i + 1).
Proof.
  intros Hi. unfold inner. rewrite lookup_take_lt by done.
  rewrite lookup_drop. f_equal. lia.
Qed.

Lemma from_2_lookup {A} (l : list A) i : from_2 l !! i = l !! (i + 2).
Proof. unfold from_2. rewrite lookup_drop. f_equal. lia. Qed.

Lemma upto_m2_length {A} (l : list A) : length (upto_m2 l) = length l - 2.
Proof. unfold upto_m2. rewrite length_take. lia. Qed.

Lemma inner_length {A} (l : list A) : length (inner l) = length l - 2.
Proof. unfold inner. rewrite length_take, length_drop. lia. Qed.

Lemma from_2_length {A} (l : list A) : length (from_2 l) = length l - 2.
Proof. unfold from_2. by rewrite length_drop. Qed.

(** ** Pixels of the arrays the function builds *)

Lemma pixel_zip_with (f : Z → Z → Z) (a b : Image) i j :
  pixel (zip_with (zip_with f) a b) i j
  = match pixel a i j, pixel b i j with
    | Some x, Some y => Some (f x y)
    | _, _ => None
    end.
Proof.
  unfold pixel. rewrite lookup_zip_with.
  destruct (a !! i) as [ra|], (b !! i) as [rb|]; simpl; try done.
  - rewrite lookup_zip_with.
    by destruct (ra !! j), (rb !! j).
  - by destruct (ra !! j).
Qed.

Lemma pixel_zeros h w i j :
  i < h → j < w → pixel (np_zeros h w) i j = Some 0%Z.
Proof.
  intros Hi Hj. unfold pixel, np_zeros.
  rewrite lookup_replicate_2 by done. by apply lookup_replicate_2.
Qed.

(** A slice of the image, taken at row offset [dr] and column offset
    [dc]. *)
Lemma pixel_slice2 (rows : Image → Image) (cols : list Z → list Z)
    (dr dc : nat) (image : Image) (h w i j : nat) :
  (∀ l i, i < length l - 2 → rows l !! i = l !! (i + dr)) →
  (∀ l j, j < length l - 2 → cols l !! j = l !! (j + dc)) →
  rectangular h w image →
  i < h - 2 → j < w - 2 →
  pixel (slice2 rows cols image) i j = pixel image (i + dr) (j + dc).
Proof.
  intros Hrows Hcols [Hh Hw] Hi Hj. unfold pixel, slice2.
  rewrite list_lookup_fmap, Hrows by lia.
  destruct (image !! (i + dr)) as [row|] eqn:Hrow; [|done]. simpl.
  apply Hcols. rewrite (Hw row); [done|]. by eapply list_elem_of_lookup_2.
Qed.

(** ** Shapes *)

Lemma rectangular_zip_with (f : Z → Z → Z) (a b : Image) h w :
  rectangular h w a → rectangular h w b →
  rectangular h w (zip_with (zip_with f) a b).
Proof.
  intros [Ha Hwa] [Hb Hwb]. split.
  - rewrite length_zip_with. lia.
  - intros row (ra & rb & -> & Hra & Hrb)%elem_of_zip_with.
    rewrite length_zip_with, (Hwa ra Hra), (Hwb rb Hrb). lia.
Qed.

Lemma rectangular_zeros h w : rectangular h w (np_zeros h w).
Proof.
  split; [apply length_replicate|].
  intros row [-> _]%elem_of_replicate. apply length_replicate.
Qed.

Lemma rectangular_slice2 (rows : Image → Image) (cols : list Z → list Z)
    (image : Image) (h w : nat) :
  (∀ l, length (rows l) = length l - 2) →
  (∀ l, length (cols l) = length l - 2) →
  (∀ l x, x ∈ rows l → x ∈ l) →
  rectangular h w image →
  rectangular (h - 2) (w - 2) (slice2 rows cols image).
Proof.
  intros Hrows Hcols Hsub [Hh Hw]. unfold slice2. split.
  - rewrite length_map, Hrows. lia.
  - intros row (r0 & -> & Hr0)%list_elem_of_fmap.
    rewrite Hcols, (Hw r0); [done|]. by apply Hsub.
Qed.

Lemma upto_m2_sub {A} (l : list A) x : x ∈ upto_m2 l → x ∈ l.
Proof. unfold upto_m2. apply subseteq_take. Qed.

Lemma inner_sub {A} (l : list A) x : x ∈ inner l → x ∈ l.
Proof.
  unfold inner. intros Hx%subseteq_take. by eapply subseteq_drop.
Qed.

Lemma from_2_sub {A} (l : list A) x : x ∈ from_2 l → x ∈ l.
Proof. unfold from_2. apply subseteq_drop. Qed.

(** ** The padding *)

Lemma lookup_S {A} (x : A) (l : list A) i : (x :: l) !! S i = l !! i.
Proof. reflexivity. Qed.

Lemma lookup_O {A} (x : A) (l : list A) : (x :: l) !! 0 = Some x.
Proof. reflexivity. Qed.

Lemma rectangular_pad1 (a : Image) h w :
  rectangular h w a → rectangular (h + 2) (w + 2) (np_pad1 w a).
Proof.
  intros [Hh Hw]. unfold np_pad1. split.
  - cbn [length]. rewrite length_app, length_map. simpl. lia.
  - intros row [->|Hin]%elem_of_cons; [apply length_replicate|].
    apply elem_of_app in Hin as [Hin| ->%list_elem_of_singleton];
      [|apply length_replicate].
    apply list_elem_of_fmap in Hin as (r0 & -> & Hr0).
    cbn [length]. rewrite length_app, (Hw r0 Hr0). simpl. lia.
Qed.

Lemma pixel_pad1_inner (a : Image) h w i j :
  rectangular h w a → i < h → j < w →
  pixel (np_pad1 w a) (S i) (S j) = pixel a i j.
Proof.
  intros [Hh Hw] Hi Hj. unfold pixel, np_pad1.
  rewrite lookup_S, lookup_app_l by (rewrite length_map; lia).
  rewrite list_lookup_fmap.
  destruct (a !! i) as [row|] eqn:Hrow; [|done]. cbn [fmap option_fmap option_map].
  rewrite lookup_S, lookup_app_l; [done|].
  rewrite (Hw row); [done|]. by eapply list_elem_of_lookup_2.
Qed.

Lemma pixel_pad1_border (a : Image) h w i j :
  rectangular h w a → i < h + 2 → j < w + 2 →
  i = 0 ∨ i = h + 1 ∨ j = 0 ∨ j = w + 1 →
  pixel (np_pad1 w a) i j = Some 0%Z.
Proof.
  intros [Hh Hw] Hi Hj Hborder. unfold pixel, np_pad1.
  destruct i as [|i].
  { rewrite lookup_O. by apply lookup_replicate_2. }
  rewrite lookup_S.
  destruct (decide (i = h)) as [->|Hne].
  { rewrite lookup_app_r by (rewrite length_map; lia).
    rewrite length_map, Hh, Nat.sub_diag, lookup_O.
    by apply lookup_replicate_2. }
  rewrite lookup_app_l by (rewrite length_map; lia).
  rewrite list_lookup_fmap.
  destruct (lookup_lt_is_Some_2 a i) as [row Hrow]; [lia|].
  rewrite Hrow. cbn [fmap option_fmap option_map].
  assert (length row = w) as Hlen
    by (apply Hw; by eapply list_elem_of_lookup_2).
  destruct j as [|j]; [done|]. rewrite lookup_S.
  assert (j = w) as -> by lia.
  rewrite lookup_app_r by lia. by rewrite Hlen, Nat.sub_diag.
Qed.

Lemma upto_m2_at {A} (l : list A) i :
  i < length l - 2 → upto_m2 l !! i = l !! (i + 0).
Proof. intros Hi. rewrite Nat.add_0_r. by apply upto_m2_lookup. Qed.

Lemma from_2_at {A} (l : list A) i :
  i < length l - 2 → from_2 l !! i = l !! (i + 2).
Proof. intros _. apply from_2_lookup. Qed.

Lemma pixel_is_Some (image : Image) h w i j :
  rectangular h w image → i < h → j < w → is_Some (pixel image i j).
Proof.
  intros [Hh Hw] Hi Hj. unfold pixel.
  destruct (lookup_lt_is_Some_2 image i) as [row Hrow]; [lia|].
  rewrite Hrow. apply lookup_lt_is_Some_2.
  rewrite (Hw row); [done|]. by eapply list_elem_of_lookup_2.
Qed.

(** ** The code of a pixel *)

Lemma lbp_bits (b7 b6 b5 b4 b3 b2 b1 b0 : bool) :
  let v :=
    Z.lor (Z.lor (Z.lor (Z.lor (Z.lor (Z.lor (Z.lor (Z.lor 0
      (Z.shiftl (Z.b2z b7) 7)) (Z.shiftl (Z.b2z b6) 6))
      (Z.shiftl (Z.b2z b5) 5)) (Z.shiftl (Z.b2z b4) 4))
      (Z.shiftl (Z.b2z b3) 3)) (Z.shiftl (Z.b2z b2) 2))
      (Z.shiftl (Z.b2z b1) 1)) (Z.shiftl (Z.b2z b0) 0) in
  (0 ≤ v < 256)%Z
  ∧ Z.testbit v 7 = b7 ∧ Z.testbit v 6 = b6 ∧ Z.testbit v 5 = b5
  ∧ Z.testbit v 4 = b4 ∧ Z.testbit v 3 = b3 ∧ Z.testbit v 2 = b2
  ∧ Z.testbit v 1 = b1 ∧ Z.testbit v 0 = b0.
Proof.
  destruct b7, b6, b5, b4, b3, b2, b1, b0; vm_compute;
    repeat split; congruence.
Qed.
End LbpFacts.

Module LbpSpec.
Import Encoder LbpFacts.

(** X30. On an image of at least two rows and two columns,
    [_compute_lbp] returns an array of the shape of the image whose
    border is zero and whose value at every other pixel is a number
    below 256 with one bit per neighbour: bit 7 for the neighbour above
    on the left, then clockwise down to bit 0 for the neighbour on the
    left, each set exactly when the neighbour is at least as bright as
    the pixel itself. *)
Theorem compute_lbp_pixels (image : Image) (h w : nat) :
  rectangular h w image → 2 ≤ h → 2 ≤ w →
  ∃ out,
    _compute_lbp image = Some out
    ∧ rectangular h w out
    ∧ (∀ i j, i < h → j < w →
         i = 0 ∨ i = h - 1 ∨ j = 0 ∨ j = w - 1 →
         pixel out i j = Some 0%Z)
    ∧ (∀ i j, i < h - 2 → j < w - 2 →
         ∃ c n7 n6 n5 n4 n3 n2 n1 n0 v,
           pixel image (i + 1) (j + 1) = Some c
           ∧ pixel image i j = Some n7
           ∧ pixel image i (j + 1) = Some n6
           ∧ pixel image i (j + 2) = Some n5
           ∧ pixel image (i + 1) (j + 2) = Some n4
           ∧ pixel image (i + 2) (j + 2) = Some n3
           ∧ pixel image (i + 2) (j + 1) = Some n2
           ∧ pixel image (i + 2) j = Some n1
           ∧ pixel image (i + 1) j = Some n0
           ∧ pixel out (i + 1) (j + 1) = Some v
           ∧ (0 ≤ v < 256)%Z
           ∧ Z.testbit v 7 = (c <=? n7)%Z
           ∧ Z.testbit v 6 = (c <=? n6)%Z
           ∧ Z.testbit v 5 = (c <=? n5)%Z
           ∧ Z.testbit v 4 = (c <=? n4)%Z
           ∧ Z.testbit v 3 = (c <=? n3)%Z
           ∧ Z.testbit v 2 = (c <=? n2)%Z
           ∧ Z.testbit v 1 = (c <=? n1)%Z
           ∧ Z.testbit v 0 = (c <=? n0)%Z).
Proof.
  intros Hrect Hh Hw.
  assert (length image = h) as Hlen by apply Hrect.
  assert (length (default [] (head image)) = w) as Hwidth.
  { destruct image as [|row rest]; [simpl in Hlen; lia|].
    simpl. apply Hrect. left. }
  unfold _compute_lbp. rewrite Hlen, Hwidth.
  destruct (Nat.ltb_spec h 2) as [|_]; [lia|].
  destruct (Nat.ltb_spec w 2) as [|_]; [lia|].
  cbn [orb]. cbv zeta.
  assert (∀ rows cols,
            (∀ l, length (rows l) = length l - 2) →
            (∀ l, length (cols l) = length l - 2) →
            (∀ l x, x ∈ rows l → x ∈ l) →
            ∀ k, rectangular (h - 2) (w - 2)
                   (ge_shl (slice2 rows cols image)
                      (slice2 inner inner image) k)) as Hlayer.
  { intros rows cols H1 H2 H3 k. unfold ge_shl.
    apply rectangular_zip_with.
    - by apply rectangular_slice2.
    - apply rectangular_slice2;
        [apply inner_length | apply inner_length | apply inner_sub | done]. }
  match goal with
  | |- ∃ out, Some (np_pad1 _ ?l) = Some out ∧ _ => set (lbp := l)
  end.
  assert (rectangular (h - 2) (w - 2) lbp) as Hlbp.
  { subst lbp. unfold ior.
    repeat (apply rectangular_zip_with;
            [|apply Hlayer;
              first [apply upto_m2_length | apply inner_length
                    | apply from_2_length | apply upto_m2_sub
                    | apply inner_sub | apply from_2_sub]]).
    apply rectangular_zeros. }
  exists (np_pad1 (w - 2) lbp). split; [done|].
  pose proof (rectangular_pad1 lbp _ _ Hlbp) as Hout.
  replace (h - 2 + 2) with h in Hout by lia.
  replace (w - 2 + 2) with w in Hout by lia.
  split; [exact Hout|]. split.
  - intros i j Hi Hj Hborder.
    apply (pixel_pad1_border lbp (h - 2) (w - 2)); [done | lia..].
  - intros i j Hi Hj.
    destruct (pixel_is_Some image h w (i + 1) (j + 1) Hrect) as [c Hc];
      [lia..|].
    destruct (pixel_is_Some image h w i j Hrect) as [n7 H7]; [lia..|].
    destruct (pixel_is_Some image h w i (j + 1) Hrect) as [n6 H6]; [lia..|].
    destruct (pixel_is_Some image h w i (j + 2) Hrect) as [n5 H5]; [lia..|].
    destruct (pixel_is_Some image h w (i + 1) (j + 2) Hrect) as [n4 H4];
      [lia..|].
    destruct (pixel_is_Some image h w (i + 2) (j + 2) Hrect) as [n3 H3];
      [lia..|].
    destruct (pixel_is_Some image h w (i + 2) (j + 1) Hrect) as [n2 H2];
      [lia..|].
    destruct (pixel_is_Some image h w (i + 2) j Hrect) as [n1 H1]; [lia..|].
    destruct (pixel_is_Some image h w (i + 1) j Hrect) as [n0 H0]; [lia..|].
    exists c, n7, n6, n5, n4, n3, n2, n1, n0.
    eexists. do 9 (split; [eassumption|]). split.
    + rewrite !Nat.add_1_r.
      rewrite (pixel_pad1_inner lbp (h - 2) (w - 2) i j Hlbp Hi Hj).
      subst lbp. unfold ior, ge_shl. rewrite !pixel_zip_with.
      rewrite (pixel_zeros _ _ _ _ Hi Hj).
      rewrite (pixel_slice2 inner inner 1 1 image h w i j
                 (@inner_lookup _) (@inner_lookup _) Hrect Hi Hj).
      rewrite (pixel_slice2 upto_m2 upto_m2 0 0 image h w i j
                 (@upto_m2_at _) (@upto_m2_at _) Hrect Hi Hj).
      rewrite (pixel_slice2 upto_m2 inner 0 1 image h w i j
                 (@upto_m2_at _) (@inner_lookup _) Hrect Hi Hj).
      rewrite (pixel_slice2 upto_m2 from_2 0 2 image h w i j
                 (@upto_m2_at _) (@from_2_at _) Hrect Hi Hj).
      rewrite (pixel_slice2 inner from_2 1 2 image h w i j
                 (@inner_lookup _) (@from_2_at _) Hrect Hi Hj).
      rewrite (pixel_slice2 from_2 from_2 2 2 image h w i j
                 (@from_2_at _) (@from_2_at _) Hrect Hi Hj).
      rewrite (pixel_slice2 from_2 inner 2 1 image h w i j
                 (@from_2_at _) (@inner_lookup _) Hrect Hi Hj).
      rewrite (pixel_slice2 from_2 upto_m2 2 0 image h w i j
                 (@from_2_at _) (@upto_m2_at _) Hrect Hi Hj).
      rewrite (pixel_slice2 inner upto_m2 1 0 image h w i j
                 (@inner_lookup _) (@upto_m2_at _) Hrect Hi Hj).
      rewrite !Nat.add_0_r.
      rewrite Hc, H7, H6, H5, H4, H3, H2, H1, H0. reflexivity.
    + apply (lbp_bits (c <=? n7)%Z (c <=? n6)%Z (c <=? n5)%Z (c <=? n4)%Z
               (c <=? n3)%Z (c <=? n2)%Z (c <=? n1)%Z (c <=? n0)%Z).
Qed.

Lemma compute_lbp_pixels_witness :
  ∃ out,
    _compute_lbp [[5; 9; 1]; [7; 5; 5]; [2; 8; 4]]%Z = Some out
    ∧ rectangular 3 3 out.
Proof.
  destruct (compute_lbp_pixels [[5; 9; 1]; [7; 5; 5]; [2; 8; 4]]%Z 3 3)
    as (out & Hrun & Hshape & _).
  - split; [reflexivity|].
    intros row Hrow.
    repeat (apply elem_of_cons in Hrow as [->|Hrow]; [reflexivity|]).
    by apply elem_of_nil in Hrow.
  - lia.
  - lia.
  - exists out. split; [exact Hrun | exact Hshape].
Defined.
End LbpSpec.
